(** * MicroLua event-to-thread dispatch engine (mlua.event)

    A shallow embedding of the event module that lives in the second half of
    [src/lib/pico.time.c]: the event slot table ([mlua_event_claim],
    [mlua_event_unclaim], [mlua_event_set], [mlua_event_clear]), the watcher
    registry ([mlua_event_watch], [mlua_event_unwatch]), the generic wait
    protocol ([mlua_event_wait], [mlua_event_wait_2]) and the dispatch loop
    ([mod_dispatch]).

    Conventions.
    - A [uint32_t] is a [Z]; the complement [~x] is written out as
      [not32 x], the only place where the 32-bit width matters.
    - Event identifiers, block indices, bit indices and core numbers are
      [nat] (they are unsigned in the C code).
    - A critical section ([mlua_event_lock] .. [mlua_event_unlock]) is one
      atomic step of the model.
    - A Lua error ([luaL_error], or an error escaping [lua_call]) is an
      explicit outcome; a coroutine yield is an explicit outcome carrying
      the continuation. *)

From stdpp Require Import gmap list strings.
From Stdlib Require Import ZArith Lia Bool.

Set Warnings "-clear-no-such-hyp".

(* ===================================================================== *)
(** ** Machine words *)
(* ===================================================================== *)

Definition UINT32_MAX : Z := 0xFFFFFFFF.

(** [~x] on a [uint32_t]. *)
Definition not32 (x : Z) : Z := Z.land (Z.lnot x) UINT32_MAX.

(** [1u << i]. *)
Definition bit (i : nat) : Z := Z.shiftl 1 (Z.of_nat i).

(** [__builtin_ffs] on a 32-bit [int]: one plus the index of the least
    significant set bit, or zero when no bit is set. *)
Fixpoint ffs_from (n i : nat) (x : Z) : nat :=
  match n with
  | O => O
  | S n' => if Z.testbit x (Z.of_nat i) then S i else ffs_from n' (S i) x
  end.

Definition ffs (x : Z) : nat := ffs_from 32 0 x.

(* ===================================================================== *)
(** ** The event slot table *)
(* ===================================================================== *)

Definition NUM_EVENTS : nat := 128.
Definition EVENTS_SIZE : nat := (NUM_EVENTS + 31) / 32.

(** Modelled from the spec: the SDK macro [NUM_CORES] is not part of the
    sources; the spec describes a dual-core microcontroller. *)
Definition NUM_CORES : nat := 2.

(** [MLuaEvent] is a small unsigned integer. *)
Abbreviation MLuaEvent := nat (only parsing).

(** Modelled from the spec: the macro [MLUA_EVENT_UNSET] is declared in a
    header that is not part of the sources; the spec describes an unset
    handle as a value outside the valid id range.  Nothing below depends on
    the value beyond [NUM_EVENTS <= MLUA_EVENT_UNSET]. *)
Definition MLUA_EVENT_UNSET : MLuaEvent := 255.

Record EventState := {
  pending : list Z;          (* uint32_t pending[EVENTS_SIZE] *)
  mask : list (list Z)       (* uint32_t mask[NUM_CORES][EVENTS_SIZE] *)
}.

(** The zero-initialised static [event_state]. *)
Definition event_state_init : EventState :=
  {| pending := replicate EVENTS_SIZE 0%Z;
     mask := replicate NUM_CORES (replicate EVENTS_SIZE 0%Z) |}.

(** A [uint32_t] value. *)
Definition word32 (x : Z) : bool := (0 <=? x)%Z && (x <? 2 ^ 32)%Z.

(** The arrays have their declared dimensions and hold [uint32_t] values. *)
Definition wf_event_state (es : EventState) : bool :=
  (length (pending es) =? EVENTS_SIZE) &&
  (length (mask es) =? NUM_CORES) &&
  forallb (fun row => length row =? EVENTS_SIZE) (mask es) &&
  forallb word32 (pending es) &&
  forallb (forallb word32) (mask es).

Definition word_at (a : list Z) (i : nat) : Z := nth i a 0%Z.

Definition mask_row (es : EventState) (core : nat) : list Z :=
  nth core (mask es) [].

(** [event_state.mask[core][block]] *)
Definition mask_at (es : EventState) (core block : nat) : Z :=
  word_at (mask_row es core) block.

(** [event_state.pending[block]] *)
Definition pending_at (es : EventState) (block : nat) : Z :=
  word_at (pending es) block.

(** [event_state.mask[core][block] = v] *)
Definition set_mask_at (es : EventState) (core block : nat) (v : Z)
  : EventState :=
  {| pending := pending es;
     mask := <[core := <[block := v]> (mask_row es core)]> (mask es) |}.

(** [event_state.pending[block] = v] *)
Definition set_pending_at (es : EventState) (block : nat) (v : Z)
  : EventState :=
  {| pending := <[block := v]> (pending es); mask := mask es |}.

(** Bit [e % 32] of word [e / 32] of a bitmap. *)
Definition slot_bit (a : list Z) (e : nat) : bool :=
  Z.testbit (word_at a (e / 32)) (Z.of_nat (e mod 32)).

Definition is_pending (es : EventState) (e : nat) : bool :=
  slot_bit (pending es) e.

Definition claimed_by (es : EventState) (core e : nat) : bool :=
  slot_bit (mask_row es core) e.

Definition is_claimed (es : EventState) (e : nat) : bool :=
  existsb (fun core => claimed_by es core e) (seq 0 NUM_CORES).

(** The inner loop of [mlua_event_claim]:
    [for (core = 0; core < NUM_CORES; ++core) mask |= mask[core][block]]. *)
Definition union_mask (es : EventState) (block : nat) : Z :=
  fold_left (fun m core => Z.lor m (mask_at es core block))
            (seq 0 NUM_CORES) 0%Z.

(** The outer loop of [mlua_event_claim], with [n] blocks left to scan
    starting at [block]. *)
Fixpoint claim_scan (n block core : nat) (es : EventState)
  : option (MLuaEvent * EventState) :=
  match n with
  | O => None
  | S n' =>
      match ffs (not32 (union_mask es block)) with
      | S idx =>
          Some (block * 32 + idx,
                set_mask_at es core block
                  (Z.lor (mask_at es core block) (bit idx)))
      | O => claim_scan n' (S block) core es
      end
  end.

(** [mlua_event_claim(ev)] on core [core]; the result is the new state, the
    new value of [*ev] and the returned error string ([None] for [NULL]). *)
Definition mlua_event_claim (core : nat) (es : EventState) (ev : MLuaEvent)
  : EventState * MLuaEvent * option string :=
  if ev <? NUM_EVENTS then (es, ev, Some "event already claimed")
  else
    match claim_scan EVENTS_SIZE 0 core es with
    | Some (e, es') => (es', e, None)
    | None => (es, ev, Some "no events available")
    end.

(* ===================================================================== *)
(** ** The interpreter and the machine around the table *)
(* ===================================================================== *)

(** Threads and Lua tables are identified by numbers. *)
Abbreviation Thread := nat (only parsing).
Abbreviation TableRef := nat (only parsing).

(** A value stored in the watcher table: a thread, or a reference to a Lua
    table whose keys are threads (all mapped to [true]).  The table is
    private to the module and never holds anything else, so the [default]
    branches of the C switches are not reachable. *)
Inductive Watcher :=
| WThread (t : Thread)
| WTable (a : TableRef).

(** The world as the code running on one core sees it: the machine state
    shared by the cores (the slot table, the event signal, the timer) and
    the state of that core's interpreter (the watcher table in its registry,
    the running thread). *)
Record World := {
  event_state : EventState;          (* the static event_state *)
  sev_count : nat;                   (* __sev() signals issued so far *)
  clock : Z;                         (* time_us_64() *)
  watchers : gmap nat Watcher;       (* registry[&event_state] *)
  tables : gmap nat (gset nat);      (* the Lua tables used as watcher sets *)
  running : Thread;                  (* what lua_pushthread pushes *)
  yieldable : bool                   (* lua_isyieldable *)
}.

Definition set_event_state (w : World) (es : EventState) : World :=
  {| event_state := es; sev_count := sev_count w; clock := clock w;
     watchers := watchers w; tables := tables w; running := running w;
     yieldable := yieldable w |}.

Definition set_sev_count (w : World) (n : nat) : World :=
  {| event_state := event_state w; sev_count := n; clock := clock w;
     watchers := watchers w; tables := tables w; running := running w;
     yieldable := yieldable w |}.

Definition set_watchers (w : World) (m : gmap nat Watcher) : World :=
  {| event_state := event_state w; sev_count := sev_count w;
     clock := clock w; watchers := m; tables := tables w;
     running := running w; yieldable := yieldable w |}.

Definition set_tables (w : World) (h : gmap nat (gset nat)) : World :=
  {| event_state := event_state w; sev_count := sev_count w;
     clock := clock w; watchers := watchers w; tables := h;
     running := running w; yieldable := yieldable w |}.

(** The keys of the Lua table at [a]. *)
Definition table_keys (w : World) (a : TableRef) : gset Thread :=
  default ∅ (tables w !! a).

(** [t[thread] = true] and [t[thread] = nil]. *)
Definition table_add (t : Thread) (s : gset Thread) : gset Thread :=
  {[t]} ∪ s.
Definition table_remove (t : Thread) (s : gset Thread) : gset Thread :=
  s ∖ {[t]}.

(** The threads registered for a slot, whatever the storage tier. *)
Definition watchers_of (w : World) (ev : MLuaEvent) : gset Thread :=
  match watchers w !! ev with
  | None => ∅
  | Some (WThread t) => {[t]}
  | Some (WTable a) => table_keys w a
  end.

(** [mlua_event_unclaim(ls, ev)] on core [core]; the result is the new world
    and the new value of [*ev]. *)
Definition mlua_event_unclaim (core : nat) (w : World) (ev : MLuaEvent)
  : World * MLuaEvent :=
  if NUM_EVENTS <=? ev then (w, ev)
  else
    let es := event_state w in
    let pmask := mask_at es core (ev / 32) in
    let m := Z.land pmask (not32 (bit (ev mod 32))) in
    if Z.eqb m pmask then (w, ev)
    else
      (set_watchers
         (set_event_state w (set_mask_at es core (ev / 32) m))
         (delete ev (watchers w)),
       MLUA_EVENT_UNSET).

(** [mlua_event_set(ev)] *)
Definition mlua_event_set (w : World) (ev : MLuaEvent) : World :=
  if NUM_EVENTS <=? ev then w
  else
    let es := event_state w in
    set_sev_count
      (set_event_state w
         (set_pending_at es (ev / 32)
            (Z.lor (pending_at es (ev / 32)) (bit (ev mod 32)))))
      (S (sev_count w)).

(** [mlua_event_clear(ev)] *)
Definition mlua_event_clear (w : World) (ev : MLuaEvent) : World :=
  if NUM_EVENTS <=? ev then w
  else
    let es := event_state w in
    set_event_state w
      (set_pending_at es (ev / 32)
         (Z.land (pending_at es (ev / 32)) (not32 (bit (ev mod 32))))).

(** [mlua_event_watch(ls, ev)]; [Some msg] is the error raised. *)
Definition mlua_event_watch (w : World) (ev : MLuaEvent)
  : World * option string :=
  if NUM_EVENTS <=? ev then (w, Some "watching disabled event")
  else if negb (yieldable w)
  then (w, Some "watching event in unyieldable thread")
  else
    match watchers w !! ev with
    | None =>                                   (* No watchers *)
        (set_watchers w (<[ev := WThread (running w)]> (watchers w)), None)
    | Some (WThread t) =>                       (* A single watcher *)
        if t =? running w then (w, None)        (* Already registered *)
        else
          let a := fresh (dom (tables w)) in    (* lua_createtable *)
          (set_watchers
             (set_tables w
                (<[a := table_add t (table_add (running w) ∅)]> (tables w)))
             (<[ev := WTable a]> (watchers w)),
           None)
    | Some (WTable a) =>                        (* Multiple watchers *)
        (set_tables w (alter (table_add (running w)) a (tables w)), None)
    end.

(** [mlua_event_unwatch(ls, ev)] *)
Definition mlua_event_unwatch (w : World) (ev : MLuaEvent) : World :=
  if NUM_EVENTS <=? ev then w
  else
    match watchers w !! ev with
    | Some (WThread t) =>                       (* A single watcher *)
        if t =? running w
        then set_watchers w (delete ev (watchers w))
        else w                                  (* Not the current thread *)
    | Some (WTable a) =>                        (* Multiple watchers *)
        set_tables w (alter (table_remove (running w)) a (tables w))
    | None => w
    end.

(* ===================================================================== *)
(** ** Suspension and the wait protocol *)
(* ===================================================================== *)

(** What a callback into Lua or C gives back: a value, or a Lua error that
    propagates through the caller. *)
Inductive CallResult (A : Type) :=
| Returns (a : A)
| Raises (msg : string).
Arguments Returns {A} a.
Arguments Raises {A} msg.

(** A [lua_CFunction] used as the non-blocking attempt. *)
Definition TryFn := World -> World * CallResult Z.

(** The value handed to the resumer by [mlua_event_suspend]: the stack slot
    at [index] (a deadline) or, for index zero, [true]. *)
Inductive YieldValue :=
| YTrue
| YIndex (index : Z).

(** What [mlua_event_wait_1] leaves behind when it yields: the continuation
    is [mlua_event_wait_2], its context is the event, and the try function
    and the index sit on the Lua stack. *)
Record WaitFrame := {
  k_event : MLuaEvent;
  k_try : TryFn;
  k_index : Z
}.

Inductive Outcome :=
| Return (res : Z)                       (* the C function returns *)
| Yield (k : WaitFrame) (v : YieldValue) (* lua_yieldk *)
| Error (msg : string).                  (* luaL_error *)

(** [mlua_event_yield]: [lua_yieldk] suspends a yieldable thread and raises
    in any other; the [luaL_error] after it is not reached. *)
Definition mlua_event_yield (w : World) (k : WaitFrame) (v : YieldValue)
  : World * Outcome :=
  if yieldable w then (w, Yield k v)
  else (w, Error "attempt to yield from outside a coroutine").

(** [mlua_event_suspend] *)
Definition mlua_event_suspend (w : World) (k : WaitFrame) (index : Z)
  : World * Outcome :=
  mlua_event_yield w k (if (index =? 0)%Z then YTrue else YIndex index).

(** [mlua_event_wait_1] *)
Definition mlua_event_wait_1 (w : World) (event : MLuaEvent)
    (try_get : TryFn) (index : Z) : World * Outcome :=
  mlua_event_suspend w
    {| k_event := event; k_try := try_get; k_index := index |} index.

(** [mlua_event_wait] *)
Definition mlua_event_wait (w : World) (event : MLuaEvent)
    (try_get : TryFn) (index : Z) : World * Outcome :=
  if NUM_EVENTS <=? event then (w, Error "wait for unclaimed event")
  else
    match try_get w with
    | (w1, Raises msg) => (w1, Error msg)
    | (w1, Returns res) =>
        if (0 <=? res)%Z then (w1, Return res)
        else
          match mlua_event_watch w1 event with
          | (w2, Some msg) => (w2, Error msg)
          | (w2, None) => mlua_event_wait_1 w2 event try_get index
          end
    end.

(** [mlua_event_wait_2], the continuation run when the thread is resumed. *)
Definition mlua_event_wait_2 (w : World) (k : WaitFrame) : World * Outcome :=
  match k_try k w with
  | (w1, Raises msg) => (w1, Error msg)
  | (w1, Returns res) =>
      if (res <? 0)%Z
      then mlua_event_wait_1 w1 (k_event k) (k_try k) (k_index k)
      else (mlua_event_unwatch w1 (k_event k), Return res)
  end.

(* ===================================================================== *)
(** ** Time (Pico SDK) *)
(* ===================================================================== *)

(** Modelled from the spec: the Pico SDK's time interface is not part of
    the sources.  An [absolute_time_t] is a number of microseconds since
    boot; the spec's two sentinels, "already past" and "no deadline", are
    the SDK's [nil_time] (zero) and [at_the_end_of_time] (the largest
    [int64_t]); [time_reached t] holds once the microsecond counter has
    reached [t]. *)
Definition nil_time : Z := 0.
Definition at_the_end_of_time : Z := 0x7FFFFFFFFFFFFFFF.

Definition is_nil_time (t : Z) : bool := (t =? 0)%Z.
Definition is_at_the_end_of_time (t : Z) : bool :=
  (t =? at_the_end_of_time)%Z.
Definition time_reached (t : Z) (w : World) : bool := (t <=? clock w)%Z.

(* ===================================================================== *)
(** ** The dispatch loop *)
(* ===================================================================== *)

(** What the dispatch loop does that an observer can see. *)
Inductive Event :=
| EvResume (slot : nat) (t : Thread) (r : CallResult bool)
| EvWfe                                  (* __wfe() *)
| EvWfeOrTimeout (deadline : Z).         (* best_effort_wfe_or_timeout *)

(** The result of a piece of the loop: it goes on with a value, a Lua
    error unwinds it, or the model's iteration bound was hit. *)
Inductive Res (A : Type) :=
| Ok (a : A) (w : World)
| Raise (msg : string) (w : World)
| Fuel.
Arguments Ok {A} a w.
Arguments Raise {A} msg w.
Arguments Fuel {A}.

Definition Comp (A : Type) : Type := World -> list Event * Res A.

Definition ret {A} (a : A) : Comp A := fun w => ([], Ok a w).

Definition bind {A B} (m : Comp A) (f : A -> Comp B) : Comp B :=
  fun w =>
    match m w with
    | (tr, Ok a w') => let (tr', r) := f a w' in (tr ++ tr', r)
    | (tr, Raise msg w') => (tr, Raise msg w')
    | (tr, Fuel) => (tr, Fuel)
    end.

Notation "x <- m ;; k" := (bind m (fun x => k))
  (at level 100, m at next level, right associativity).

Section Dispatch.

(** [get_core_num()] *)
Variable core : nat.
(** The Lua function passed as argument 1, applied to a thread with
    [lua_call]; its result is read with [lua_toboolean]. *)
Variable resume : Thread -> World -> World * CallResult bool.
(** The order in which [lua_next] enumerates the keys of a table. *)
Variable traversal : gset Thread -> list Thread.
(** [__wfe()] and [best_effort_wfe_or_timeout(deadline)]: whatever
    happens on the machine while the core sleeps. *)
Variable wfe : World -> World.
Variable best_effort_wfe_or_timeout : Z -> World -> World.

(** [lua_call(resume, thread); wake = wake || lua_toboolean(ls, -1)] *)
Definition resume_watcher (slot : nat) (t : Thread) (wake : bool)
  : Comp bool :=
  fun w =>
    match resume t w with
    | (w', Returns r) => ([EvResume slot t (Returns r)], Ok (wake || r) w')
    | (w', Raises msg) => ([EvResume slot t (Raises msg)], Raise msg w')
    end.

(** The [lua_next] loop over a watcher set.  [keys] is the enumeration
    order of the table as it was when the loop started; a key removed in
    the meantime is skipped. *)
Fixpoint resume_table (slot : nat) (a : TableRef) (keys : list Thread)
    (wake : bool) : Comp bool :=
  match keys with
  | [] => ret wake
  | t :: rest =>
      fun w =>
        if decide (t ∈ table_keys w a)
        then (wake' <- resume_watcher slot t wake ;;
              resume_table slot a rest wake') w
        else resume_table slot a rest wake w
  end.

(** The [switch (lua_rawgeti(ls, -1, slot))] *)
Definition dispatch_slot (slot : nat) (wake : bool) : Comp bool :=
  fun w =>
    match watchers w !! slot with
    | Some (WThread t) => resume_watcher slot t wake w
    | Some (WTable a) =>
        resume_table slot a (traversal (table_keys w a)) wake w
    | None => ret wake w
    end.

(** The inner [for (;;)] over the bits of [active]. *)
Fixpoint dispatch_active (fuel block : nat) (active : Z) (wake : bool)
  : Comp bool :=
  match ffs active with
  | O => ret wake
  | S idx =>
      match fuel with
      | O => fun _ => ([], Fuel)
      | S fuel' =>
          wake' <- dispatch_slot (block * 32 + idx) wake ;;
          dispatch_active fuel' block (Z.land active (not32 (bit idx)))
                          wake'
      end
  end.

(** The critical section of one block: snapshot, clear the owned bits. *)
Definition drain_block (block : nat) (es : EventState) : EventState :=
  let active := pending_at es block in
  let m := mask_at es core block in
  set_pending_at es block (Z.land active (not32 m)).

(** One iteration of [for (block = 0; block < EVENTS_SIZE; ++block)]. *)
Definition dispatch_block (block : nat) (wake : bool) : Comp bool :=
  fun w =>
    let es := event_state w in
    let active := pending_at es block in
    let m := mask_at es core block in
    dispatch_active 32 block (Z.land active m) wake
      (set_event_state w (drain_block block es)).

Fixpoint dispatch_blocks (n block : nat) (wake : bool) : Comp bool :=
  match n with
  | O => ret wake
  | S n' =>
      wake' <- dispatch_block block wake ;;
      dispatch_blocks n' (S block) wake'
  end.

(** One pass of the outer [for (;;)] up to the exit test. *)
Definition dispatch_pass : Comp bool :=
  dispatch_blocks EVENTS_SIZE 0 false.

(** The low-power wait at the end of a pass. *)
Definition low_power_wait (deadline : Z) : Comp unit :=
  fun w =>
    if negb (is_at_the_end_of_time deadline)
    then ([EvWfeOrTimeout deadline],
          Ok tt (best_effort_wfe_or_timeout deadline w))
    else ([EvWfe], Ok tt (wfe w)).

(** [mod_dispatch]; [fuel] bounds the number of passes. *)
Fixpoint mod_dispatch (fuel : nat) (deadline : Z) : Comp unit :=
  match fuel with
  | O => fun _ => ([], Fuel)
  | S fuel' =>
      wake <- dispatch_pass ;;
      fun w =>
        if wake || is_nil_time deadline || time_reached deadline w
        then ret tt w
        else (_ <- low_power_wait deadline ;;
              mod_dispatch fuel' deadline) w
  end.

End Dispatch.

(* ===================================================================== *)
(** ** Specifications of the pieces of the dispatch loop *)
(* ===================================================================== *)

(** A resume call that reported progress. *)
Definition is_progress (e : Event) : bool :=
  match e with
  | EvResume _ _ (Returns true) => true
  | _ => false
  end.

(** What a piece [m] of the loop guarantees when it is entered with the
    flag [wake]: it never hits the iteration bound, every event it emits
    satisfies [E] (relative to the world it started in), the world it
    leaves is related to the initial one by [R], and when it completes the
    flag is the old one or-ed with the progress reported on the way. *)
Definition comp_spec (R : World -> World -> Prop)
    (E : World -> Event -> Prop) (wake : bool) (m : Comp bool) : Prop :=
  forall w tr r, m w = (tr, r) ->
    Forall (E w) tr /\
    match r with
    | Ok wake' w' => R w w' /\ wake' = wake || existsb is_progress tr
    | Raise _ w' => R w w'
    | Fuel => False
    end.

(** The event is the resume of a watcher of a slot that was pending and
    owned by [core] in some world [R]-reachable from [w]. *)
Definition resumes_owned_pending (core : nat) (R : World -> World -> Prop)
    (w : World) (e : Event) : Prop :=
  exists slot t r, e = EvResume slot t r /\
    exists w1, R w w1 /\
      is_pending (event_state w1) slot = true /\
      claimed_by (event_state w1) core slot = true.

(** The bits of [pending[block] & mask[core][block]]. *)
Definition active_bit (core : nat) (es : EventState) (block i : nat) : bool :=
  Z.testbit (Z.land (pending_at es block) (mask_at es core block))
            (Z.of_nat i).

(** What one pass may do to the slot table when the resumed threads leave
    it alone: the masks keep their value, no pending bit appears, and the
    pending bits of slots that [core] does not own keep their value. *)
Definition drained_by (core : nat) (w w' : World) : Prop :=
  mask (event_state w') = mask (event_state w) /\
  (forall e, is_pending (event_state w') e = true ->
             is_pending (event_state w) e = true) /\
  (forall e, claimed_by (event_state w) core e = false ->
             is_pending (event_state w') e = is_pending (event_state w) e).

(** The event is a resume call (and not a low-power wait). *)
Definition is_resume (e : Event) : Prop :=
  exists slot t r, e = EvResume slot t r.

(* ===================================================================== *)
(** ** Reachable slot tables *)
(* ===================================================================== *)

(** Every pending slot is claimed by some core. *)
Definition pending_implies_claimed (es : EventState) : Prop :=
  forall e, is_pending es e = true -> is_claimed es e = true.

(** No slot is in the masks of two cores. *)
Definition exclusive_ownership (es : EventState) : Prop :=
  forall c c' e,
    claimed_by es c e = true -> claimed_by es c' e = true -> c = c'.

(** The slot tables reachable from the initial one by any sequence of
    claim, unclaim, set, clear and dispatch operations, issued by any core
    with any interpreter state around the table.  A dispatch pass acts on
    the table through the critical sections of its blocks ([drain_block]);
    what the threads it resumes do to the table are operations of this
    list themselves. *)
Inductive reachable : EventState -> Prop :=
| reach_init : reachable event_state_init
| reach_claim (core : nat) (ev : MLuaEvent) (es : EventState) :
    core < NUM_CORES -> reachable es ->
    reachable (mlua_event_claim core es ev).1.1
| reach_unclaim (core : nat) (ev : MLuaEvent) (w : World) :
    core < NUM_CORES -> reachable (event_state w) ->
    reachable (event_state (mlua_event_unclaim core w ev).1)
| reach_set (ev : MLuaEvent) (w : World) :
    reachable (event_state w) ->
    reachable (event_state (mlua_event_set w ev))
| reach_clear (ev : MLuaEvent) (w : World) :
    reachable (event_state w) ->
    reachable (event_state (mlua_event_clear w ev))
| reach_drain (core block : nat) (es : EventState) :
    core < NUM_CORES -> reachable es ->
    reachable (drain_block core block es).

(** The same, under the discipline that producers follow: a slot is
    marked pending only while it is claimed, and it is released only
    while it is not pending. *)
Inductive reachable_disciplined : EventState -> Prop :=
| reach_d_init : reachable_disciplined event_state_init
| reach_d_claim (core : nat) (ev : MLuaEvent) (es : EventState) :
    core < NUM_CORES -> reachable_disciplined es ->
    reachable_disciplined (mlua_event_claim core es ev).1.1
| reach_d_unclaim (core : nat) (ev : MLuaEvent) (w : World) :
    core < NUM_CORES -> reachable_disciplined (event_state w) ->
    is_pending (event_state w) ev = false ->
    reachable_disciplined (event_state (mlua_event_unclaim core w ev).1)
| reach_d_set (ev : MLuaEvent) (w : World) :
    reachable_disciplined (event_state w) ->
    (ev < NUM_EVENTS -> is_claimed (event_state w) ev = true) ->
    reachable_disciplined (event_state (mlua_event_set w ev))
| reach_d_clear (ev : MLuaEvent) (w : World) :
    reachable_disciplined (event_state w) ->
    reachable_disciplined (event_state (mlua_event_clear w ev))
| reach_d_drain (core block : nat) (es : EventState) :
    core < NUM_CORES -> reachable_disciplined es ->
    reachable_disciplined (drain_block core block es).

(* ===================================================================== *)
(** ** Sample states *)
(* ===================================================================== *)

(** A world around a given slot table: nobody watches anything, thread 1
    is running inside a coroutine. *)
Definition world_of (es : EventState) : World :=
  {| event_state := es; sev_count := 0; clock := 1000%Z;
     watchers := ∅; tables := ∅; running := 1; yieldable := true |}.

(** Every slot is claimed by core 0. *)
Definition es_full : EventState :=
  {| pending := replicate EVENTS_SIZE 0%Z;
     mask := [replicate EVENTS_SIZE UINT32_MAX; replicate EVENTS_SIZE 0%Z] |}.

(** Core 0 owns slot 3, whose pending bit is set, and thread 1 watches
    it. *)
Definition es_slot3_pending : EventState :=
  {| pending := [8; 0; 0; 0]%Z;
     mask := [[8; 0; 0; 0]; [0; 0; 0; 0]]%Z |}.

Definition w_slot3_pending : World :=
  set_watchers (world_of es_slot3_pending) {[3 := WThread 1]}.

(** Core 0 owns slot 5. *)
Definition es_slot5 : EventState :=
  {| pending := [0; 0; 0; 0]%Z;
     mask := [[32; 0; 0; 0]; [0; 0; 0; 0]]%Z |}.

(** Slot 5 is watched by a set that holds only thread 7, which is the
    running thread (threads 2 and 7 were watching, thread 2 has left). *)
Definition w_last_watcher : World :=
  {| event_state := es_slot5; sev_count := 0; clock := 1000%Z;
     watchers := {[5 := WTable 0]}; tables := {[0 := {[7]}]};
     running := 7; yieldable := true |}.

(** Slot 5 is watched by thread 2 alone; thread 7 is running. *)
Definition w_single_watcher : World :=
  {| event_state := es_slot5; sev_count := 0; clock := 1000%Z;
     watchers := {[5 := WThread 2]}; tables := ∅;
     running := 7; yieldable := true |}.

(** A try function that succeeds once slot 3 has fired: it consumes the
    pending bit and returns one result, and otherwise reports "not ready".
    Every call is counted in [clock], so that a call is visible. *)
Definition try_slot3 : TryFn :=
  fun w =>
    let w1 :=
      {| event_state := event_state w; sev_count := sev_count w;
         clock := (clock w + 1)%Z; watchers := watchers w;
         tables := tables w; running := running w;
         yieldable := yieldable w |} in
    if is_pending (event_state w) 3
    then (mlua_event_clear w1 3, Returns 1%Z)
    else (w1, Returns (-1)%Z).

(** Core 0 owns slot 3, nothing is pending and nobody watches. *)
Definition w_slot3_idle : World :=
  world_of {| pending := [0; 0; 0; 0]%Z;
              mask := [[8; 0; 0; 0]; [0; 0; 0; 0]]%Z |}.

(** The frame [mlua_event_wait] leaves when it waits for slot 3 with
    [try_slot3] and no deadline. *)
Definition k_slot3 : WaitFrame :=
  {| k_event := 3; k_try := try_slot3; k_index := 0%Z |}.

(** A resume function that runs nothing and reports progress. *)
Definition resume_progress : nat -> World -> World * CallResult bool :=
  fun _ w => (w, Returns true).

(** A resume function that runs nothing and reports no progress. *)
Definition resume_idle : nat -> World -> World * CallResult bool :=
  fun _ w => (w, Returns false).

(** A sleep during which an interrupt handler marks slot 3 pending and
    one microsecond passes. *)
Definition wfe_fires_slot3 : World -> World :=
  fun w =>
    let w1 := mlua_event_set w 3 in
    {| event_state := event_state w1; sev_count := sev_count w1;
       clock := (clock w1 + 1)%Z; watchers := watchers w1;
       tables := tables w1; running := running w1;
       yieldable := yieldable w1 |}.

(** A timed sleep that lasts until the deadline. *)
Definition sleep_until_deadline : Z -> World -> World :=
  fun deadline w =>
    {| event_state := event_state w; sev_count := sev_count w;
       clock := Z.max (clock w) deadline; watchers := watchers w;
       tables := tables w; running := running w;
       yieldable := yieldable w |}.

(** Core 0 owns slot 3, watched by thread 1; nothing is pending. *)
Definition w_slot3_watched : World :=
  set_watchers w_slot3_idle {[3 := WThread 1]}.

(** Core 0 owns slot 3 and core 1 owns slot 40; both are pending and each
    has one watcher. *)
Definition w_two_cores : World :=
  set_watchers
    (world_of {| pending := [8; 256; 0; 0]%Z;
                 mask := [[8; 0; 0; 0]; [0; 256; 0; 0]]%Z |})
    {[3 := WThread 1; 40 := WThread 2]}.

(** Core 0 claims the first slot, the slot fires, and core 0 releases it
    before any dispatch pass has run. *)
Definition es_claimed0 : EventState :=
  (mlua_event_claim 0 event_state_init MLUA_EVENT_UNSET).1.1.
Definition w_fired0 : World := mlua_event_set (world_of es_claimed0) 0.
Definition w_released0 : World := (mlua_event_unclaim 0 w_fired0 0).1.

(** [forall e < n, f e] by enumeration. *)
Definition all_below (n : nat) (f : nat -> bool) : bool :=
  forallb f (seq 0 n).

(* ===================================================================== *)
(** ** Events driven by an interrupt *)
(* ===================================================================== *)

(** The Lua value at the argument index of [mlua_event_enable_irq_arg], as
    far as the function tells values apart. *)
Inductive IrqArg :=
| ArgNone                      (* LUA_TNONE *)
| ArgNil                       (* LUA_TNIL *)
| ArgBoolean (b : bool)        (* LUA_TBOOLEAN *)
| ArgInteger (n : Z)           (* a value luaL_checkinteger accepts *)
| ArgOther.                    (* a value luaL_checkinteger rejects *)

(** The calls made into the SDK's interrupt interface, with the arguments
    as the C code passes them; interrupt lines and handlers are numbered. *)
Inductive IrqCall :=
| IrqSetExclusiveHandler (irq handler : nat)
| IrqAddSharedHandler (irq handler : nat) (priority : Z)
| IrqSetEnabled (irq : nat) (enabled : bool)
| IrqRemoveHandler (irq handler : nat).

(** [mlua_event_enable_irq_arg]: the returned flag and the value of
    [*priority] afterwards; the error is the one [luaL_checkinteger]
    raises. *)
Definition mlua_event_enable_irq_arg (arg : IrqArg) (priority : Z)
  : CallResult (bool * Z) :=
  match arg with
  | ArgBoolean b =>
      if negb b then Returns (false, priority) else Returns (true, priority)
  | ArgNone | ArgNil => Returns (true, priority)
  | ArgInteger n => Returns (true, n)
  | ArgOther => Raises "number expected"
  end.

(** [mlua_event_set_irq_handler] *)
Definition mlua_event_set_irq_handler (irq handler : nat) (priority : Z)
  : list IrqCall :=
  (if (priority <? 0)%Z
   then [IrqSetExclusiveHandler irq handler]
   else [IrqAddSharedHandler irq handler priority])
  ++ [IrqSetEnabled irq true].

(** [mlua_event_remove_irq_handler] *)
Definition mlua_event_remove_irq_handler (irq handler : nat) : list IrqCall :=
  [IrqSetEnabled irq false; IrqRemoveHandler irq handler].

(** [mlua_event_enable_irq] on core [core]: the new world, the new value of
    [*ev], the SDK calls made, and the returned string ([None] for [NULL])
    or the Lua error raised. *)
Definition mlua_event_enable_irq (core : nat) (w : World) (ev : MLuaEvent)
    (irq handler : nat) (arg : IrqArg) (priority : Z)
  : World * MLuaEvent * list IrqCall * CallResult (option string) :=
  match mlua_event_enable_irq_arg arg priority with
  | Raises msg => (w, ev, [], Raises msg)
  | Returns (false, _) =>                             (* Disable IRQ *)
      let (w', ev') := mlua_event_unclaim core w ev in
      (w', ev', mlua_event_remove_irq_handler irq handler, Returns None)
  | Returns (true, priority') =>
      match mlua_event_claim core (event_state w) ev with
      | (es', ev', Some err) =>
          (set_event_state w es', ev', [], Returns (Some err))
      | (es', ev', None) =>
          (set_event_state w es', ev',
           mlua_event_set_irq_handler irq handler priority', Returns None)
      end
  end.

(* ===================================================================== *)
(** ** Sleeping and alarms (pico.time) *)
(* ===================================================================== *)

(** What a call of [mod_sleep_until] ends in: it returns a number of
    results, it yields the deadline found at stack index 1 (with
    [mod_sleep_until_1], which runs [mod_sleep_until] again, as
    continuation), or [lua_yieldk] raises. *)
Inductive SleepOutcome :=
| SleepReturn (nres : Z)
| SleepYield (deadline : Z)
| SleepError (msg : string).

(** [mod_sleep_until], built with the event module, for the time [t] at
    argument index 1. *)
Definition mod_sleep_until (w : World) (t : Z) : SleepOutcome :=
  if time_reached t w then SleepReturn 0
  else if yieldable w then SleepYield t
  else SleepError "attempt to yield from outside a coroutine".

(** One invocation of an alarm callback: the time the alarm was set for
    and the reading of the clock when the callback was called. *)
Inductive AlarmCall :=
| AlarmFired (time now : Z).

Inductive AlarmOutcome :=
| AlarmFinished                (* the thread function returned *)
| AlarmYield (time : Z)        (* suspended in mod_sleep_until *)
| AlarmError (msg : string)
| AlarmFuel.                   (* the model's bound on reschedulings *)

Section Alarm.

(** The SDK's [delayed_by_us], which is not part of the sources. *)
Variable delayed_by_us : Z -> Z -> Z.
(** The callback in upvalue 2, called with the alarm thread: it returns
    nil ([None]) or a 64-bit integer, or raises. *)
Variable callback : nat -> World -> World * CallResult (option Z).

(** [alarm_thread_1] followed by [alarm_thread_2] and [alarm_thread_3],
    for the time at stack index 1.  The same function is what runs when
    the thread is resumed after a yield. *)
Fixpoint alarm_thread_1 (fuel : nat) (w : World) (time : Z)
  : list AlarmCall * World * AlarmOutcome :=
  match mod_sleep_until w time with
  | SleepYield _ => ([], w, AlarmYield time)
  | SleepError msg => ([], w, AlarmError msg)
  | SleepReturn _ =>
      (* alarm_thread_2: call the callback with the thread *)
      match callback (running w) w with
      | (w1, Raises msg) =>
          ([AlarmFired time (clock w)], w1, AlarmError msg)
      | (w1, Returns None) =>
          ([AlarmFired time (clock w)], w1, AlarmFinished)
      | (w1, Returns (Some repeat)) =>
          (* alarm_thread_3 *)
          if (repeat =? 0)%Z
          then ([AlarmFired time (clock w)], w1, AlarmFinished)
          else
            let next :=
              if (repeat <? 0)%Z
              then delayed_by_us time (- repeat)
              else delayed_by_us (clock w1) repeat in
            match fuel with
            | O => ([AlarmFired time (clock w)], w1, AlarmFuel)
            | S fuel' =>
                let '(calls, w2, o) := alarm_thread_1 fuel' w1 next in
                (AlarmFired time (clock w) :: calls, w2, o)
            end
      end
  end.

(** [schedule_alarm]: the time in upvalue 1 of the alarm thread it starts,
    or [None] when it starts none and returns no result. *)
Definition schedule_alarm (w : World) (time : Z) (fire_if_past : bool)
  : option Z :=
  if negb fire_if_past && time_reached time w then None else Some time.

End Alarm.

(* ===================================================================== *)
(** ** Helpers on Lua tables (mlua.util) *)
(* ===================================================================== *)

Module Util.
Section Tables.

(** A Lua table is a finite map; a key with value nil is an absent key.
    Values are compared with raw equality. *)
Context {K V : Type} `{Countable K} `{EqDecision V}.

(** [keys(tab, filter)]: the count stored at index 0 and the items at
    indices 1 and up; [pairs] enumerates in the order of [map_to_list]. *)
Definition keys (tab : gmap K V) (filter : option (K -> V -> bool))
  : nat * list K :=
  fold_left
    (fun '(len, res) '(key, value) =>
       if match filter with None => true | Some f => f key value end
       then (S len, res ++ [key])
       else (len, res))
    (map_to_list tab) (0, []).

(** [values(tab, filter)] *)
Definition values (tab : gmap K V) (filter : option (K -> V -> bool))
  : nat * list V :=
  fold_left
    (fun '(len, res) '(key, value) =>
       if match filter with None => true | Some f => f key value end
       then (S len, res ++ [value])
       else (len, res))
    (map_to_list tab) (0, []).

(** [table_eq(a, b)] *)
Definition table_eq (a b : gmap K V) : bool :=
  forallb (fun '(k, v) => bool_decide (b !! k = Some v)) (map_to_list a) &&
  forallb (fun '(k, _) => negb (bool_decide (a !! k = None)))
          (map_to_list b).

End Tables.

(** [table_comp(keys)(a, b)] on tables of integers; [None] is the error
    Lua raises when it compares nil. *)
Fixpoint table_comp {K : Type} `{Countable K}
    (keys : list K) (a b : gmap K Z) : option bool :=
  match keys with
  | [] => Some false
  | k :: rest =>
      match a !! k, b !! k with
      | Some ak, Some bk =>
          if (ak <? bk)%Z then Some true
          else if (ak >? bk)%Z then Some false
          else table_comp rest a b
      | _, _ => None
      end
  end.

End Util.

(* ===================================================================== *)
(** ** Further sample data *)
(* ===================================================================== *)

(** The thread a resume call is about. *)
Definition event_thread (e : Event) : option nat :=
  match e with
  | EvResume _ t _ => Some t
  | _ => None
  end.

(** No slot that is pending and in [core]'s mask has a registry entry. *)
Definition unwatched (core : nat) (w : World) : Prop :=
  forall e, is_pending (event_state w) e = true ->
            claimed_by (event_state w) core e = true ->
            watchers w !! e = None.

(** Slot 3 is pending and owned by core 0 and nobody watches it. *)
Definition w_slot3_unwatched : World := world_of es_slot3_pending.

(** Slot 5, owned by core 0, is watched by the set of threads 2, 7 and
    9. *)
Definition w_three_watchers : World :=
  {| event_state := es_slot5; sev_count := 0; clock := 1000%Z;
     watchers := {[5 := WTable 0]}; tables := {[0 := {[2; 7; 9]}]};
     running := 1; yieldable := true |}.

(** An alarm callback that asks for one more run, 50 microseconds after
    the previous target, until the clock has passed 1100; it takes 10
    microseconds. *)
Definition callback_periodic : nat -> World -> World * CallResult (option Z) :=
  fun _ w =>
    ({| event_state := event_state w; sev_count := sev_count w;
        clock := (clock w + 10)%Z; watchers := watchers w;
        tables := tables w; running := running w;
        yieldable := yieldable w |},
     Returns (if (clock w <? 1100)%Z then Some (-50)%Z else None)).

(** [delayed_by_us] without saturation. *)
Definition add_us : Z -> Z -> Z := Z.add.

(* ===================================================================== *)
(** ** Bit-level facts *)
(* ===================================================================== *)

Lemma testbit_not32 (x : Z) (i : nat) :
  i < 32 -> Z.testbit (not32 x) (Z.of_nat i) = negb (Z.testbit x (Z.of_nat i)).
Proof.
  intros Hi. unfold not32, UINT32_MAX.
  rewrite Z.land_spec, Z.lnot_spec by lia.
  change 0xFFFFFFFF%Z with (Z.ones 32).
  rewrite Z.ones_spec_low by lia. apply andb_true_r.
Qed.

Lemma testbit_bit (i j : nat) :
  Z.testbit (bit i) (Z.of_nat j) = bool_decide (i = j).
Proof.
  unfold bit. rewrite Z.shiftl_1_l, Z.pow2_bits_eqb by lia.
  destruct (Z.eqb_spec (Z.of_nat i) (Z.of_nat j)) as [E|E];
    case_bool_decide; try reflexivity; lia.
Qed.

Lemma ffs_from_zero (n i : nat) (x : Z) :
  ffs_from n i x = 0 <->
  forall j, i <= j < i + n -> Z.testbit x (Z.of_nat j) = false.
Proof.
  revert i. induction n as [|n IH]; intros i; simpl.
  - split; [intros _ j Hj; lia | reflexivity].
  - destruct (Z.testbit x (Z.of_nat i)) eqn:Hb.
    + split; [discriminate|]. intros H. rewrite H in Hb by lia. discriminate.
    + rewrite IH. split; intros H j Hj.
      * destruct (decide (j = i)) as [->|Hne]; [assumption | apply H; lia].
      * apply H. lia.
Qed.

Lemma ffs_from_succ (n i k : nat) (x : Z) :
  ffs_from n i x = S k ->
  i <= k < i + n /\ Z.testbit x (Z.of_nat k) = true /\
  forall j, i <= j < k -> Z.testbit x (Z.of_nat j) = false.
Proof.
  revert i. induction n as [|n IH]; intros i; simpl; [discriminate|].
  destruct (Z.testbit x (Z.of_nat i)) eqn:Hb.
  - intros [= <-]. split; [lia|]. split; [assumption | intros j Hj; lia].
  - intros H. destruct (IH _ H) as (Hk & Hbit & Hlow).
    split; [lia|]. split; [assumption|].
    intros j Hj. destruct (decide (j = i)) as [->|Hne];
      [assumption | apply Hlow; lia].
Qed.

Lemma ffs_zero (x : Z) :
  ffs x = 0 <-> forall j, j < 32 -> Z.testbit x (Z.of_nat j) = false.
Proof.
  unfold ffs. rewrite ffs_from_zero. split; intros H j Hj; apply H; lia.
Qed.

Lemma ffs_succ (x : Z) (k : nat) :
  ffs x = S k ->
  k < 32 /\ Z.testbit x (Z.of_nat k) = true /\
  forall j, j < k -> Z.testbit x (Z.of_nat j) = false.
Proof.
  unfold ffs. intros H. destruct (ffs_from_succ _ _ _ _ H) as (Hk & Hb & Hl).
  split; [lia|]. split; [assumption | intros j Hj; apply Hl; lia].
Qed.

(** Slot numbers and their (block, bit) coordinates. *)
Lemma slot_div (b i : nat) : i < 32 -> (b * 32 + i) / 32 = b.
Proof.
  intros Hi. rewrite Nat.div_add_l by lia. rewrite Nat.div_small by lia. lia.
Qed.

Lemma slot_mod (b i : nat) : i < 32 -> (b * 32 + i) mod 32 = i.
Proof.
  intros Hi. rewrite Nat.add_comm, Nat.Div0.mod_add.
  apply Nat.mod_small; lia.
Qed.

Lemma slot_coords (e : nat) : e = e / 32 * 32 + e mod 32 /\ e mod 32 < 32.
Proof.
  split; [|apply Nat.mod_upper_bound; lia].
  pose proof (Nat.div_mod_eq e 32). lia.
Qed.

Lemma slot_block_lt (e : nat) : e < NUM_EVENTS <-> e / 32 < EVENTS_SIZE.
Proof.
  change NUM_EVENTS with 128. change EVENTS_SIZE with 4.
  destruct (slot_coords e) as [He Hm]. lia.
Qed.

Lemma slot_eq_coords (e e' : nat) :
  e = e' <-> e / 32 = e' / 32 /\ e mod 32 = e' mod 32.
Proof.
  split; [intros ->; split; reflexivity|]. intros [Hd Hm].
  destruct (slot_coords e) as [He _], (slot_coords e') as [He' _]. lia.
Qed.

(* ===================================================================== *)
(** ** Arrays *)
(* ===================================================================== *)

Lemma word_at_insert (a : list Z) (i j : nat) (v : Z) :
  i < length a ->
  word_at (<[i := v]> a) j = if decide (i = j) then v else word_at a j.
Proof.
  intros Hi. unfold word_at. rewrite !nth_lookup.
  case_decide as Hij.
  - subst j. by rewrite list_lookup_insert_eq.
  - by rewrite list_lookup_insert_ne.
Qed.

Lemma row_insert (m : list (list Z)) (i j : nat) (r : list Z) :
  i < length m ->
  nth j (<[i := r]> m) [] = if decide (i = j) then r else nth j m [].
Proof.
  intros Hi. rewrite !nth_lookup.
  case_decide as Hij.
  - subst j. by rewrite list_lookup_insert_eq.
  - by rewrite list_lookup_insert_ne.
Qed.

Lemma word32_spec (x : Z) : word32 x = true <-> (0 <= x < 2 ^ 32)%Z.
Proof. unfold word32. rewrite andb_true_iff, Z.leb_le, Z.ltb_lt. tauto. Qed.

Lemma word32_high_bits (x : Z) (j : Z) :
  word32 x = true -> (32 <= j)%Z -> Z.testbit x j = false.
Proof.
  intros Hx Hj. apply word32_spec in Hx.
  rewrite <- (Z.mod_small x (2 ^ 32)) by assumption.
  apply Z.mod_pow2_bits_high. lia.
Qed.

Lemma word32_of_bits (x : Z) :
  (forall j, (32 <= j)%Z -> Z.testbit x j = false) -> word32 x = true.
Proof.
  intros H. apply word32_spec.
  assert (Hx : (x mod 2 ^ 32 = x)%Z).
  { apply Z.bits_inj'. intros n Hn.
    destruct (Z.lt_ge_cases n 32) as [Hlt|Hge].
    - apply Z.mod_pow2_bits_low. lia.
    - rewrite Z.mod_pow2_bits_high by lia. symmetry. by apply H. }
  rewrite <- Hx. apply Z.mod_pos_bound. lia.
Qed.

Lemma word32_lor (x y : Z) :
  word32 x = true -> word32 y = true -> word32 (Z.lor x y) = true.
Proof.
  intros Hx Hy. apply word32_of_bits. intros j Hj.
  by rewrite Z.lor_spec, !word32_high_bits.
Qed.

Lemma word32_land_l (x y : Z) : word32 x = true -> word32 (Z.land x y) = true.
Proof.
  intros Hx. apply word32_of_bits. intros j Hj.
  by rewrite Z.land_spec, word32_high_bits.
Qed.

Lemma word32_bit (i : nat) : i < 32 -> word32 (bit i) = true.
Proof.
  intros Hi. apply word32_spec. unfold bit. rewrite Z.shiftl_1_l.
  split; [apply Z.pow_nonneg; lia | apply Z.pow_lt_mono_r; lia].
Qed.

Lemma word32_word_at (a : list Z) (i : nat) :
  forallb word32 a = true -> word32 (word_at a i) = true.
Proof.
  intros Ha. unfold word_at.
  destruct (nth_in_or_default i a 0%Z) as [Hin| ->]; [|reflexivity].
  rewrite forallb_forall in Ha. by apply Ha.
Qed.

Lemma forallb_word32_insert (a : list Z) (i : nat) (v : Z) :
  forallb word32 a = true -> word32 v = true ->
  forallb word32 (<[i := v]> a) = true.
Proof.
  rewrite !forallb_forall. intros Ha Hv x Hin.
  apply list_elem_of_In, list_elem_of_lookup in Hin as [j Hj].
  destruct (decide (i = j)) as [->|Hne].
  - destruct (decide (j < length a)) as [Hlt|Hge].
    + rewrite list_lookup_insert_eq in Hj by assumption. congruence.
    + rewrite list_insert_ge in Hj by lia.
      apply Ha, list_elem_of_In, list_elem_of_lookup. eauto.
  - rewrite list_lookup_insert_ne in Hj by assumption.
    apply Ha, list_elem_of_In, list_elem_of_lookup. eauto.
Qed.

Lemma wf_event_state_dims (es : EventState) :
  wf_event_state es = true ->
  length (pending es) = EVENTS_SIZE /\
  length (mask es) = NUM_CORES /\
  forall core, core < NUM_CORES -> length (mask_row es core) = EVENTS_SIZE.
Proof.
  unfold wf_event_state. rewrite !andb_true_iff, !Nat.eqb_eq, forallb_forall.
  intros [[[[Hp Hm] Hrows] _] _]. repeat split; try assumption.
  intros core Hcore. apply Nat.eqb_eq, Hrows.
  unfold mask_row. apply nth_In. lia.
Qed.

Lemma wf_pending_word32 (es : EventState) (block : nat) :
  wf_event_state es = true -> word32 (pending_at es block) = true.
Proof.
  unfold wf_event_state. rewrite !andb_true_iff. intros [[_ Hp] _].
  by apply word32_word_at.
Qed.

Lemma wf_mask_word32 (es : EventState) (core block : nat) :
  wf_event_state es = true -> word32 (mask_at es core block) = true.
Proof.
  unfold wf_event_state. rewrite !andb_true_iff. intros [_ Hm].
  unfold mask_at, mask_row. apply word32_word_at.
  destruct (nth_in_or_default core (mask es) []) as [Hin| ->]; [|reflexivity].
  rewrite forallb_forall in Hm. by apply Hm.
Qed.

Lemma wf_event_state_intro (es : EventState) :
  length (pending es) = EVENTS_SIZE ->
  length (mask es) = NUM_CORES ->
  (forall core, core < NUM_CORES -> length (mask_row es core) = EVENTS_SIZE) ->
  forallb word32 (pending es) = true ->
  forallb (forallb word32) (mask es) = true ->
  wf_event_state es = true.
Proof.
  intros Hp Hm Hrows Hpw Hmw. unfold wf_event_state.
  rewrite !andb_true_iff, !Nat.eqb_eq, forallb_forall.
  repeat split; try assumption.
  intros row Hin. apply Nat.eqb_eq.
  destruct (In_nth _ _ [] Hin) as (c & Hc & <-). apply Hrows. lia.
Qed.

Lemma wf_event_state_words (es : EventState) :
  wf_event_state es = true ->
  forallb word32 (pending es) = true /\
  forallb (forallb word32) (mask es) = true.
Proof. unfold wf_event_state. rewrite !andb_true_iff. tauto. Qed.

Lemma wf_event_state_init : wf_event_state event_state_init = true.
Proof. reflexivity. Qed.

Lemma mask_row_set_mask_at (es : EventState) (core block c : nat) (v : Z) :
  core < length (mask es) ->
  mask_row (set_mask_at es core block v) c =
  if decide (core = c) then <[block := v]> (mask_row es core)
  else mask_row es c.
Proof. intros H. unfold mask_row, set_mask_at; simpl. by apply row_insert. Qed.

Lemma mask_at_set_mask_at (es : EventState) (core block c b : nat) (v : Z) :
  core < length (mask es) -> block < length (mask_row es core) ->
  mask_at (set_mask_at es core block v) c b =
  if decide (core = c /\ block = b) then v else mask_at es c b.
Proof.
  intros Hc Hb. unfold mask_at. rewrite mask_row_set_mask_at by assumption.
  destruct (decide (core = c)) as [->|Hne].
  - rewrite word_at_insert by assumption.
    repeat case_decide; try reflexivity; tauto.
  - case_decide; [tauto | reflexivity].
Qed.

Lemma pending_at_set_pending_at (es : EventState) (block b : nat) (v : Z) :
  block < length (pending es) ->
  pending_at (set_pending_at es block v) b =
  if decide (block = b) then v else pending_at es b.
Proof. intros H. unfold pending_at, set_pending_at; simpl. by apply word_at_insert. Qed.

Lemma wf_set_mask_at (es : EventState) (core block : nat) (v : Z) :
  wf_event_state es = true -> word32 v = true ->
  wf_event_state (set_mask_at es core block v) = true.
Proof.
  intros Hwf Hv. destruct (wf_event_state_dims _ Hwf) as (Hp & Hm & Hrows).
  destruct (wf_event_state_words _ Hwf) as (Hpw & Hmw).
  apply wf_event_state_intro.
  - assumption.
  - simpl. by rewrite length_insert.
  - intros c Hc.
    destruct (decide (core < length (mask es))) as [Hlt|Hge].
    + rewrite mask_row_set_mask_at by assumption.
      case_decide; [rewrite length_insert|]; apply Hrows; lia.
    + unfold mask_row, set_mask_at; simpl.
      rewrite list_insert_ge by lia. by apply Hrows.
  - assumption.
  - destruct (decide (core < length (mask es))) as [Hlt|Hge];
      [|simpl; by rewrite list_insert_ge by lia].
    simpl. rewrite forallb_forall. intros row Hin.
    apply list_elem_of_In, list_elem_of_lookup in Hin as [j Hj].
    rewrite forallb_forall in Hmw.
    destruct (decide (core = j)) as [->|Hne].
    + rewrite list_lookup_insert_eq in Hj by lia.
      injection Hj as <-. apply forallb_word32_insert; [|assumption].
      apply Hmw. unfold mask_row. apply nth_In. lia.
    + rewrite list_lookup_insert_ne in Hj by assumption.
      apply Hmw, list_elem_of_In, list_elem_of_lookup. eauto.
Qed.

Lemma wf_set_pending_at (es : EventState) (block : nat) (v : Z) :
  wf_event_state es = true -> word32 v = true ->
  wf_event_state (set_pending_at es block v) = true.
Proof.
  intros Hwf Hv. destruct (wf_event_state_dims _ Hwf) as (Hp & Hm & Hrows).
  destruct (wf_event_state_words _ Hwf) as (Hpw & Hmw).
  apply wf_event_state_intro; simpl;
    [by rewrite length_insert | done | done | | done].
  by apply forallb_word32_insert.
Qed.

(** The union of the cores' masks holds exactly the claimed slots. *)
Lemma fold_lor_testbit (f : nat -> Z) (l : list nat) (acc : Z) (i : Z) :
  Z.testbit (fold_left (fun m c => Z.lor m (f c)) l acc) i =
  Z.testbit acc i || existsb (fun c => Z.testbit (f c) i) l.
Proof.
  revert acc. induction l as [|c l IH]; intros acc; simpl.
  - by rewrite orb_false_r.
  - rewrite IH, Z.lor_spec. by rewrite orb_assoc.
Qed.

Lemma union_mask_slot (es : EventState) (e : nat) :
  Z.testbit (union_mask es (e / 32)) (Z.of_nat (e mod 32)) = is_claimed es e.
Proof.
  unfold union_mask. rewrite fold_lor_testbit, Z.testbit_0_l. reflexivity.
Qed.

Lemma is_claimed_true (es : EventState) (e : nat) :
  is_claimed es e = true <->
  exists core, core < NUM_CORES /\ claimed_by es core e = true.
Proof.
  unfold is_claimed. rewrite existsb_exists. split.
  - intros (c & Hin & Hc). apply in_seq in Hin. exists c. split; [lia | done].
  - intros (c & Hlt & Hc). exists c. split; [apply in_seq; lia | done].
Qed.

Lemma is_claimed_false (es : EventState) (e : nat) :
  is_claimed es e = false <->
  forall core, core < NUM_CORES -> claimed_by es core e = false.
Proof.
  rewrite <- not_true_iff_false, is_claimed_true. split.
  - intros H c Hc. apply not_true_iff_false. intros Hcl. apply H. eauto.
  - intros H (c & Hc & Hcl). rewrite H in Hcl by assumption. discriminate.
Qed.

(* ===================================================================== *)
(** ** Claiming a slot *)
(* ===================================================================== *)

(** Setting bit [e % 32] of [mask[core][e / 32]]. *)
Lemma claimed_by_set_bit (es : EventState) (core e c e' : nat) :
  wf_event_state es = true -> core < NUM_CORES -> e < NUM_EVENTS ->
  claimed_by
    (set_mask_at es core (e / 32)
       (Z.lor (mask_at es core (e / 32)) (bit (e mod 32)))) c e' =
  if decide (c = core /\ e' = e) then true else claimed_by es c e'.
Proof.
  intros Hwf Hcore He.
  destruct (wf_event_state_dims _ Hwf) as (Hp & Hm & Hrows).
  apply slot_block_lt in He.
  unfold claimed_by, slot_bit.
  fold (mask_at (set_mask_at es core (e / 32)
         (Z.lor (mask_at es core (e / 32)) (bit (e mod 32)))) c (e' / 32)).
  fold (mask_at es c (e' / 32)).
  rewrite mask_at_set_mask_at by (rewrite ?Hrows; lia).
  destruct (decide (core = c /\ e / 32 = e' / 32)) as [[-> Hb]|Hne].
  - rewrite Z.lor_spec, testbit_bit, <- Hb.
    destruct (decide (c = c /\ e' = e)) as [[_ ->]|Hne'].
    + rewrite bool_decide_eq_true_2 by reflexivity. apply orb_true_r.
    + rewrite bool_decide_eq_false_2, orb_false_r; [reflexivity|].
      intros Hm'. apply Hne'. split; [reflexivity|].
      apply slot_eq_coords. split; congruence.
  - case_decide as Heq; [|reflexivity].
    destruct Heq as [-> ->]. tauto.
Qed.

(** What the block scan of [mlua_event_claim] finds. *)
Lemma claim_scan_spec (n block core : nat) (es : EventState) :
  match claim_scan n block core es with
  | None =>
      forall e, block * 32 <= e < (block + n) * 32 -> is_claimed es e = true
  | Some (e, es') =>
      block * 32 <= e < (block + n) * 32 /\
      is_claimed es e = false /\
      (forall e', block * 32 <= e' < e -> is_claimed es e' = true) /\
      es' = set_mask_at es core (e / 32)
              (Z.lor (mask_at es core (e / 32)) (bit (e mod 32)))
  end.
Proof.
  revert block. induction n as [|n IH]; intros block; cbn [claim_scan].
  - intros e He. lia.
  - destruct (ffs (not32 (union_mask es block))) as [|idx] eqn:Hffs.
    + (* the whole block is taken *)
      assert (Hfull : forall e, e / 32 = block -> is_claimed es e = true).
      { intros e Hb. destruct (slot_coords e) as [_ Hm].
        rewrite <- union_mask_slot, Hb.
        pose proof (proj1 (ffs_zero _) Hffs _ Hm) as Hbit.
        rewrite testbit_not32 in Hbit by assumption.
        by apply negb_false_iff in Hbit. }
      specialize (IH (S block)).
      destruct (claim_scan n (S block) core es) as [[e es']|].
      * destruct IH as (Hr & Hfree & Hlow & Hes).
        split; [lia|]. split; [assumption|]. split; [|assumption].
        intros e' He'. destruct (decide (e' / 32 = block)) as [Hb|Hb].
        -- by apply Hfull.
        -- apply Hlow. destruct (slot_coords e') as [Hc Hm]. nia.
      * intros e He. destruct (decide (e / 32 = block)) as [Hb|Hb].
        -- by apply Hfull.
        -- apply IH. destruct (slot_coords e) as [Hc Hm]. nia.
    + destruct (ffs_succ _ _ Hffs) as (Hidx & Hbit & Hlow).
      rewrite slot_div, slot_mod by assumption.
      split; [lia|]. split; [|split; [|reflexivity]].
      * rewrite <- union_mask_slot, slot_div, slot_mod by assumption.
        rewrite testbit_not32 in Hbit by assumption.
        by apply negb_true_iff in Hbit.
      * intros e' He'. destruct (slot_coords e') as [Hc Hm].
        assert (Hb : e' / 32 = block) by nia.
        rewrite <- union_mask_slot, Hb.
        assert (Hlt : e' mod 32 < idx) by nia.
        specialize (Hlow _ Hlt). rewrite testbit_not32 in Hlow by assumption.
        by apply negb_false_iff in Hlow.
Qed.

(* ===================================================================== *)
(** ** Setting and clearing one bit of a bitmap *)
(* ===================================================================== *)

Lemma slot_bit_insert (a : list Z) (e e' : nat) (v : Z) :
  e / 32 < length a ->
  slot_bit (<[e / 32 := v]> a) e' =
  if decide (e / 32 = e' / 32) then Z.testbit v (Z.of_nat (e' mod 32))
  else slot_bit a e'.
Proof.
  intros Hlen. unfold slot_bit. rewrite word_at_insert by assumption.
  case_decide; reflexivity.
Qed.

Lemma slot_bit_set (a : list Z) (e e' : nat) :
  e / 32 < length a ->
  slot_bit (<[e / 32 := Z.lor (word_at a (e / 32)) (bit (e mod 32))]> a) e' =
  if decide (e' = e) then true else slot_bit a e'.
Proof.
  intros Hlen. rewrite slot_bit_insert by assumption.
  destruct (decide (e / 32 = e' / 32)) as [Hb|Hb].
  - rewrite Z.lor_spec, testbit_bit, Hb. fold (slot_bit a e').
    destruct (decide (e' = e)) as [->|Hne].
    + rewrite bool_decide_eq_true_2 by reflexivity. apply orb_true_r.
    + rewrite bool_decide_eq_false_2, orb_false_r; [reflexivity|].
      intros Hm. apply Hne, slot_eq_coords. split; congruence.
  - case_decide as Heq; [subst; tauto | reflexivity].
Qed.

Lemma slot_bit_clear (a : list Z) (e e' : nat) :
  e / 32 < length a ->
  slot_bit
    (<[e / 32 := Z.land (word_at a (e / 32)) (not32 (bit (e mod 32)))]> a) e' =
  if decide (e' = e) then false else slot_bit a e'.
Proof.
  intros Hlen. rewrite slot_bit_insert by assumption.
  destruct (slot_coords e') as [_ Hm'].
  destruct (decide (e / 32 = e' / 32)) as [Hb|Hb].
  - rewrite Z.land_spec, testbit_not32, testbit_bit, Hb by assumption.
    fold (slot_bit a e').
    destruct (decide (e' = e)) as [->|Hne].
    + rewrite bool_decide_eq_true_2 by reflexivity. apply andb_false_r.
    + rewrite bool_decide_eq_false_2, andb_true_r; [reflexivity|].
      intros Hm. apply Hne, slot_eq_coords. split; congruence.
  - case_decide as Heq; [subst; tauto | reflexivity].
Qed.

(** [x & ~(1u << i)] is [x] exactly when bit [i] of [x] is clear. *)
Lemma clear_bit_eqb (x : Z) (i : nat) :
  word32 x = true -> i < 32 ->
  (Z.land x (not32 (bit i)) =? x)%Z = negb (Z.testbit x (Z.of_nat i)).
Proof.
  intros Hx Hi. destruct (Z.testbit x (Z.of_nat i)) eqn:Hb; simpl.
  - apply Z.eqb_neq. intros Heq.
    assert (Hc : Z.testbit (Z.land x (not32 (bit i))) (Z.of_nat i) = false).
    { rewrite Z.land_spec, testbit_not32, testbit_bit by assumption.
      rewrite bool_decide_eq_true_2 by reflexivity. apply andb_false_r. }
    rewrite Heq in Hc. congruence.
  - apply Z.eqb_eq, Z.bits_inj'. intros n Hn. rewrite Z.land_spec.
    destruct (Z.lt_ge_cases n 32) as [Hlt|Hge].
    + rewrite <- (Z2Nat.id n) by assumption.
      rewrite testbit_not32, testbit_bit by lia.
      case_bool_decide as Heq; [|apply andb_true_r].
      rewrite <- Heq, Hb. reflexivity.
    + by rewrite word32_high_bits.
Qed.

Lemma claimed_by_clear_bit (es : EventState) (core e c e' : nat) :
  wf_event_state es = true -> core < NUM_CORES -> e < NUM_EVENTS ->
  claimed_by
    (set_mask_at es core (e / 32)
       (Z.land (mask_at es core (e / 32)) (not32 (bit (e mod 32))))) c e' =
  if decide (c = core /\ e' = e) then false else claimed_by es c e'.
Proof.
  intros Hwf Hcore He.
  destruct (wf_event_state_dims _ Hwf) as (Hp & Hm & Hrows).
  apply slot_block_lt in He.
  unfold claimed_by. rewrite mask_row_set_mask_at by lia.
  destruct (decide (core = c)) as [->|Hne].
  - unfold mask_at. rewrite slot_bit_clear by (rewrite Hrows; lia).
    repeat case_decide; try reflexivity; tauto.
  - case_decide as Heq; [destruct Heq; congruence | reflexivity].
Qed.

Lemma is_pending_set (es : EventState) (e e' : nat) :
  wf_event_state es = true -> e < NUM_EVENTS ->
  is_pending
    (set_pending_at es (e / 32)
       (Z.lor (pending_at es (e / 32)) (bit (e mod 32)))) e' =
  if decide (e' = e) then true else is_pending es e'.
Proof.
  intros Hwf He. destruct (wf_event_state_dims _ Hwf) as (Hp & _).
  apply slot_block_lt in He. unfold is_pending, set_pending_at, pending_at.
  simpl. apply slot_bit_set. lia.
Qed.

Lemma is_pending_clear (es : EventState) (e e' : nat) :
  wf_event_state es = true -> e < NUM_EVENTS ->
  is_pending
    (set_pending_at es (e / 32)
       (Z.land (pending_at es (e / 32)) (not32 (bit (e mod 32))))) e' =
  if decide (e' = e) then false else is_pending es e'.
Proof.
  intros Hwf He. destruct (wf_event_state_dims _ Hwf) as (Hp & _).
  apply slot_block_lt in He. unfold is_pending, set_pending_at, pending_at.
  simpl. apply slot_bit_clear. lia.
Qed.

(** Slots outside the table are neither pending nor claimed. *)
Lemma slot_bit_out_of_range (a : list Z) (e : nat) :
  length a <= e / 32 -> slot_bit a e = false.
Proof.
  intros H. unfold slot_bit, word_at. rewrite nth_overflow by assumption.
  apply Z.testbit_0_l.
Qed.

Lemma is_claimed_out_of_range (es : EventState) (e : nat) :
  wf_event_state es = true -> NUM_EVENTS <= e -> is_claimed es e = false.
Proof.
  intros Hwf He. destruct (wf_event_state_dims _ Hwf) as (_ & _ & Hrows).
  apply is_claimed_false. intros c Hc. apply slot_bit_out_of_range.
  rewrite Hrows by assumption.
  destruct (decide (e / 32 < EVENTS_SIZE)) as [Hlt|Hge]; [|lia].
  apply slot_block_lt in Hlt. lia.
Qed.

(* ===================================================================== *)
(** ** Releasing a slot *)
(* ===================================================================== *)

(** The test [mask == *pmask] of [mlua_event_unclaim] holds exactly when
    the calling core does not own the slot. *)
Lemma unclaim_test (es : EventState) (core e : nat) :
  wf_event_state es = true ->
  (Z.land (mask_at es core (e / 32)) (not32 (bit (e mod 32)))
   =? mask_at es core (e / 32))%Z = negb (claimed_by es core e).
Proof.
  intros Hwf. destruct (slot_coords e) as [_ Hm].
  rewrite clear_bit_eqb by (try apply wf_mask_word32; assumption).
  reflexivity.
Qed.

Lemma unclaim_not_owned (core : nat) (w : World) (ev : MLuaEvent) :
  wf_event_state (event_state w) = true ->
  claimed_by (event_state w) core ev = false ->
  mlua_event_unclaim core w ev = (w, ev).
Proof.
  intros Hwf Hnc. unfold mlua_event_unclaim.
  destruct (NUM_EVENTS <=? ev); [reflexivity|].
  cbv zeta. by rewrite unclaim_test, Hnc.
Qed.

Lemma unclaim_owned (core : nat) (w : World) (ev : MLuaEvent) :
  wf_event_state (event_state w) = true ->
  ev < NUM_EVENTS ->
  claimed_by (event_state w) core ev = true ->
  mlua_event_unclaim core w ev =
  (set_watchers
     (set_event_state w
        (set_mask_at (event_state w) core (ev / 32)
           (Z.land (mask_at (event_state w) core (ev / 32))
                   (not32 (bit (ev mod 32))))))
     (delete ev (watchers w)),
   MLUA_EVENT_UNSET).
Proof.
  intros Hwf Hev Hc. unfold mlua_event_unclaim.
  destruct (Nat.leb_spec NUM_EVENTS ev) as [Hge|_]; [lia|].
  cbv zeta. by rewrite unclaim_test, Hc.
Qed.

Lemma claim_unset_handle (core : nat) (es : EventState) (ev : MLuaEvent) :
  NUM_EVENTS <= ev ->
  mlua_event_claim core es ev =
  match claim_scan EVENTS_SIZE 0 core es with
  | Some (e, es') => (es', e, None)
  | None => (es, ev, Some "no events available"%string)
  end.
Proof.
  intros Hev. unfold mlua_event_claim.
  destruct (Nat.ltb_spec ev NUM_EVENTS) as [Hlt|_]; [lia | reflexivity].
Qed.

Lemma claim_success (core : nat) (es es' : EventState) (ev e : MLuaEvent) :
  wf_event_state es = true -> core < NUM_CORES -> NUM_EVENTS <= ev ->
  mlua_event_claim core es ev = (es', e, None) ->
  e < NUM_EVENTS /\ is_claimed es e = false /\
  (forall e', e' < e -> is_claimed es e' = true) /\
  pending es' = pending es /\
  wf_event_state es' = true /\
  forall c e',
    claimed_by es' c e' =
    if decide (c = core /\ e' = e) then true else claimed_by es c e'.
Proof.
  intros Hwf Hcore Hev. rewrite claim_unset_handle by assumption.
  pose proof (claim_scan_spec EVENTS_SIZE 0 core es) as Hscan.
  destruct (claim_scan EVENTS_SIZE 0 core es) as [[e0 es0]|]; [|discriminate].
  intros [= -> ->]. destruct Hscan as (Hr & Hfree & Hlow & ->).
  change ((0 + EVENTS_SIZE) * 32) with NUM_EVENTS in Hr.
  destruct (slot_coords e) as [_ Hm].
  repeat split; try tauto.
  - intros e' He'. apply Hlow. lia.
  - apply wf_set_mask_at; [assumption|].
    apply word32_lor; [by apply wf_mask_word32 | by apply word32_bit].
  - intros c e'. apply claimed_by_set_bit; tauto.
Qed.

Lemma claim_succeeds_iff (core : nat) (es : EventState) (ev : MLuaEvent) :
  NUM_EVENTS <= ev ->
  (mlua_event_claim core es ev).2 = None <->
  exists e, e < NUM_EVENTS /\ is_claimed es e = false.
Proof.
  intros Hev. rewrite claim_unset_handle by assumption.
  pose proof (claim_scan_spec EVENTS_SIZE 0 core es) as Hscan.
  change ((0 + EVENTS_SIZE) * 32) with NUM_EVENTS in Hscan.
  destruct (claim_scan EVENTS_SIZE 0 core es) as [[e0 es0]|]; simpl.
  - split; [intros _ | reflexivity]. exists e0. split; [lia | tauto].
  - split; [discriminate|]. intros (e & He & Hfree).
    rewrite Hscan in Hfree by lia. discriminate.
Qed.

Lemma claim_exhausted (core : nat) (es : EventState) (ev : MLuaEvent) :
  NUM_EVENTS <= ev ->
  (forall e, e < NUM_EVENTS -> is_claimed es e = true) ->
  mlua_event_claim core es ev = (es, ev, Some "no events available"%string).
Proof.
  intros Hev Hfull. rewrite claim_unset_handle by assumption.
  pose proof (claim_scan_spec EVENTS_SIZE 0 core es) as Hscan.
  change ((0 + EVENTS_SIZE) * 32) with NUM_EVENTS in Hscan.
  destruct (claim_scan EVENTS_SIZE 0 core es) as [[e0 es0]|]; [|reflexivity].
  destruct Hscan as (Hr & Hfree & _). rewrite Hfull in Hfree by lia.
  discriminate.
Qed.

Lemma claim_after_release (core c : nat) (w : World) (ev e : MLuaEvent) :
  wf_event_state (event_state w) = true ->
  NUM_EVENTS <= ev -> c < NUM_CORES -> e < NUM_EVENTS ->
  (forall e', e' < NUM_EVENTS -> is_claimed (event_state w) e' = true) ->
  claimed_by (event_state w) c e = true ->
  (forall c', c' <> c -> claimed_by (event_state w) c' e = false) ->
  exists es2,
    mlua_event_claim core (event_state (mlua_event_unclaim c w e).1) ev =
    (es2, e, None).
Proof.
  intros Hwf Hev Hc He Hfull Hown Hexcl.
  rewrite unclaim_owned by assumption. simpl.
  set (es1 := set_mask_at _ _ _ _).
  assert (Hcl : forall c' e', claimed_by es1 c' e' =
            if decide (c' = c /\ e' = e) then false
            else claimed_by (event_state w) c' e')
    by (intros; by apply claimed_by_clear_bit).
  assert (Hfree : is_claimed es1 e = false).
  { apply is_claimed_false. intros c' Hc'. rewrite Hcl.
    case_decide as Hd; [reflexivity|]. apply Hexcl. intros ->. tauto. }
  assert (Hothers : forall e', e' < NUM_EVENTS -> e' <> e ->
            is_claimed es1 e' = true).
  { intros e' He' Hne. apply is_claimed_true.
    apply Hfull, is_claimed_true in He' as (c' & Hc' & Hb).
    exists c'. split; [assumption|]. rewrite Hcl.
    case_decide as Hd; [tauto | assumption]. }
  rewrite claim_unset_handle by assumption.
  pose proof (claim_scan_spec EVENTS_SIZE 0 core es1) as Hscan.
  change ((0 + EVENTS_SIZE) * 32) with NUM_EVENTS in Hscan.
  destruct (claim_scan EVENTS_SIZE 0 core es1) as [[e0 es0]|].
  - destruct Hscan as (Hr & Hfree0 & _).
    destruct (decide (e0 = e)) as [->|Hne]; [by exists es0|].
    rewrite Hothers in Hfree0 by (assumption || lia). discriminate.
  - rewrite Hscan in Hfree by lia. discriminate.
Qed.

(** C6. With an unset handle, [mlua_event_claim] succeeds exactly when some
    slot in [0, 128) is free in the union of the cores' masks; it then
    returns the lowest free slot and sets only that slot's bit, in the
    calling core's mask, leaving the pending bitmap alone.  When all 128
    slots are taken it returns "no events available" and changes nothing,
    and once the owner of a slot releases it the next claim returns that
    slot. *)
Theorem claim_lowest_free_slot
    (core : nat) (es : EventState) (ev : MLuaEvent) :
  wf_event_state es = true -> core < NUM_CORES -> NUM_EVENTS <= ev ->
  ((mlua_event_claim core es ev).2 = None <->
   exists e, e < NUM_EVENTS /\ is_claimed es e = false) /\
  (forall es' e,
     mlua_event_claim core es ev = (es', e, None) ->
     e < NUM_EVENTS /\ is_claimed es e = false /\
     (forall e', e' < e -> is_claimed es e' = true) /\
     pending es' = pending es /\
     forall c e',
       claimed_by es' c e' =
       if decide (c = core /\ e' = e) then true else claimed_by es c e') /\
  ((forall e, e < NUM_EVENTS -> is_claimed es e = true) ->
   mlua_event_claim core es ev =
   (es, ev, Some "no events available"%string) /\
   forall (w : World) (c e : nat),
     event_state w = es -> c < NUM_CORES -> e < NUM_EVENTS ->
     claimed_by es c e = true ->
     (forall c', c' <> c -> claimed_by es c' e = false) ->
     exists es2,
       mlua_event_claim core (event_state (mlua_event_unclaim c w e).1) ev =
       (es2, e, None)).
Proof.
  intros Hwf Hcore Hev. split; [by apply claim_succeeds_iff|]. split.
  - intros es' e Hclaim.
    destruct (claim_success _ _ _ _ _ Hwf Hcore Hev Hclaim)
      as (H1 & H2 & H3 & H4 & _ & H5).
    repeat split; assumption.
  - intros Hfull. split; [by apply claim_exhausted|].
    intros w c e <- Hc He Hown Hexcl. by apply claim_after_release.
Qed.

Lemma all_below_spec (n : nat) (f : nat -> bool) :
  all_below n f = true -> forall e, e < n -> f e = true.
Proof.
  unfold all_below. rewrite forallb_forall. intros H e He.
  apply H, in_seq. lia.
Qed.

Lemma claim_lowest_free_slot_witness :
  mlua_event_claim 1 es_full MLUA_EVENT_UNSET =
  (es_full, MLUA_EVENT_UNSET, Some "no events available"%string) /\
  exists es2,
    mlua_event_claim 1
      (event_state (mlua_event_unclaim 0 (world_of es_full) 77).1)
      MLUA_EVENT_UNSET = (es2, 77, None).
Proof.
  destruct (claim_lowest_free_slot 1 es_full MLUA_EVENT_UNSET)
    as (_ & _ & H).
  - reflexivity.
  - unfold NUM_CORES. lia.
  - unfold NUM_EVENTS, MLUA_EVENT_UNSET. lia.
  - destruct H as [Hfail Hnext].
    + apply all_below_spec. vm_compute. reflexivity.
    + split; [exact Hfail|].
      apply (Hnext (world_of es_full) 0 77).
      * reflexivity.
      * unfold NUM_CORES. lia.
      * unfold NUM_EVENTS. lia.
      * vm_compute. reflexivity.
      * intros c' Hc'. destruct c' as [|[|c']]; [lia | reflexivity |].
        unfold claimed_by, mask_row, es_full. simpl mask.
        rewrite (nth_overflow _ _ (n := S (S c'))) by (simpl; lia).
        reflexivity.
Defined.

(** Example: on the empty table the first claim returns slot 0. *)
Example claim_first_slot :
  mlua_event_claim 0 event_state_init MLUA_EVENT_UNSET =
  ({| pending := [0; 0; 0; 0]%Z;
      mask := [[1; 0; 0; 0]; [0; 0; 0; 0]]%Z |}, 0, None).
Proof. vm_compute. reflexivity. Qed.

(** Example: a handle that already holds a slot is refused. *)
Example claim_twice :
  mlua_event_claim 0 event_state_init 5 =
  (event_state_init, 5, Some "event already claimed"%string).
Proof. vm_compute. reflexivity. Qed.

(* ===================================================================== *)
(** ** [mlua_event_unclaim] *)
(* ===================================================================== *)

(** C4, counterexample.  Core 0 owns slot 3 and the slot is pending; after
    [mlua_event_unclaim] the mask bit and the registry entry are gone, but
    the pending bit is still set. *)
Lemma unclaim_keeps_pending_bit :
  let w := w_slot3_pending in
  let w' := (mlua_event_unclaim 0 w 3).1 in
  wf_event_state (event_state w) = true /\
  claimed_by (event_state w) 0 3 = true /\
  is_pending (event_state w) 3 = true /\
  claimed_by (event_state w') 0 3 = false /\
  watchers w' !! 3 = None /\
  is_pending (event_state w') 3 <> false.
Proof. vm_compute. repeat split; discriminate. Qed.

(** C4, as the code has it.  On a slot owned by the calling core,
    [mlua_event_unclaim] clears the slot's bit in that core's mask (and no
    other mask bit), resets the handle to [MLUA_EVENT_UNSET] and removes the
    slot's entry from the watcher registry; the pending bitmap is left as
    it was.  On a slot the calling core does not own, nothing changes. *)
Theorem unclaim_owned_or_noop (core : nat) (w : World) (ev : MLuaEvent) :
  wf_event_state (event_state w) = true -> core < NUM_CORES ->
  (claimed_by (event_state w) core ev = true ->
   let w' := (mlua_event_unclaim core w ev).1 in
   (mlua_event_unclaim core w ev).2 = MLUA_EVENT_UNSET /\
   (forall c e,
      claimed_by (event_state w') c e =
      if decide (c = core /\ e = ev) then false
      else claimed_by (event_state w) c e) /\
   pending (event_state w') = pending (event_state w) /\
   watchers w' = delete ev (watchers w) /\
   tables w' = tables w /\
   wf_event_state (event_state w') = true) /\
  (claimed_by (event_state w) core ev = false ->
   mlua_event_unclaim core w ev = (w, ev)).
Proof.
  intros Hwf Hcore. split; [|by apply unclaim_not_owned].
  intros Hown.
  assert (Hev : ev < NUM_EVENTS).
  { destruct (decide (ev < NUM_EVENTS)) as [H|H]; [assumption|].
    assert (Hfree : is_claimed (event_state w) ev = false)
      by (apply is_claimed_out_of_range; [assumption | lia]).
    rewrite is_claimed_false in Hfree. rewrite Hfree in Hown by assumption.
    discriminate. }
  rewrite unclaim_owned by assumption. cbn [fst snd].
  split; [reflexivity|]. split; [|split; [reflexivity|]].
  - intros c e. simpl. by apply claimed_by_clear_bit.
  - split; [reflexivity|]. split; [reflexivity|]. simpl.
    apply wf_set_mask_at; [assumption|].
    apply word32_land_l. by apply wf_mask_word32.
Qed.

Lemma unclaim_owned_or_noop_witness :
  let w' := (mlua_event_unclaim 0 w_slot3_pending 3).1 in
  ((mlua_event_unclaim 0 w_slot3_pending 3).2 = MLUA_EVENT_UNSET /\
   (forall c e,
      claimed_by (event_state w') c e =
      if decide (c = 0 /\ e = 3) then false
      else claimed_by (event_state w_slot3_pending) c e) /\
   pending (event_state w') = pending (event_state w_slot3_pending) /\
   watchers w' = delete 3 (watchers w_slot3_pending) /\
   tables w' = tables w_slot3_pending /\
   wf_event_state (event_state w') = true) /\
  mlua_event_unclaim 1 w_slot3_pending 3 = (w_slot3_pending, 3).
Proof.
  split.
  - apply (unclaim_owned_or_noop 0 w_slot3_pending 3).
    + reflexivity.
    + unfold NUM_CORES. lia.
    + reflexivity.
  - apply (unclaim_owned_or_noop 1 w_slot3_pending 3).
    + reflexivity.
    + unfold NUM_CORES. lia.
    + reflexivity.
Defined.

(* ===================================================================== *)
(** ** [mlua_event_set] and [mlua_event_clear] *)
(* ===================================================================== *)

Lemma event_set_disabled (w : World) (ev : MLuaEvent) :
  NUM_EVENTS <= ev -> mlua_event_set w ev = w.
Proof.
  intros Hev. unfold mlua_event_set.
  destruct (Nat.leb_spec NUM_EVENTS ev); [reflexivity | lia].
Qed.

Lemma event_clear_disabled (w : World) (ev : MLuaEvent) :
  NUM_EVENTS <= ev -> mlua_event_clear w ev = w.
Proof.
  intros Hev. unfold mlua_event_clear.
  destruct (Nat.leb_spec NUM_EVENTS ev); [reflexivity | lia].
Qed.

Lemma event_set_enabled (w : World) (ev : MLuaEvent) :
  ev < NUM_EVENTS ->
  mlua_event_set w ev =
  set_sev_count
    (set_event_state w
       (set_pending_at (event_state w) (ev / 32)
          (Z.lor (pending_at (event_state w) (ev / 32)) (bit (ev mod 32)))))
    (S (sev_count w)).
Proof.
  intros Hev. unfold mlua_event_set.
  destruct (Nat.leb_spec NUM_EVENTS ev); [lia | reflexivity].
Qed.

Lemma event_clear_enabled (w : World) (ev : MLuaEvent) :
  ev < NUM_EVENTS ->
  mlua_event_clear w ev =
  set_event_state w
    (set_pending_at (event_state w) (ev / 32)
       (Z.land (pending_at (event_state w) (ev / 32))
               (not32 (bit (ev mod 32))))).
Proof.
  intros Hev. unfold mlua_event_clear.
  destruct (Nat.leb_spec NUM_EVENTS ev); [lia | reflexivity].
Qed.

(** C10. [mlua_event_set] with a handle that is not a valid id (128 or
    more) returns the world as it is.  With a valid id the word it indexes
    lies inside the [pending] array, exactly that slot's pending bit is set
    and every other pending bit keeps its value, the masks and the watcher
    registry are untouched, and one wake signal is issued. *)
Theorem event_set_total_and_in_bounds (w : World) (ev : MLuaEvent) :
  wf_event_state (event_state w) = true ->
  (NUM_EVENTS <= ev -> mlua_event_set w ev = w) /\
  (ev < NUM_EVENTS ->
   let w' := mlua_event_set w ev in
   ev / 32 < length (pending (event_state w)) /\
   (forall e,
      is_pending (event_state w') e =
      if decide (e = ev) then true else is_pending (event_state w) e) /\
   length (pending (event_state w')) = length (pending (event_state w)) /\
   mask (event_state w') = mask (event_state w) /\
   watchers w' = watchers w /\ tables w' = tables w /\
   sev_count w' = S (sev_count w) /\
   wf_event_state (event_state w') = true).
Proof.
  intros Hwf. split; [apply event_set_disabled|].
  intros Hev. cbv zeta. rewrite event_set_enabled by assumption. simpl.
  destruct (wf_event_state_dims _ Hwf) as (Hp & _).
  destruct (slot_coords ev) as [_ Hm].
  split; [rewrite Hp; by apply slot_block_lt|].
  split; [intros e; by apply is_pending_set|].
  split; [apply length_insert|].
  repeat (split; [reflexivity|]).
  apply wf_set_pending_at; [assumption|].
  apply word32_lor; [by apply wf_pending_word32 | by apply word32_bit].
Qed.

Lemma event_set_total_and_in_bounds_witness :
  mlua_event_set (world_of event_state_init) MLUA_EVENT_UNSET =
  world_of event_state_init /\
  is_pending (event_state (mlua_event_set (world_of event_state_init) 70)) 70
  = true /\
  sev_count (mlua_event_set (world_of event_state_init) 70) = 1.
Proof.
  destruct (event_set_total_and_in_bounds (world_of event_state_init)
              MLUA_EVENT_UNSET) as [Hnoop _]; [reflexivity|].
  destruct (event_set_total_and_in_bounds (world_of event_state_init) 70)
    as [_ Hset]; [reflexivity|].
  split.
  - apply Hnoop. unfold NUM_EVENTS, MLUA_EVENT_UNSET. lia.
  - assert (Hlt : 70 < NUM_EVENTS) by (unfold NUM_EVENTS; lia).
    destruct (Hset Hlt) as (_ & Hbit & _ & _ & _ & _ & Hsev & _).
    split; [|exact Hsev].
    rewrite Hbit. reflexivity.
Defined.

Lemma is_pending_event_clear (w : World) (ev e : MLuaEvent) :
  wf_event_state (event_state w) = true -> ev < NUM_EVENTS ->
  is_pending (event_state (mlua_event_clear w ev)) e =
  if decide (e = ev) then false else is_pending (event_state w) e.
Proof.
  intros Hwf Hev. rewrite event_clear_enabled by assumption. simpl.
  by apply is_pending_clear.
Qed.

(* ===================================================================== *)
(** ** The watcher registry *)
(* ===================================================================== *)

Lemma set_tables_same (w : World) : set_tables w (tables w) = w.
Proof. by destruct w. Qed.

Lemma set_watchers_same (w : World) : set_watchers w (watchers w) = w.
Proof. by destruct w. Qed.

Lemma set_event_state_same (w : World) :
  set_event_state w (event_state w) = w.
Proof. by destruct w. Qed.

Lemma alter_live {A} (f : A -> A) (m : gmap nat A) (a : nat) (x : A) :
  m !! a = Some x -> alter f a m = <[a := f x]> m.
Proof.
  intros Ha. apply map_eq. intros i. rewrite lookup_alter, lookup_insert.
  case_decide; [subst; by rewrite Ha | reflexivity].
Qed.

Lemma alter_fixed {A} (f : A -> A) (m : gmap nat A) (a : nat) :
  (forall x, m !! a = Some x -> f x = x) -> alter f a m = m.
Proof.
  intros Hf. apply map_eq. intros i. rewrite lookup_alter.
  case_decide; [subst|reflexivity].
  destruct (m !! i) as [x|] eqn:Hx; simpl; [|reflexivity].
  f_equal. by apply Hf.
Qed.

Lemma watch_enabled (w : World) (ev : MLuaEvent) :
  ev < NUM_EVENTS -> yieldable w = true ->
  mlua_event_watch w ev =
  match watchers w !! ev with
  | None =>
      (set_watchers w (<[ev := WThread (running w)]> (watchers w)), None)
  | Some (WThread t) =>
      if t =? running w then (w, None)
      else
        let a := fresh (dom (tables w)) in
        (set_watchers
           (set_tables w
              (<[a := table_add t (table_add (running w) ∅)]> (tables w)))
           (<[ev := WTable a]> (watchers w)),
         None)
  | Some (WTable a) =>
      (set_tables w (alter (table_add (running w)) a (tables w)), None)
  end.
Proof.
  intros Hev Hy. unfold mlua_event_watch.
  destruct (Nat.leb_spec NUM_EVENTS ev); [lia|]. by rewrite Hy.
Qed.

Lemma unwatch_enabled (w : World) (ev : MLuaEvent) :
  ev < NUM_EVENTS ->
  mlua_event_unwatch w ev =
  match watchers w !! ev with
  | Some (WThread t) =>
      if t =? running w
      then set_watchers w (delete ev (watchers w))
      else w
  | Some (WTable a) =>
      set_tables w (alter (table_remove (running w)) a (tables w))
  | None => w
  end.
Proof.
  intros Hev. unfold mlua_event_unwatch.
  destruct (Nat.leb_spec NUM_EVENTS ev); [lia | reflexivity].
Qed.

(** C8. In a yieldable thread, [mlua_event_watch] on a valid slot raises
    nothing and follows the three storage tiers: no entry becomes the
    single running thread; a single other thread becomes a fresh table
    holding both; a table gets the running thread inserted.  A thread that
    already watches the slot leaves the world unchanged, and afterwards the
    slot's watchers are the old ones plus the running thread, as a set. *)
Theorem watch_three_tiers (w : World) (ev : MLuaEvent) :
  ev < NUM_EVENTS -> yieldable w = true ->
  (forall a, watchers w !! ev = Some (WTable a) -> is_Some (tables w !! a)) ->
  let w' := (mlua_event_watch w ev).1 in
  let t := running w in
  (mlua_event_watch w ev).2 = None /\
  event_state w' = event_state w /\
  (watchers w !! ev = None ->
   watchers w' = <[ev := WThread t]> (watchers w) /\
   tables w' = tables w) /\
  (forall t0, watchers w !! ev = Some (WThread t0) -> t0 <> t ->
   exists a, tables w !! a = None /\
     watchers w' = <[ev := WTable a]> (watchers w) /\
     tables w' = <[a := {[t0; t]}]> (tables w)) /\
  (forall a s, watchers w !! ev = Some (WTable a) ->
   tables w !! a = Some s ->
   watchers w' = watchers w /\
   tables w' = <[a := {[t]} ∪ s]> (tables w)) /\
  (t ∈ watchers_of w ev -> w' = w) /\
  watchers_of w' ev = {[t]} ∪ watchers_of w ev.
Proof.
  intros Hev Hy Hlive. cbv zeta. rewrite watch_enabled by assumption.
  unfold watchers_of.
  destruct (watchers w !! ev) as [[t0|a]|] eqn:Hlook.
  - (* a single watcher *)
    destruct (Nat.eqb_spec t0 (running w)) as [->|Hne]; cbn [fst snd].
    + rewrite Hlook.
      split; [reflexivity|]. split; [reflexivity|].
      split; [discriminate|].
      split; [intros t0 [= ->] Hne; congruence|].
      split; [discriminate|].
      split; [reflexivity | set_solver].
    + set (a := fresh (dom (tables w))).
      assert (Hfresh : tables w !! a = None)
        by (apply not_elem_of_dom, is_fresh).
      simpl. rewrite lookup_insert_eq. unfold table_keys. simpl.
      rewrite lookup_insert_eq. simpl. unfold table_add.
      split; [reflexivity|]. split; [reflexivity|].
      split; [discriminate|].
      split; [|split; [discriminate|split]].
      * intros t1 [= <-] _. exists a.
        split; [assumption|]. split; [reflexivity|].
        f_equal. set_solver.
      * intros Hin. apply elem_of_singleton in Hin. congruence.
      * set_solver.
  - (* a set of watchers *)
    destruct (Hlive a eq_refl) as [s Hs]. cbn [fst snd].
    rewrite (alter_live _ _ _ _ Hs). simpl. rewrite Hlook.
    unfold table_keys. simpl. rewrite lookup_insert_eq, Hs. simpl.
    unfold table_add.
    split; [reflexivity|]. split; [reflexivity|].
    split; [discriminate|]. split; [discriminate|].
    split; [|split; [|reflexivity]].
    + intros a1 s1 [= <-] Hs1. split; [reflexivity|]. congruence.
    + intros Hin. transitivity (set_tables w (tables w));
        [|apply set_tables_same].
      f_equal. apply insert_id. rewrite Hs. f_equal. set_solver.
  - (* no watcher *)
    cbn [fst snd]. simpl. rewrite lookup_insert_eq.
    split; [reflexivity|]. split; [reflexivity|].
    split; [intros _; split; reflexivity|].
    split; [discriminate|]. split; [discriminate|].
    split; [intros Hin; set_solver | set_solver].
Qed.

Lemma watch_three_tiers_witness :
  let w' := (mlua_event_watch w_single_watcher 5).1 in
  (exists a, tables w_single_watcher !! a = None /\
     watchers w' = <[5 := WTable a]> (watchers w_single_watcher) /\
     tables w' = <[a := {[2; 7]}]> (tables w_single_watcher)) /\
  watchers_of w' 5 = {[7]} ∪ watchers_of w_single_watcher 5.
Proof.
  destruct (watch_three_tiers w_single_watcher 5)
    as (_ & _ & _ & Hpromote & _ & _ & Hset).
  - unfold NUM_EVENTS. lia.
  - reflexivity.
  - intros a Ha. vm_compute in Ha. discriminate.
  - split; [|exact Hset].
    apply (Hpromote 2); [reflexivity|]. simpl. lia.
Defined.

(** Example: the third watcher of a slot goes into the existing set. *)
Example watch_third_thread :
  let w := {| event_state := es_slot5; sev_count := 0;
              clock := 0%Z; watchers := {[5 := WTable 0]};
              tables := {[0 := {[2; 7]}]}; running := 9;
              yieldable := true |} in
  watchers_of (mlua_event_watch w 5).1 5 = {[2; 7; 9]}.
Proof. vm_compute. reflexivity. Qed.

(** C9, counterexample.  Thread 7 is the last watcher in the set of slot 5;
    after it calls [mlua_event_unwatch] the set is empty but the slot still
    has its registry entry, the table. *)
Lemma unwatch_last_keeps_table :
  let w := w_last_watcher in
  let w' := mlua_event_unwatch w 5 in
  watchers w !! 5 = Some (WTable 0) /\
  watchers_of w 5 = {[running w]} /\
  watchers_of w' 5 = ∅ /\
  watchers w' !! 5 <> None.
Proof. vm_compute. repeat split; discriminate. Qed.

(** C9, as the code has it.  For a slot whose entry is a watcher set,
    [mlua_event_unwatch] removes the running thread from the set and keeps
    the entry: when the last watcher leaves, the entry is the same table,
    now without keys, so the slot has no watcher although it still has an
    entry.  A thread that is not registered for the slot leaves the world
    unchanged. *)
Theorem unwatch_set_keeps_entry (w : World) (ev : MLuaEvent) :
  let w' := mlua_event_unwatch w ev in
  (ev < NUM_EVENTS ->
   forall a s, watchers w !! ev = Some (WTable a) ->
   tables w !! a = Some s ->
   watchers w' = watchers w /\
   tables w' = <[a := s ∖ {[running w]}]> (tables w) /\
   watchers_of w' ev = s ∖ {[running w]} /\
   (s = {[running w]} ->
    watchers w' !! ev = Some (WTable a) /\ watchers_of w' ev = ∅)) /\
  (running w ∉ watchers_of w ev -> w' = w).
Proof.
  cbv zeta. split.
  - intros Hev a s Hlook Hs. rewrite unwatch_enabled, Hlook by assumption.
    rewrite (alter_live _ _ _ _ Hs). unfold watchers_of, table_keys.
    simpl. rewrite Hlook, lookup_insert_eq. simpl. unfold table_remove.
    split; [reflexivity|]. split; [reflexivity|]. split; [reflexivity|].
    intros ->. split; [reflexivity | set_solver].
  - intros Hnot. unfold mlua_event_unwatch.
    destruct (NUM_EVENTS <=? ev); [reflexivity|].
    unfold watchers_of in Hnot.
    destruct (watchers w !! ev) as [[t0|a]|]; [| |reflexivity].
    + destruct (Nat.eqb_spec t0 (running w)) as [->|Hne];
        [set_solver | reflexivity].
    + transitivity (set_tables w (tables w)); [|apply set_tables_same].
      f_equal. apply alter_fixed. intros s Hs.
      unfold table_keys in Hnot. rewrite Hs in Hnot. simpl in Hnot.
      unfold table_remove. set_solver.
Qed.

Lemma unwatch_set_keeps_entry_witness :
  (watchers (mlua_event_unwatch w_last_watcher 5) = watchers w_last_watcher /\
   tables (mlua_event_unwatch w_last_watcher 5) =
     <[0 := {[7]} ∖ {[running w_last_watcher]}]> (tables w_last_watcher) /\
   watchers_of (mlua_event_unwatch w_last_watcher 5) 5 =
     {[7]} ∖ {[running w_last_watcher]} /\
   (({[7]} : gset nat) = {[running w_last_watcher]} ->
    watchers (mlua_event_unwatch w_last_watcher 5) !! 5 = Some (WTable 0) /\
    watchers_of (mlua_event_unwatch w_last_watcher 5) 5 = ∅)) /\
  mlua_event_unwatch w_single_watcher 5 = w_single_watcher.
Proof.
  split.
  - apply (proj1 (unwatch_set_keeps_entry w_last_watcher 5)).
    + unfold NUM_EVENTS. lia.
    + reflexivity.
    + reflexivity.
  - apply (proj2 (unwatch_set_keeps_entry w_single_watcher 5)).
    vm_compute. intros H. discriminate.
Defined.

(* ===================================================================== *)
(** ** The wait protocol *)
(* ===================================================================== *)

Lemma watch_registers (w : World) (ev : MLuaEvent) :
  ev < NUM_EVENTS -> yieldable w = true ->
  (forall a, watchers w !! ev = Some (WTable a) -> is_Some (tables w !! a)) ->
  running w ∈ watchers_of (mlua_event_watch w ev).1 ev.
Proof.
  intros Hev Hy Hlive. rewrite watch_enabled by assumption.
  unfold watchers_of.
  destruct (watchers w !! ev) as [[t0|a]|] eqn:Hlook.
  - destruct (Nat.eqb_spec t0 (running w)) as [->|Hne]; simpl.
    + rewrite Hlook. set_solver.
    + rewrite lookup_insert_eq. unfold table_keys. simpl.
      rewrite lookup_insert_eq. simpl. unfold table_add. set_solver.
  - destruct (Hlive a eq_refl) as [s Hs]. simpl. rewrite Hlook.
    unfold table_keys. simpl. rewrite lookup_alter, decide_True, Hs by done.
    simpl. unfold table_add. set_solver.
  - simpl. rewrite lookup_insert_eq. set_solver.
Qed.

Lemma unwatch_removes (w : World) (ev : MLuaEvent) :
  ev < NUM_EVENTS -> running w ∉ watchers_of (mlua_event_unwatch w ev) ev.
Proof.
  intros Hev. rewrite unwatch_enabled by assumption. unfold watchers_of.
  destruct (watchers w !! ev) as [[t0|a]|] eqn:Hlook.
  - destruct (Nat.eqb_spec t0 (running w)) as [->|Hne]; simpl.
    + rewrite lookup_delete_eq. set_solver.
    + rewrite Hlook. set_solver.
  - simpl. rewrite Hlook. unfold table_keys. simpl. rewrite lookup_alter.
    rewrite decide_True by reflexivity.
    destruct (tables w !! a) as [s|]; simpl; unfold table_remove; set_solver.
  - rewrite Hlook. set_solver.
Qed.

(** C7. [mlua_event_wait] on a handle that is not a claimed slot (128 or
    more, such as [MLUA_EVENT_UNSET]) raises "wait for unclaimed event" at
    once, whatever the try function and the index are: the world is the one
    it was called in, so the try function has not run and no watcher has
    been registered, and the outcome is an error, not a yield. *)
Theorem wait_unclaimed_raises
    (w : World) (ev : MLuaEvent) (try_get : TryFn) (index : Z) :
  NUM_EVENTS <= ev ->
  mlua_event_wait w ev try_get index =
  (w, Error "wait for unclaimed event").
Proof.
  intros Hev. unfold mlua_event_wait.
  destruct (Nat.leb_spec NUM_EVENTS ev); [reflexivity | lia].
Qed.

Lemma wait_unclaimed_raises_witness :
  mlua_event_wait w_slot3_pending MLUA_EVENT_UNSET try_slot3 0 =
  (w_slot3_pending, Error "wait for unclaimed event") /\
  (try_slot3 w_slot3_pending).1 <> w_slot3_pending.
Proof.
  split.
  - apply (wait_unclaimed_raises w_slot3_pending MLUA_EVENT_UNSET try_slot3 0).
    unfold NUM_EVENTS, MLUA_EVENT_UNSET. lia.
  - intros H. apply (f_equal clock) in H. vm_compute in H. discriminate.
Defined.

(** C3. For a claimed slot: when the first call of the try function
    returns a non-negative result, [mlua_event_wait] returns it in the world
    the try function left, without registering or yielding.  When it
    returns a negative result in a yieldable thread, [mlua_event_wait]
    registers the running thread as a watcher and yields with
    [mlua_event_wait_2] as continuation.  Each resume calls the try
    function again: a negative result yields again with the same
    continuation and touches nothing else; a non-negative result
    unregisters the thread and is returned. *)
Theorem wait_fast_path_and_retry
    (w : World) (ev : MLuaEvent) (try_get : TryFn) (index : Z) :
  ev < NUM_EVENTS ->
  let k := {| k_event := ev; k_try := try_get; k_index := index |} in
  let v := if (index =? 0)%Z then YTrue else YIndex index in
  (forall w1 res,
     try_get w = (w1, Returns res) -> (0 <= res)%Z ->
     mlua_event_wait w ev try_get index = (w1, Return res)) /\
  (forall w1 res,
     try_get w = (w1, Returns res) -> (res < 0)%Z -> yieldable w1 = true ->
     mlua_event_wait w ev try_get index =
     ((mlua_event_watch w1 ev).1, Yield k v) /\
     ((forall a, watchers w1 !! ev = Some (WTable a) ->
                 is_Some (tables w1 !! a)) ->
      running w1 ∈ watchers_of (mlua_event_watch w1 ev).1 ev)) /\
  (forall wr w1 res,
     try_get wr = (w1, Returns res) -> (res < 0)%Z -> yieldable w1 = true ->
     mlua_event_wait_2 wr k = (w1, Yield k v)) /\
  (forall wr w1 res,
     try_get wr = (w1, Returns res) -> (0 <= res)%Z ->
     mlua_event_wait_2 wr k = (mlua_event_unwatch w1 ev, Return res) /\
     running w1 ∉ watchers_of (mlua_event_unwatch w1 ev) ev).
Proof.
  intros Hev. cbv zeta.
  assert (Hge : (NUM_EVENTS <=? ev) = false) by (apply Nat.leb_gt; lia).
  split; [|split; [|split]].
  - intros w1 res Htry Hres. unfold mlua_event_wait. rewrite Hge, Htry.
    destruct (Z.leb_spec 0 res); [reflexivity | lia].
  - intros w1 res Htry Hres Hy. split.
    + unfold mlua_event_wait. rewrite Hge, Htry.
      destruct (Z.leb_spec 0 res); [lia|].
      rewrite watch_enabled by assumption.
      unfold mlua_event_wait_1, mlua_event_suspend, mlua_event_yield.
      destruct (watchers w1 !! ev) as [[t0|a]|];
        [destruct (t0 =? running w1)| |]; simpl; by rewrite Hy.
    + intros Hlive. by apply watch_registers.
  - intros wr w1 res Htry Hres Hy. unfold mlua_event_wait_2. simpl.
    rewrite Htry. destruct (Z.ltb_spec res 0); [|lia].
    unfold mlua_event_wait_1, mlua_event_suspend, mlua_event_yield.
    by rewrite Hy.
  - intros wr w1 res Htry Hres. split; [|by apply unwatch_removes].
    unfold mlua_event_wait_2. simpl. rewrite Htry.
    destruct (Z.ltb_spec res 0); [lia | reflexivity].
Qed.

Lemma wait_fast_path_and_retry_witness :
  (* the slot has already fired: no registration, no yield *)
  mlua_event_wait w_slot3_pending 3 try_slot3 0 =
  ((try_slot3 w_slot3_pending).1, Return 1) /\
  (* not yet: register and yield *)
  mlua_event_wait w_slot3_idle 3 try_slot3 0 =
  ((mlua_event_watch (try_slot3 w_slot3_idle).1 3).1, Yield k_slot3 YTrue) /\
  (* resumed too early: yield again *)
  mlua_event_wait_2 w_slot3_idle k_slot3 =
  ((try_slot3 w_slot3_idle).1, Yield k_slot3 YTrue) /\
  (* resumed after the event: unregister and return *)
  mlua_event_wait_2 w_slot3_pending k_slot3 =
  (mlua_event_unwatch (try_slot3 w_slot3_pending).1 3, Return 1).
Proof.
  assert (H3 : 3 < NUM_EVENTS) by (unfold NUM_EVENTS; lia).
  split; [|split; [|split]].
  - apply (proj1 (wait_fast_path_and_retry w_slot3_pending 3 try_slot3 0 H3)).
    + reflexivity.
    + lia.
  - apply (proj1 (proj2
             (wait_fast_path_and_retry w_slot3_idle 3 try_slot3 0 H3))
             _ (-1)%Z).
    + reflexivity.
    + lia.
    + reflexivity.
  - apply (proj1 (proj2 (proj2
             (wait_fast_path_and_retry w_slot3_idle 3 try_slot3 0 H3)))
             w_slot3_idle _ (-1)%Z).
    + reflexivity.
    + lia.
    + reflexivity.
  - apply (proj2 (proj2 (proj2
             (wait_fast_path_and_retry w_slot3_idle 3 try_slot3 0 H3)))
             w_slot3_pending).
    + reflexivity.
    + lia.
Defined.

(** Example: a thread waits for slot 3, the slot fires, the thread is
    resumed: it has tried twice, the pending bit is consumed and the
    registry is empty again. *)
Example wait_then_fire :
  let (w1, o1) := mlua_event_wait w_slot3_idle 3 try_slot3 0 in
  let (w2, o2) := mlua_event_wait_2 (mlua_event_set w1 3) k_slot3 in
  watchers w1 = {[3 := WThread 1]} /\
  o2 = Return 1 /\ watchers w2 = ∅ /\
  clock w2 = (clock w_slot3_idle + 2)%Z /\
  is_pending (event_state w2) 3 = false.
Proof. vm_compute. repeat split. Qed.

(* ===================================================================== *)
(** ** The dispatch loop, piece by piece *)
(* ===================================================================== *)

Lemma is_progress_resume (slot t : nat) (r : bool) :
  is_progress (EvResume slot t (Returns r)) = r.
Proof. by destruct r. Qed.

Section CompSpec.

Variable R : World -> World -> Prop.
Hypothesis R_refl : forall w, R w w.
Hypothesis R_trans : forall w1 w2 w3, R w1 w2 -> R w2 w3 -> R w1 w3.

Variable E : World -> Event -> Prop.
Hypothesis E_mono : forall w w' e, R w w' -> E w' e -> E w e.

Lemma comp_spec_ret (wake : bool) : comp_spec R E wake (ret wake).
Proof.
  intros w tr r [= <- <-]. split; [constructor|].
  split; [apply R_refl | by rewrite orb_false_r].
Qed.

Lemma comp_spec_bind (wake : bool) (m : Comp bool) (f : bool -> Comp bool) :
  comp_spec R E wake m ->
  (forall wake', comp_spec R E wake' (f wake')) ->
  comp_spec R E wake (bind m f).
Proof.
  intros Hm Hf w tr r Hrun. unfold bind in Hrun.
  destruct (m w) as [tr1 r1] eqn:Hm1. apply Hm in Hm1 as [Htr1 Hr1].
  destruct r1 as [wake1 w1|msg w1|]; [|by inversion Hrun; subst|done].
  destruct Hr1 as [HR1 ->].
  destruct (f _ w1) as [tr2 r2] eqn:Hf2. apply Hf in Hf2 as [Htr2 Hr2].
  inversion Hrun; subst; clear Hrun. split.
  - apply Forall_app. split; [assumption|].
    eapply Forall_impl; [exact Htr2|]. intros e He. by eapply E_mono.
  - destruct r as [wake2 w2|msg w2|]; [|by eapply R_trans|done].
    destruct Hr2 as [HR2 ->]. split; [by eapply R_trans|].
    by rewrite existsb_app, orb_assoc.
Qed.

End CompSpec.

(** The pieces below one block: the events are judged by a predicate that
    does not look at the world. *)
Section DispatchSlots.

Variable resume : nat -> World -> World * CallResult bool.
Variable traversal : gset nat -> list nat.

Variable R : World -> World -> Prop.
Hypothesis R_refl : forall w, R w w.
Hypothesis R_trans : forall w1 w2 w3, R w1 w2 -> R w2 w3 -> R w1 w3.
Hypothesis R_resume : forall t w, R w (resume t w).1.

Variable E : Event -> Prop.

Lemma comp_spec_resume_watcher (slot t : nat) (wake : bool) :
  (forall r, E (EvResume slot t r)) ->
  comp_spec R (fun _ => E) wake (resume_watcher resume slot t wake).
Proof.
  intros HE w tr r Hrun. unfold resume_watcher in Hrun.
  pose proof (R_resume t w) as HR.
  destruct (resume t w) as [w' [b|msg]]; inversion Hrun; subst; clear Hrun.
  - split; [by repeat constructor|]. split; [assumption|].
    cbn [existsb]. by rewrite is_progress_resume, orb_false_r.
  - split; [by repeat constructor | assumption].
Qed.

Lemma comp_spec_resume_table (slot a : nat) (keys : list nat) (wake : bool) :
  (forall t r, E (EvResume slot t r)) ->
  comp_spec R (fun _ => E) wake (resume_table resume slot a keys wake).
Proof.
  intros HE. revert wake. induction keys as [|t rest IH]; intros wake.
  - by apply comp_spec_ret.
  - intros w tr r Hrun. cbn [resume_table] in Hrun.
    destruct (decide (t ∈ table_keys w a)) as [Hin|Hout].
    + revert w tr r Hrun Hin. intros w tr r Hrun _. revert w tr r Hrun.
      change (comp_spec R (fun _ => E) wake
                (bind (resume_watcher resume slot t wake)
                      (fun wake' => resume_table resume slot a rest wake'))).
      apply comp_spec_bind; [assumption | done | | exact IH].
      apply comp_spec_resume_watcher. intros; apply HE.
    + by apply IH.
Qed.

Lemma comp_spec_dispatch_slot (slot : nat) (wake : bool) :
  (forall t r, E (EvResume slot t r)) ->
  comp_spec R (fun _ => E) wake (dispatch_slot resume traversal slot wake).
Proof.
  intros HE w tr r Hrun. unfold dispatch_slot in Hrun.
  destruct (watchers w !! slot) as [[t|a]|].
  - exact (comp_spec_resume_watcher slot t wake (HE t) w tr r Hrun).
  - exact (comp_spec_resume_table slot a _ wake HE w tr r Hrun).
  - exact (comp_spec_ret R R_refl _ wake w tr r Hrun).
Qed.

(** The inner loop visits set bits only, and 32 iterations are enough:
    each one clears the lowest set bit. *)
Lemma comp_spec_dispatch_active
    (fuel block k : nat) (active : Z) (wake : bool) :
  32 <= k + fuel ->
  (forall j, j < k -> Z.testbit active (Z.of_nat j) = false) ->
  (forall i t r, i < 32 -> Z.testbit active (Z.of_nat i) = true ->
                 E (EvResume (block * 32 + i) t r)) ->
  comp_spec R (fun _ => E) wake
    (dispatch_active resume traversal fuel block active wake).
Proof.
  revert k active wake. induction fuel as [|fuel IH];
    intros k active wake Hfuel Hlow HE.
  - cbn [dispatch_active].
    destruct (ffs active) as [|idx] eqn:Hffs; [by apply comp_spec_ret|].
    destruct (ffs_succ _ _ Hffs) as (Hidx & Hbit & _).
    rewrite Hlow in Hbit by lia. discriminate.
  - cbn [dispatch_active].
    destruct (ffs active) as [|idx] eqn:Hffs; [by apply comp_spec_ret|].
    destruct (ffs_succ _ _ Hffs) as (Hidx & Hbit & Hbelow).
    apply comp_spec_bind; [assumption | done | |].
    + apply comp_spec_dispatch_slot. intros t r. by apply HE.
    + intros wake'. apply (IH (S idx)).
      * assert (k <= idx); [|lia].
        destruct (decide (k <= idx)) as [|Hgt]; [assumption|].
        rewrite Hlow in Hbit by lia. discriminate.
      * intros j Hj. rewrite Z.land_spec.
        destruct (decide (j = idx)) as [->|Hne].
        -- rewrite testbit_not32, testbit_bit by assumption.
           rewrite bool_decide_eq_true_2 by reflexivity. apply andb_false_r.
        -- rewrite Hbelow by lia. reflexivity.
      * intros i t r Hi Hb. apply HE; [assumption|].
        rewrite Z.land_spec in Hb. by apply andb_true_iff in Hb as [? _].
Qed.

End DispatchSlots.

(** The loop over the blocks: here the events are judged relative to the
    world in which the piece starts. *)
Section DispatchBlocks.

Variable core : nat.
Variable resume : nat -> World -> World * CallResult bool.
Variable traversal : gset nat -> list nat.

Variable R : World -> World -> Prop.
Hypothesis R_refl : forall w, R w w.
Hypothesis R_trans : forall w1 w2 w3, R w1 w2 -> R w2 w3 -> R w1 w3.
Hypothesis R_resume : forall t w, R w (resume t w).1.
Hypothesis R_drain :
  forall block w,
    R w (set_event_state w (drain_block core block (event_state w))).

Variable E : World -> Event -> Prop.
Hypothesis E_mono : forall w w' e, R w w' -> E w' e -> E w e.
Hypothesis E_active :
  forall w block i t r, i < 32 ->
    active_bit core (event_state w) block i = true ->
    E w (EvResume (block * 32 + i) t r).

Lemma comp_spec_dispatch_block (block : nat) (wake : bool) :
  comp_spec R E wake (dispatch_block core resume traversal block wake).
Proof.
  intros w tr r Hrun. unfold dispatch_block in Hrun. cbv zeta in Hrun.
  set (wd := set_event_state w _) in Hrun.
  pose proof (R_drain block w) as Hd. fold wd in Hd.
  apply (comp_spec_dispatch_active resume traversal R R_refl R_trans
           R_resume (E w) 32 block 0) in Hrun.
  - destruct Hrun as [Htr Hr]. split; [exact Htr|].
    destruct r as [wake' w'|msg w'|]; [|by eapply R_trans|done].
    destruct Hr as [HR ->]. split; [by eapply R_trans | reflexivity].
  - lia.
  - intros j Hj. lia.
  - intros i t0 r0 Hi Hb. by apply E_active.
Qed.

Lemma comp_spec_dispatch_blocks (n block : nat) (wake : bool) :
  comp_spec R E wake (dispatch_blocks core resume traversal n block wake).
Proof.
  revert block wake. induction n as [|n IH]; intros block wake.
  - by apply comp_spec_ret.
  - cbn [dispatch_blocks]. apply comp_spec_bind; try assumption.
    + apply comp_spec_dispatch_block.
    + intros wake'. apply IH.
Qed.

Lemma comp_spec_dispatch_pass :
  comp_spec R E false (dispatch_pass core resume traversal).
Proof. apply comp_spec_dispatch_blocks. Qed.

End DispatchBlocks.

(* ===================================================================== *)
(** ** One pass reports progress exactly when a resume call did *)
(* ===================================================================== *)

Lemma existsb_is_progress (tr : list Event) :
  existsb is_progress tr = true <->
  exists slot t, In (EvResume slot t (Returns true)) tr.
Proof.
  rewrite existsb_exists. split.
  - intros (e & Hin & He). destruct e as [slot t [[|]|msg]| |]; try discriminate.
    eauto.
  - intros (slot & t & Hin). eauto.
Qed.

Lemma dispatch_pass_wake
    (core : nat) (resume : nat -> World -> World * CallResult bool)
    (traversal : gset nat -> list nat) (w : World)
    (tr : list Event) (r : Res bool) :
  dispatch_pass core resume traversal w = (tr, r) ->
  Forall is_resume tr /\
  match r with
  | Ok wake _ => wake = existsb is_progress tr
  | Raise _ _ => True
  | Fuel => False
  end.
Proof.
  intros Hrun.
  apply (comp_spec_dispatch_pass core resume traversal
           (fun _ _ => True) (fun _ => I) (fun _ _ _ _ _ => I)
           (fun _ _ => I) (fun _ _ => I) (fun _ => is_resume)) in Hrun.
  - destruct Hrun as [Htr Hr]. split; [exact Htr|].
    destruct r as [wake w'|msg w'|]; [|exact I|exact Hr].
    destruct Hr as [_ ->]. reflexivity.
  - intros _ _ e _ He. exact He.
  - intros _ block i t0 r0 _ _. by exists (block * 32 + i), t0, r0.
Qed.


(* ===================================================================== *)
(** ** [mod_dispatch]: when the loop ends *)
(* ===================================================================== *)

Lemma mod_dispatch_step
    (core : nat) (resume : nat -> World -> World * CallResult bool)
    (traversal : gset nat -> list nat)
    (wfe : World -> World) (wfe_or_timeout : Z -> World -> World)
    (fuel : nat) (deadline : Z) (w : World) :
  mod_dispatch core resume traversal wfe wfe_or_timeout (S fuel) deadline w =
  match dispatch_pass core resume traversal w with
  | (tr, Ok wake w1) =>
      if wake || is_nil_time deadline || time_reached deadline w1
      then (tr, Ok tt w1)
      else
        let ev := if is_at_the_end_of_time deadline
                  then EvWfe else EvWfeOrTimeout deadline in
        let w2 := if is_at_the_end_of_time deadline
                  then wfe w1 else wfe_or_timeout deadline w1 in
        let (tr2, r) :=
          mod_dispatch core resume traversal wfe wfe_or_timeout
                       fuel deadline w2 in
        (tr ++ ev :: tr2, r)
  | (tr, Raise msg w1) => (tr, Raise msg w1)
  | (tr, Fuel) => (tr, Fuel)
  end.
Proof.
  cbn [mod_dispatch]. unfold bind at 1.
  destruct (dispatch_pass core resume traversal w) as [tr [wake w1|msg w1|]];
    [|reflexivity|reflexivity].
  destruct (wake || is_nil_time deadline || time_reached deadline w1).
  - unfold ret. by rewrite app_nil_r.
  - unfold bind, low_power_wait.
    destruct (is_at_the_end_of_time deadline); cbn [negb];
      by destruct (mod_dispatch _ _ _ _ _ fuel deadline _).
Qed.

Lemma mod_dispatch_returns
    (core : nat) (resume : nat -> World -> World * CallResult bool)
    (traversal : gset nat -> list nat)
    (wfe : World -> World) (wfe_or_timeout : Z -> World -> World)
    (fuel : nat) (deadline : Z) (w w' : World) (tr : list Event) :
  mod_dispatch core resume traversal wfe wfe_or_timeout fuel deadline w =
  (tr, Ok tt w') ->
  (exists slot t, In (EvResume slot t (Returns true)) tr) \/
  is_nil_time deadline = true \/ time_reached deadline w' = true.
Proof.
  revert w tr. induction fuel as [|fuel IH]; intros w tr; [discriminate|].
  rewrite mod_dispatch_step.
  destruct (dispatch_pass core resume traversal w)
    as [tr1 [wake w1|msg w1|]] eqn:Hpass; [|discriminate|discriminate].
  apply dispatch_pass_wake in Hpass as [_ ->].
  destruct (existsb is_progress tr1) eqn:Hprog; cbn [orb].
  - intros [= <- <-]. left. by apply existsb_is_progress.
  - destruct (is_nil_time deadline) eqn:Hnil; cbn [orb].
    + intros _. right. by left.
    + destruct (time_reached deadline w1) eqn:Hreached.
      * intros [= <- <-]. right. by right.
      * cbv zeta.
        destruct (mod_dispatch _ _ _ _ _ fuel deadline _) as [tr2 r] eqn:Hrest.
        intros [= <- ->]. apply IH in Hrest as [(slot & t & Hin)|Hd].
        -- left. exists slot, t. apply in_or_app. right. by right.
        -- by right.
Qed.

(** C1. [mod_dispatch] returns only when a resumed watcher reported
    progress (its resume call returned true), or the deadline is
    [nil_time], or the deadline has been reached; it returns at the end of
    the first pass in which a watcher reports progress.  With
    [at_the_end_of_time] (and a clock that has not reached that value) it
    returns only on progress, and after a pass without progress it executes
    [__wfe] and starts another pass.  With [nil_time] it makes exactly one
    drain pass and no low-power wait, whether or not a watcher reported
    progress. *)
Theorem dispatch_returns_on_progress_or_deadline
    (core : nat) (resume : nat -> World -> World * CallResult bool)
    (traversal : gset nat -> list nat)
    (wfe : World -> World) (wfe_or_timeout : Z -> World -> World) :
  let dispatch := mod_dispatch core resume traversal wfe wfe_or_timeout in
  let pass := dispatch_pass core resume traversal in
  (forall fuel deadline w tr w',
     dispatch fuel deadline w = (tr, Ok tt w') ->
     (exists slot t, In (EvResume slot t (Returns true)) tr) \/
     is_nil_time deadline = true \/ time_reached deadline w' = true) /\
  (forall fuel deadline w tr wake w1 slot t,
     pass w = (tr, Ok wake w1) ->
     In (EvResume slot t (Returns true)) tr ->
     dispatch (S fuel) deadline w = (tr, Ok tt w1)) /\
  (forall fuel w tr w',
     dispatch fuel at_the_end_of_time w = (tr, Ok tt w') ->
     (clock w' < at_the_end_of_time)%Z ->
     exists slot t, In (EvResume slot t (Returns true)) tr) /\
  (forall fuel w tr1 w1,
     pass w = (tr1, Ok false w1) ->
     (clock w1 < at_the_end_of_time)%Z ->
     dispatch (S fuel) at_the_end_of_time w =
     let (tr2, r) := dispatch fuel at_the_end_of_time (wfe w1) in
     (tr1 ++ EvWfe :: tr2, r)) /\
  (forall fuel w,
     exists tr r1,
       pass w = (tr, r1) /\ Forall is_resume tr /\ r1 <> Fuel /\
       dispatch (S fuel) nil_time w =
       (tr, match r1 with
            | Ok _ w1 => Ok tt w1
            | Raise msg w1 => Raise msg w1
            | Fuel => Fuel
            end)).
Proof.
  cbv zeta. split; [|split; [|split; [|split]]].
  - intros fuel deadline w tr w'. apply mod_dispatch_returns.
  - intros fuel deadline w tr wake w1 slot t Hpass Hin.
    rewrite mod_dispatch_step, Hpass.
    apply dispatch_pass_wake in Hpass as [_ ->].
    assert (Hp : existsb is_progress tr = true)
      by (apply existsb_is_progress; eauto).
    by rewrite Hp.
  - intros fuel w tr w' Hrun Hclock.
    apply mod_dispatch_returns in Hrun as [Hprog|[Hnil|Hreached]].
    + exact Hprog.
    + discriminate.
    + unfold time_reached in Hreached. apply Z.leb_le in Hreached. lia.
  - intros fuel w tr1 w1 Hpass Hclock.
    rewrite mod_dispatch_step, Hpass.
    assert (Hreached : time_reached at_the_end_of_time w1 = false)
      by (apply Z.leb_gt; exact Hclock).
    rewrite Hreached. reflexivity.
  - intros fuel w.
    destruct (dispatch_pass core resume traversal w) as [tr r1] eqn:Hpass.
    exists tr, r1. split; [reflexivity|].
    pose proof (dispatch_pass_wake _ _ _ _ _ _ Hpass) as [Htr Hr].
    split; [exact Htr|]. split; [by destruct r1|].
    rewrite mod_dispatch_step, Hpass.
    destruct r1 as [wake w1|msg w1|]; try reflexivity.
    by rewrite orb_true_r.
Qed.

Lemma dispatch_returns_on_progress_or_deadline_witness :
  let dispatch :=
    mod_dispatch 0 resume_progress elements wfe_fires_slot3
                 sleep_until_deadline in
  (* no deadline, nothing pending: sleep, then the event fires *)
  (exists slot t,
     In (EvResume slot t (Returns true))
        [EvWfe; EvResume 3 1 (Returns true)]) /\
  dispatch 2 at_the_end_of_time w_slot3_watched =
  (let (tr2, r) :=
     dispatch 1 at_the_end_of_time (wfe_fires_slot3 w_slot3_watched) in
   ([] ++ EvWfe :: tr2, r)) /\
  (* a finite deadline that passes without progress *)
  ((exists slot t, In (EvResume slot t (Returns true))
                      [EvWfeOrTimeout 5000]) \/
   is_nil_time 5000 = true \/
   time_reached 5000 (sleep_until_deadline 5000 w_slot3_watched) = true).
Proof.
  destruct (dispatch_returns_on_progress_or_deadline 0 resume_progress
              elements wfe_fires_slot3 sleep_until_deadline)
    as (Hret & _ & Hend & Hloop & _).
  split; [|split].
  - eapply (Hend 2 w_slot3_watched).
    + vm_compute. reflexivity.
    + vm_compute. reflexivity.
  - apply (Hloop 1 w_slot3_watched [] w_slot3_watched).
    + vm_compute. reflexivity.
    + vm_compute. reflexivity.
  - apply (Hret 2 5000%Z w_slot3_watched).
    vm_compute. reflexivity.
Defined.

(** Example: with [nil_time] and a watcher that reports no progress, the
    loop makes one pass, drains the pending bit and returns. *)
Example dispatch_nil_time_single_pass :
  mod_dispatch 0 resume_idle elements wfe_fires_slot3 sleep_until_deadline
               1 nil_time w_slot3_pending =
  ([EvResume 3 1 (Returns false)],
   Ok tt (set_event_state w_slot3_pending
            {| pending := [0; 0; 0; 0]%Z;
               mask := [[8; 0; 0; 0]; [0; 0; 0; 0]]%Z |})).
Proof. vm_compute. reflexivity. Qed.

(** Example: with no deadline and watchers that never report progress, the
    loop is still running after five passes, having slept after each. *)
Example dispatch_no_deadline_keeps_looping :
  mod_dispatch 0 resume_idle elements wfe_fires_slot3 sleep_until_deadline
               5 at_the_end_of_time w_slot3_watched =
  ([EvWfe; EvResume 3 1 (Returns false);
    EvWfe; EvResume 3 1 (Returns false);
    EvWfe; EvResume 3 1 (Returns false);
    EvWfe; EvResume 3 1 (Returns false); EvWfe], Fuel).
Proof. vm_compute. reflexivity. Qed.

(* ===================================================================== *)
(** ** One pass drains exactly the owned pending bits *)
(* ===================================================================== *)

Lemma claimed_by_mask_eq (es es' : EventState) (core e : nat) :
  mask es' = mask es -> claimed_by es' core e = claimed_by es core e.
Proof. intros H. unfold claimed_by, mask_row. by rewrite H. Qed.

Lemma is_claimed_mask_eq (es es' : EventState) (e : nat) :
  mask es' = mask es -> is_claimed es' e = is_claimed es e.
Proof.
  intros H. unfold is_claimed.
  induction (seq 0 NUM_CORES) as [|c l IH]; [reflexivity|].
  cbn [existsb]. by rewrite IH, (claimed_by_mask_eq _ _ _ _ H).
Qed.

Lemma is_pending_drain_block (core block : nat) (es : EventState) (e : nat) :
  is_pending (drain_block core block es) e =
  if decide (block = e / 32)
  then is_pending es e && negb (claimed_by es core e)
  else is_pending es e.
Proof.
  unfold drain_block, is_pending, set_pending_at, pending_at.
  cbn [pending mask].
  destruct (slot_coords e) as [_ Hm].
  destruct (decide (block < length (pending es))) as [Hlt|Hge].
  - unfold slot_bit at 1. rewrite word_at_insert by assumption.
    case_decide as Hb; [|reflexivity]. subst block.
    rewrite Z.land_spec, testbit_not32 by assumption. reflexivity.
  - rewrite list_insert_ge by lia.
    case_decide as Hb; [|reflexivity]. subst block.
    rewrite slot_bit_out_of_range by lia. reflexivity.
Qed.

Lemma active_bit_slot (core : nat) (es : EventState) (block i : nat) :
  i < 32 ->
  active_bit core es block i =
  is_pending es (block * 32 + i) && claimed_by es core (block * 32 + i).
Proof.
  intros Hi. unfold active_bit, is_pending, claimed_by, slot_bit.
  rewrite slot_div, slot_mod by assumption. apply Z.land_spec.
Qed.

Lemma drained_by_refl (core : nat) (w : World) : drained_by core w w.
Proof. repeat split; auto. Qed.

Lemma drained_by_trans (core : nat) (w1 w2 w3 : World) :
  drained_by core w1 w2 -> drained_by core w2 w3 -> drained_by core w1 w3.
Proof.
  intros (Hm12 & Hsub12 & Hkeep12) (Hm23 & Hsub23 & Hkeep23).
  split; [congruence|]. split; [auto|].
  intros e He. rewrite Hkeep23, Hkeep12; [reflexivity | assumption |].
  by rewrite (claimed_by_mask_eq _ _ _ _ Hm12).
Qed.

Lemma drained_by_drain (core block : nat) (w : World) :
  drained_by core w
    (set_event_state w (drain_block core block (event_state w))).
Proof.
  split; [reflexivity|]. cbn [event_state set_event_state]. split.
  - intros e. rewrite is_pending_drain_block.
    case_decide; [|done]. by intros [? _]%andb_true_iff.
  - intros e He. rewrite is_pending_drain_block, He.
    case_decide; [apply andb_true_r | reflexivity].
Qed.

Lemma drained_by_frame (core : nat) (w w' : World) :
  event_state w' = event_state w -> drained_by core w w'.
Proof. intros H. unfold drained_by. rewrite H. auto. Qed.

Lemma resumes_owned_pending_mono
    (core : nat) (R : World -> World -> Prop) (w w' : World) (e : Event) :
  (forall w1 w2 w3, R w1 w2 -> R w2 w3 -> R w1 w3) ->
  R w w' -> resumes_owned_pending core R w' e ->
  resumes_owned_pending core R w e.
Proof.
  intros Htrans HR (slot & t & r & -> & w1 & HR1 & Hp & Hc).
  exists slot, t, r. split; [reflexivity|]. exists w1. eauto.
Qed.

Lemma resumes_owned_pending_active
    (core : nat) (R : World -> World -> Prop)
    (w : World) (block i t : nat) (r : CallResult bool) :
  (forall w, R w w) -> i < 32 ->
  active_bit core (event_state w) block i = true ->
  resumes_owned_pending core R w (EvResume (block * 32 + i) t r).
Proof.
  intros Hrefl Hi Hb. rewrite active_bit_slot in Hb by assumption.
  apply andb_true_iff in Hb as [Hp Hc].
  exists (block * 32 + i), t, r. split; [reflexivity|]. exists w. auto.
Qed.

Section PassFrame.

Variable core : nat.
Variable resume : nat -> World -> World * CallResult bool.
Variable traversal : gset nat -> list nat.
Hypothesis resume_frame :
  forall t w, event_state (resume t w).1 = event_state w.

Lemma dispatch_blocks_frame (n block : nat) (wake : bool) :
  comp_spec (drained_by core)
    (resumes_owned_pending core (drained_by core)) wake
    (dispatch_blocks core resume traversal n block wake).
Proof.
  apply comp_spec_dispatch_blocks.
  - apply drained_by_refl.
  - apply drained_by_trans.
  - intros t w. by apply drained_by_frame.
  - apply drained_by_drain.
  - intros w w' e. apply resumes_owned_pending_mono, drained_by_trans.
  - intros w b i t r. apply resumes_owned_pending_active, drained_by_refl.
Qed.

(** After the blocks [block .. block + n) have been processed without an
    error, none of the slots of [core] in them is pending. *)
Lemma dispatch_blocks_clears (n block : nat) (wake : bool)
    (w : World) (tr : list Event) (wake' : bool) (w' : World) (e : nat) :
  dispatch_blocks core resume traversal n block wake w = (tr, Ok wake' w') ->
  block <= e / 32 < block + n ->
  claimed_by (event_state w) core e = true ->
  is_pending (event_state w') e = false.
Proof.
  revert block wake w tr. induction n as [|n IH];
    intros block wake w tr Hrun Hrange Hown; [lia|].
  cbn [dispatch_blocks] in Hrun. unfold bind in Hrun.
  destruct (dispatch_block core resume traversal block wake w)
    as [tr1 [wake1 w1|msg w1|]] eqn:Hblock; [|discriminate|discriminate].
  destruct (dispatch_blocks core resume traversal n (S block) wake1 w1)
    as [tr2 r2] eqn:Hrest.
  injection Hrun as <- ->.
  (* the block itself *)
  pose proof (dispatch_blocks_frame 1 block wake w) as Hone.
  cbn [dispatch_blocks] in Hone.
  assert (Hw1 : drained_by core w w1).
  { specialize (Hone (tr1 ++ []) (Ok wake1 w1)).
    unfold bind in Hone. rewrite Hblock in Hone. unfold ret in Hone.
    by destruct Hone as [_ [? _]]. }
  destruct (decide (e / 32 = block)) as [Hb|Hb].
  - (* the slot is in this block: cleared by the drain, and it stays so *)
    apply not_true_iff_false. intros Hpend.
    pose proof (dispatch_blocks_frame n (S block) wake1 w1 _ _ Hrest)
      as [_ [(_ & Hsub & _) _]].
    apply Hsub in Hpend.
    unfold dispatch_block in Hblock. cbv zeta in Hblock.
    set (wd := set_event_state w _) in Hblock.
    assert (Hd : drained_by core wd w1).
    { apply (comp_spec_dispatch_active resume traversal (drained_by core)
               (drained_by_refl core) (drained_by_trans core)
               (fun t w => drained_by_frame core _ _ (resume_frame t w))
               (fun _ => True) 32 block 0) in Hblock; try done; try lia.
      by destruct Hblock as [_ [? _]]. }
    destruct Hd as (_ & Hsubd & _). apply Hsubd in Hpend.
    unfold wd in Hpend. cbn [event_state set_event_state] in Hpend.
    rewrite is_pending_drain_block, decide_True, Hown in Hpend by done.
    rewrite andb_false_r in Hpend. discriminate.
  - apply (IH (S block) wake1 w1 tr2 Hrest); [lia|].
    destruct Hw1 as (Hm & _). by rewrite (claimed_by_mask_eq _ _ _ _ Hm).
Qed.

End PassFrame.

Lemma claimed_by_out_of_range (es : EventState) (core e : nat) :
  wf_event_state es = true -> EVENTS_SIZE <= e / 32 ->
  claimed_by es core e = false.
Proof.
  intros Hwf He. destruct (wf_event_state_dims _ Hwf) as (_ & Hm & Hrows).
  apply slot_bit_out_of_range.
  destruct (decide (core < NUM_CORES)) as [Hc|Hc].
  - rewrite Hrows by assumption. exact He.
  - unfold mask_row. rewrite nth_overflow by lia. simpl. lia.
Qed.

(** C2. When the resumed threads leave the slot table alone, one pass of
    the dispatch loop on [core] resumes watchers only of slots that were
    both pending and in [core]'s mask when the pass started; a pass that
    completes leaves the masks as they were and clears from the pending
    bitmap exactly those slots' bits.  A pending slot that is not in
    [core]'s mask (one claimed by the other core) stays pending and none of
    its watchers is resumed, also when a resume call raises an error and
    cuts the pass short. *)
Theorem dispatch_pass_drains_owned_slots
    (core : nat) (resume : nat -> World -> World * CallResult bool)
    (traversal : gset nat -> list nat)
    (w : World) (tr : list Event) (r : Res bool) :
  wf_event_state (event_state w) = true ->
  (forall t w0, event_state (resume t w0).1 = event_state w0) ->
  dispatch_pass core resume traversal w = (tr, r) ->
  (forall slot t res, In (EvResume slot t res) tr ->
     is_pending (event_state w) slot = true /\
     claimed_by (event_state w) core slot = true) /\
  match r with
  | Ok _ w' =>
      mask (event_state w') = mask (event_state w) /\
      forall e,
        is_pending (event_state w') e =
        is_pending (event_state w) e && negb (claimed_by (event_state w) core e)
  | Raise _ w' =>
      mask (event_state w') = mask (event_state w) /\
      forall e, claimed_by (event_state w) core e = false ->
        is_pending (event_state w') e = is_pending (event_state w) e
  | Fuel => False
  end /\
  (forall e,
     is_pending (event_state w) e = true ->
     claimed_by (event_state w) core e = false ->
     (forall t res, ~ In (EvResume e t res) tr) /\
     match r with
     | Ok _ w' | Raise _ w' => is_pending (event_state w') e = true
     | Fuel => False
     end) /\
  (forall other e,
     exclusive_ownership (event_state w) -> other <> core ->
     claimed_by (event_state w) other e = true ->
     is_pending (event_state w) e = true ->
     (forall t res, ~ In (EvResume e t res) tr) /\
     match r with
     | Ok _ w' | Raise _ w' => is_pending (event_state w') e = true
     | Fuel => False
     end).
Proof.
  intros Hwf Hframe Hrun.
  pose proof (dispatch_blocks_frame core resume traversal Hframe
                EVENTS_SIZE 0 false w tr r Hrun) as [Htr Hr].
  assert (Hres : forall slot t res, In (EvResume slot t res) tr ->
            is_pending (event_state w) slot = true /\
            claimed_by (event_state w) core slot = true).
  { intros slot t res Hin. rewrite Forall_forall in Htr.
    apply list_elem_of_In, Htr in Hin
      as (slot' & t' & r' & [= <- <- <-] & w1 & (Hm & Hsub & _) & Hp & Hc).
    split; [by apply Hsub|]. by rewrite <- (claimed_by_mask_eq _ _ _ _ Hm). }
  split; [exact Hres|]. split.
  - destruct r as [wake' w'|msg w'|]; [| |exact Hr].
    + destruct Hr as [(Hm & Hsub & Hkeep) _]. split; [exact Hm|].
      intros e. destruct (claimed_by (event_state w) core e) eqn:Hown.
      * rewrite andb_false_r.
        destruct (decide (e / 32 < EVENTS_SIZE)) as [Hlt|Hge].
        -- apply (dispatch_blocks_clears core resume traversal Hframe
                    EVENTS_SIZE 0 false w tr wake' w' e Hrun); [lia|done].
        -- rewrite claimed_by_out_of_range in Hown by (assumption || lia).
           discriminate.
      * rewrite andb_true_r. by apply Hkeep.
    + destruct Hr as (Hm & _ & Hkeep). split; assumption.
  - assert (Hother : forall e,
              is_pending (event_state w) e = true ->
              claimed_by (event_state w) core e = false ->
              (forall t res, ~ In (EvResume e t res) tr) /\
              match r with
              | Ok _ w' | Raise _ w' => is_pending (event_state w') e = true
              | Fuel => False
              end).
    { intros e Hp Hfree. split.
      + intros t res Hin. apply Hres in Hin as [_ Hc]. congruence.
      + destruct r as [wake' w'|msg w'|]; [| |exact Hr].
        * destruct Hr as [(_ & _ & Hkeep) _]. by rewrite Hkeep.
        * destruct Hr as (_ & _ & Hkeep). by rewrite Hkeep. }
    split; [exact Hother|].
    intros other e Hexcl Hne Hown Hp. apply Hother; [exact Hp|].
    apply not_true_iff_false. intros Hmine.
    apply Hne. by apply (Hexcl other core e).
Qed.

Lemma dispatch_pass_drains_owned_slots_witness :
  let w' := set_event_state w_two_cores
              {| pending := [0; 256; 0; 0]%Z;
                 mask := [[8; 0; 0; 0]; [0; 256; 0; 0]]%Z |} in
  (forall slot t res,
     In (EvResume slot t res) [EvResume 3 1 (Returns true)] ->
     is_pending (event_state w_two_cores) slot = true /\
     claimed_by (event_state w_two_cores) 0 slot = true) /\
  (mask (event_state w') = mask (event_state w_two_cores) /\
   forall e,
     is_pending (event_state w') e =
     is_pending (event_state w_two_cores) e &&
     negb (claimed_by (event_state w_two_cores) 0 e)) /\
  (forall e,
     is_pending (event_state w_two_cores) e = true ->
     claimed_by (event_state w_two_cores) 0 e = false ->
     (forall t res, ~ In (EvResume e t res) [EvResume 3 1 (Returns true)]) /\
     is_pending (event_state w') e = true) /\
  (forall other e,
     exclusive_ownership (event_state w_two_cores) -> other <> 0 ->
     claimed_by (event_state w_two_cores) other e = true ->
     is_pending (event_state w_two_cores) e = true ->
     (forall t res, ~ In (EvResume e t res) [EvResume 3 1 (Returns true)]) /\
     is_pending (event_state w') e = true).
Proof.
  apply (dispatch_pass_drains_owned_slots 0 resume_progress elements
           w_two_cores [EvResume 3 1 (Returns true)]
           (Ok true (set_event_state w_two_cores
                       {| pending := [0; 256; 0; 0]%Z;
                          mask := [[8; 0; 0; 0]; [0; 256; 0; 0]]%Z |}))).
  - reflexivity.
  - intros t w0. reflexivity.
  - vm_compute. reflexivity.
Defined.

(** Example: the other core's pass takes the other slot. *)
Example dispatch_pass_core1 :
  dispatch_pass 1 resume_progress elements w_two_cores =
  ([EvResume 40 2 (Returns true)],
   Ok true (set_event_state w_two_cores
              {| pending := [8; 0; 0; 0]%Z;
                 mask := [[8; 0; 0; 0]; [0; 256; 0; 0]]%Z |})).
Proof. vm_compute. reflexivity. Qed.

(* ===================================================================== *)
(** ** Pending and claimed *)
(* ===================================================================== *)

(** C5, counterexample.  Core 0 claims slot 0, the slot is marked pending,
    and core 0 releases it: the table reached has slot 0 pending and
    claimed by no core. *)
Lemma unclaim_leaves_dangling_pending :
  reachable (event_state w_released0) /\
  is_pending (event_state w_released0) 0 = true /\
  is_claimed (event_state w_released0) 0 = false /\
  ~ pending_implies_claimed (event_state w_released0).
Proof.
  split; [|split; [|split]].
  - apply (reach_unclaim 0 0 w_fired0); [unfold NUM_CORES; lia|].
    apply (reach_set 0 (world_of es_claimed0)).
    apply (reach_claim 0 MLUA_EVENT_UNSET event_state_init);
      [unfold NUM_CORES; lia | apply reach_init].
  - vm_compute. reflexivity.
  - vm_compute. reflexivity.
  - intros H. specialize (H 0). vm_compute in H.
    specialize (H eq_refl). discriminate.
Qed.

Lemma claim_failure_unchanged (core : nat) (es : EventState) (ev : MLuaEvent) :
  (mlua_event_claim core es ev).2 <> None ->
  (mlua_event_claim core es ev).1.1 = es.
Proof.
  unfold mlua_event_claim. destruct (ev <? NUM_EVENTS); [reflexivity|].
  destruct (claim_scan EVENTS_SIZE 0 core es) as [[e es']|]; [|reflexivity].
  simpl. congruence.
Qed.

Lemma claim_success_unset (core : nat) (es : EventState) (ev : MLuaEvent) :
  (mlua_event_claim core es ev).2 = None -> NUM_EVENTS <= ev.
Proof.
  unfold mlua_event_claim.
  destruct (Nat.ltb_spec ev NUM_EVENTS); [discriminate | intros _; lia].
Qed.

Lemma disciplined_step_claim (core : nat) (ev : MLuaEvent) (es : EventState) :
  core < NUM_CORES ->
  wf_event_state es = true /\ pending_implies_claimed es ->
  wf_event_state (mlua_event_claim core es ev).1.1 = true /\
  pending_implies_claimed (mlua_event_claim core es ev).1.1.
Proof.
  intros Hcore [Hwf Hinv].
  destruct (mlua_event_claim core es ev) as [[es' e'] err] eqn:Hclaim.
  destruct err as [msg|].
  - pose proof (claim_failure_unchanged core es ev) as H.
    rewrite Hclaim in H. simpl in *. rewrite H by discriminate. auto.
  - pose proof (claim_success_unset core es ev) as Hev.
    rewrite Hclaim in Hev. specialize (Hev eq_refl).
    destruct (claim_success _ _ _ _ _ Hwf Hcore Hev Hclaim)
      as (_ & _ & _ & Hp & Hwf' & Hcl).
    simpl. split; [assumption|]. intros e He.
    unfold is_pending in He. rewrite Hp in He.
    apply Hinv, is_claimed_true in He as (c & Hc & Hb).
    apply is_claimed_true. exists c. split; [assumption|].
    rewrite Hcl. by case_decide.
Qed.

Lemma disciplined_step_unclaim (core : nat) (ev : MLuaEvent) (w : World) :
  core < NUM_CORES ->
  is_pending (event_state w) ev = false ->
  wf_event_state (event_state w) = true /\
  pending_implies_claimed (event_state w) ->
  wf_event_state (event_state (mlua_event_unclaim core w ev).1) = true /\
  pending_implies_claimed (event_state (mlua_event_unclaim core w ev).1).
Proof.
  intros Hcore Hnp [Hwf Hinv].
  destruct (claimed_by (event_state w) core ev) eqn:Hown.
  - assert (Hev : ev < NUM_EVENTS).
    { destruct (decide (ev < NUM_EVENTS)) as [H|H]; [assumption|].
      rewrite claimed_by_out_of_range in Hown; [discriminate|assumption|].
      destruct (decide (EVENTS_SIZE <= ev / 32)) as [|Hlt]; [assumption|].
      exfalso. apply H, slot_block_lt. lia. }
    rewrite unclaim_owned by assumption. cbn [fst event_state set_watchers
      set_event_state].
    split.
    + apply wf_set_mask_at; [assumption|].
      apply word32_land_l. by apply wf_mask_word32.
    + intros e He. change (is_pending (event_state w) e = true) in He.
      destruct (decide (e = ev)) as [->|Hne]; [congruence|].
      apply Hinv, is_claimed_true in He as (c & Hc & Hb).
      apply is_claimed_true. exists c. split; [assumption|].
      rewrite claimed_by_clear_bit by assumption.
      case_decide as Hd; [tauto | assumption].
  - rewrite unclaim_not_owned by assumption. auto.
Qed.

Lemma disciplined_step_set (ev : MLuaEvent) (w : World) :
  (ev < NUM_EVENTS -> is_claimed (event_state w) ev = true) ->
  wf_event_state (event_state w) = true /\
  pending_implies_claimed (event_state w) ->
  wf_event_state (event_state (mlua_event_set w ev)) = true /\
  pending_implies_claimed (event_state (mlua_event_set w ev)).
Proof.
  intros Hguard [Hwf Hinv].
  destruct (decide (ev < NUM_EVENTS)) as [Hev|Hev].
  - rewrite event_set_enabled by assumption.
    cbn [event_state set_sev_count set_event_state].
    destruct (slot_coords ev) as [_ Hm]. split.
    + apply wf_set_pending_at; [assumption|].
      apply word32_lor; [by apply wf_pending_word32 | by apply word32_bit].
    + intros e He. rewrite is_pending_set in He by assumption.
      rewrite (is_claimed_mask_eq (event_state w)) by reflexivity.
      case_decide as Hd; [subst; by apply Hguard | by apply Hinv].
  - rewrite event_set_disabled by lia. auto.
Qed.

Lemma disciplined_step_clear (ev : MLuaEvent) (w : World) :
  wf_event_state (event_state w) = true /\
  pending_implies_claimed (event_state w) ->
  wf_event_state (event_state (mlua_event_clear w ev)) = true /\
  pending_implies_claimed (event_state (mlua_event_clear w ev)).
Proof.
  intros [Hwf Hinv].
  destruct (decide (ev < NUM_EVENTS)) as [Hev|Hev].
  - split.
    + rewrite event_clear_enabled by assumption.
      cbn [event_state set_event_state].
      apply wf_set_pending_at; [assumption|].
      apply word32_land_l. by apply wf_pending_word32.
    + intros e He. rewrite is_pending_event_clear in He by assumption.
      rewrite (is_claimed_mask_eq (event_state w))
        by (rewrite event_clear_enabled by assumption; reflexivity).
      case_decide; [discriminate | by apply Hinv].
  - rewrite event_clear_disabled by lia. auto.
Qed.

Lemma disciplined_step_drain (core block : nat) (es : EventState) :
  wf_event_state es = true /\ pending_implies_claimed es ->
  wf_event_state (drain_block core block es) = true /\
  pending_implies_claimed (drain_block core block es).
Proof.
  intros [Hwf Hinv]. split.
  - apply wf_set_pending_at; [assumption|].
    apply word32_land_l. by apply wf_pending_word32.
  - intros e He. rewrite is_pending_drain_block in He.
    rewrite (is_claimed_mask_eq es) by reflexivity. apply Hinv.
    case_decide; [by apply andb_true_iff in He as [? _] | assumption].
Qed.

Lemma reachable_disciplined_invariant (es : EventState) :
  reachable_disciplined es ->
  wf_event_state es = true /\ pending_implies_claimed es.
Proof.
  induction 1 as [|core ev es Hcore _ IH|core ev w Hcore _ IH Hnp
                  |ev w _ IH Hguard|ev w _ IH|core block es Hcore _ IH].
  - split; [reflexivity|]. intros e He.
    unfold is_pending, slot_bit, word_at, event_state_init in He.
    cbn [pending] in He. rewrite nth_lookup in He.
    destruct (replicate EVENTS_SIZE 0%Z !! (e / 32)) as [x|] eqn:Hx.
    + apply lookup_replicate in Hx as [-> _].
      cbn [default] in He. rewrite Z.testbit_0_l in He. discriminate.
    + cbn [default] in He. rewrite Z.testbit_0_l in He. discriminate.
  - by apply disciplined_step_claim.
  - by apply disciplined_step_unclaim.
  - by apply disciplined_step_set.
  - by apply disciplined_step_clear.
  - by apply disciplined_step_drain.
Qed.

(** A whole dispatch pass stays among the reachable tables when the
    threads it resumes do. *)
Lemma dispatch_pass_reachable_disciplined
    (core : nat) (resume : nat -> World -> World * CallResult bool)
    (traversal : gset nat -> list nat)
    (w : World) (tr : list Event) (r : Res bool) :
  core < NUM_CORES ->
  (forall t w0, reachable_disciplined (event_state w0) ->
                reachable_disciplined (event_state (resume t w0).1)) ->
  reachable_disciplined (event_state w) ->
  dispatch_pass core resume traversal w = (tr, r) ->
  match r with
  | Ok _ w' | Raise _ w' => reachable_disciplined (event_state w')
  | Fuel => False
  end.
Proof.
  intros Hcore Hresume Hw Hrun.
  apply (comp_spec_dispatch_pass core resume traversal
           (fun w1 w2 => reachable_disciplined (event_state w1) ->
                         reachable_disciplined (event_state w2))
           (fun _ H => H) (fun _ _ _ H12 H23 H1 => H23 (H12 H1))
           Hresume
           (fun block w1 H => reach_d_drain core block _ Hcore H)
           (fun _ _ => True) (fun _ _ _ _ _ => I)
           (fun _ _ _ _ _ _ _ => I)) in Hrun.
  destruct Hrun as [_ Hr].
  destruct r as [wake w'|msg w'|]; [|by apply Hr|exact Hr].
  destruct Hr as [Hr _]. by apply Hr.
Qed.

(** C5, as the code has it.  In every state reachable by claim, unclaim,
    set, clear and dispatch operations in which a slot is marked pending
    only while it is claimed and is released only while it is not pending,
    every pending slot is claimed by some core; a dispatch pass whose
    resumed threads keep to the same discipline ends in such a state
    again. *)
Theorem pending_implies_claimed_under_discipline (es : EventState) :
  reachable_disciplined es ->
  pending_implies_claimed es /\
  forall core resume traversal (w : World) tr r,
    event_state w = es -> core < NUM_CORES ->
    (forall t w0, reachable_disciplined (event_state w0) ->
                  reachable_disciplined (event_state (resume t w0).1)) ->
    dispatch_pass core resume traversal w = (tr, r) ->
    match r with
    | Ok _ w' | Raise _ w' =>
        reachable_disciplined (event_state w') /\
        pending_implies_claimed (event_state w')
    | Fuel => False
    end.
Proof.
  intros Hreach. split; [by apply reachable_disciplined_invariant|].
  intros core resume traversal w tr r <- Hcore Hresume Hrun.
  pose proof (dispatch_pass_reachable_disciplined _ _ _ _ _ _
                Hcore Hresume Hreach Hrun) as Hr.
  destruct r as [wake w'|msg w'|]; [| |exact Hr];
    (split; [exact Hr | by apply reachable_disciplined_invariant]).
Qed.

Lemma pending_implies_claimed_under_discipline_witness :
  pending_implies_claimed (event_state w_fired0) /\
  is_pending (event_state w_fired0) 0 = true /\
  is_claimed (event_state w_fired0) 0 = true.
Proof.
  split; [|split; vm_compute; reflexivity].
  apply (pending_implies_claimed_under_discipline (event_state w_fired0)).
  apply (reach_d_set 0 (world_of es_claimed0)).
  - apply (reach_d_claim 0 MLUA_EVENT_UNSET event_state_init).
    + unfold NUM_CORES. lia.
    + apply reach_d_init.
  - intros _. vm_compute. reflexivity.
Defined.

(* ===================================================================== *)
(** ** Ownership is exclusive *)
(* ===================================================================== *)

Lemma claimed_by_in_range (es : EventState) (core e : nat) :
  wf_event_state es = true -> claimed_by es core e = true ->
  core < NUM_CORES /\ e < NUM_EVENTS.
Proof.
  intros Hwf Hown. destruct (wf_event_state_dims _ Hwf) as (_ & Hm & _).
  split.
  - destruct (decide (core < NUM_CORES)) as [|Hge]; [assumption|].
    unfold claimed_by, mask_row in Hown.
    rewrite nth_overflow in Hown by lia.
    rewrite slot_bit_out_of_range in Hown by (simpl; lia). discriminate.
  - apply slot_block_lt.
    destruct (decide (e / 32 < EVENTS_SIZE)) as [|Hge]; [assumption|].
    rewrite claimed_by_out_of_range in Hown by (assumption || lia).
    discriminate.
Qed.

Lemma claimed_by_init (core e : nat) :
  claimed_by event_state_init core e = false.
Proof.
  unfold claimed_by, mask_row, event_state_init, slot_bit, word_at.
  cbn [mask]. rewrite !nth_lookup.
  destruct (replicate NUM_CORES (replicate EVENTS_SIZE 0%Z) !! core)
    as [row|] eqn:Hrow; cbn [default from_option id].
  - apply lookup_replicate in Hrow as [Hrow _]. subst row.
    destruct (replicate EVENTS_SIZE 0%Z !! (e / 32)) as [x|] eqn:Hx;
      cbn [default from_option id].
    + apply lookup_replicate in Hx as [Hx _]. subst x. apply Z.testbit_0_l.
    + apply Z.testbit_0_l.
  - rewrite lookup_nil. apply Z.testbit_0_l.
Qed.

Lemma exclusive_ownership_mask_eq (es es' : EventState) :
  mask es' = mask es -> exclusive_ownership es -> exclusive_ownership es'.
Proof.
  intros Hm Hex c c' e. rewrite !(claimed_by_mask_eq _ _ _ _ Hm). apply Hex.
Qed.

(** X5. In every slot table reachable by claim, unclaim, set, clear and
    dispatch operations the arrays have their dimensions and hold 32-bit
    values, and no slot is in the masks of two cores: ownership of a slot
    is exclusive. *)
Lemma reachable_exclusive (es : EventState) :
  reachable es -> wf_event_state es = true /\ exclusive_ownership es.
Proof.
  induction 1 as [|core ev es Hcore _ [Hwf Hex]|core ev w Hcore _ [Hwf Hex]
                  |ev w _ [Hwf Hex]|ev w _ [Hwf Hex]
                  |core block es Hcore _ [Hwf Hex]].
  - split; [reflexivity|]. intros c c' e Hc _.
    rewrite claimed_by_init in Hc. discriminate.
  - destruct (mlua_event_claim core es ev) as [[es' e'] err] eqn:Hclaim.
    destruct err as [msg|].
    + pose proof (claim_failure_unchanged core es ev) as H.
      rewrite Hclaim in H. simpl in *. rewrite H by discriminate. auto.
    + pose proof (claim_success_unset core es ev) as Hev.
      rewrite Hclaim in Hev. specialize (Hev eq_refl).
      destruct (claim_success _ _ _ _ _ Hwf Hcore Hev Hclaim)
        as (_ & Hfree & _ & _ & Hwf' & Hcl).
      simpl. split; [assumption|]. intros c c' e. rewrite !Hcl.
      rewrite is_claimed_false in Hfree.
      repeat case_decide; intros H1 H2.
      * destruct_and!. congruence.
      * destruct_and!. subst.
        destruct (claimed_by_in_range _ _ _ Hwf H2) as [Hc' _].
        rewrite Hfree in H2 by assumption. discriminate.
      * destruct_and!. subst.
        destruct (claimed_by_in_range _ _ _ Hwf H1) as [Hc' _].
        rewrite Hfree in H1 by assumption. discriminate.
      * by apply (Hex c c' e).
  - destruct (claimed_by (event_state w) core ev) eqn:Hown.
    + destruct (claimed_by_in_range _ _ _ Hwf Hown) as [_ Hev].
      rewrite unclaim_owned by assumption.
      cbn [fst event_state set_watchers set_event_state]. split.
      * apply wf_set_mask_at; [assumption|].
        apply word32_land_l. by apply wf_mask_word32.
      * intros c c' e. rewrite !claimed_by_clear_bit by assumption.
        repeat case_decide; try discriminate. apply Hex.
    + rewrite unclaim_not_owned by assumption. auto.
  - destruct (decide (ev < NUM_EVENTS)) as [Hev|Hev].
    + rewrite event_set_enabled by assumption.
      cbn [event_state set_sev_count set_event_state].
      destruct (slot_coords ev) as [_ Hm]. split.
      * apply wf_set_pending_at; [assumption|].
        apply word32_lor; [by apply wf_pending_word32 | by apply word32_bit].
      * by apply (exclusive_ownership_mask_eq (event_state w)).
    + rewrite event_set_disabled by lia. auto.
  - destruct (decide (ev < NUM_EVENTS)) as [Hev|Hev].
    + rewrite event_clear_enabled by assumption.
      cbn [event_state set_event_state]. split.
      * apply wf_set_pending_at; [assumption|].
        apply word32_land_l. by apply wf_pending_word32.
      * by apply (exclusive_ownership_mask_eq (event_state w)).
    + rewrite event_clear_disabled by lia. auto.
  - split.
    + apply wf_set_pending_at; [assumption|].
      apply word32_land_l. by apply wf_pending_word32.
    + by apply (exclusive_ownership_mask_eq es).
Qed.

(* ===================================================================== *)
(** ** More on the slot table *)
(* ===================================================================== *)

(** X1. [mlua_event_clear] with a handle that is not a valid id returns the
    world as it is; with a valid id it clears that slot's pending bit and
    no other, issues no wake signal, and leaves the masks and the watcher
    registry alone. *)
Theorem event_clear_one_bit (w : World) (ev : MLuaEvent) :
  wf_event_state (event_state w) = true ->
  (NUM_EVENTS <= ev -> mlua_event_clear w ev = w) /\
  (ev < NUM_EVENTS ->
   let w' := mlua_event_clear w ev in
   (forall e,
      is_pending (event_state w') e =
      if decide (e = ev) then false else is_pending (event_state w) e) /\
   mask (event_state w') = mask (event_state w) /\
   watchers w' = watchers w /\ tables w' = tables w /\
   sev_count w' = sev_count w /\
   wf_event_state (event_state w') = true).
Proof.
  intros Hwf. split; [apply event_clear_disabled|].
  intros Hev. cbv zeta.
  split; [intros e; by apply is_pending_event_clear|].
  rewrite event_clear_enabled by assumption.
  cbn [event_state set_event_state watchers tables sev_count mask
       set_pending_at].
  repeat (split; [reflexivity|]).
  apply wf_set_pending_at; [assumption|].
  apply word32_land_l. by apply wf_pending_word32.
Qed.

Lemma event_clear_one_bit_witness :
  mlua_event_clear w_slot3_pending MLUA_EVENT_UNSET = w_slot3_pending /\
  is_pending (event_state (mlua_event_clear w_slot3_pending 3)) 3 = false /\
  sev_count (mlua_event_clear w_slot3_pending 3) = sev_count w_slot3_pending.
Proof.
  destruct (event_clear_one_bit w_slot3_pending MLUA_EVENT_UNSET)
    as [Hnoop _]; [reflexivity|].
  destruct (event_clear_one_bit w_slot3_pending 3) as [_ Hclr];
    [reflexivity|].
  split; [apply Hnoop; unfold NUM_EVENTS, MLUA_EVENT_UNSET; lia|].
  assert (H3 : 3 < NUM_EVENTS) by (unfold NUM_EVENTS; lia).
  destruct (Hclr H3) as (Hbit & _ & _ & _ & Hsev & _).
  split; [rewrite Hbit; reflexivity | exact Hsev].
Defined.

Lemma is_pending_event_set (w : World) (ev e : MLuaEvent) :
  wf_event_state (event_state w) = true -> ev < NUM_EVENTS ->
  is_pending (event_state (mlua_event_set w ev)) e =
  if decide (e = ev) then true else is_pending (event_state w) e.
Proof.
  intros Hwf Hev. rewrite event_set_enabled by assumption.
  cbn [event_state set_sev_count set_event_state]. by apply is_pending_set.
Qed.

Lemma wf_event_set (w : World) (ev : MLuaEvent) :
  wf_event_state (event_state w) = true ->
  wf_event_state (event_state (mlua_event_set w ev)) = true.
Proof.
  intros Hwf. destruct (decide (ev < NUM_EVENTS)) as [Hev|Hev].
  - rewrite event_set_enabled by assumption.
    cbn [event_state set_sev_count set_event_state].
    destruct (slot_coords ev) as [_ Hm].
    apply wf_set_pending_at; [assumption|].
    apply word32_lor; [by apply wf_pending_word32 | by apply word32_bit].
  - by rewrite event_set_disabled by lia.
Qed.

Lemma wf_event_clear (w : World) (ev : MLuaEvent) :
  wf_event_state (event_state w) = true ->
  wf_event_state (event_state (mlua_event_clear w ev)) = true.
Proof.
  intros Hwf. destruct (decide (ev < NUM_EVENTS)) as [Hev|Hev].
  - rewrite event_clear_enabled by assumption.
    cbn [event_state set_event_state].
    apply wf_set_pending_at; [assumption|].
    apply word32_land_l. by apply wf_pending_word32.
  - by rewrite event_clear_disabled by lia.
Qed.

(** X2. Pending is a flag, not a count: setting an event that is already
    pending leaves the slot table exactly as it is (only the wake signal
    is issued again), a clear after any number of sets leaves the slot not
    pending, and a set after a clear leaves it pending; no other slot is
    affected by either order. *)
Theorem event_set_coalesces (w : World) (ev : MLuaEvent) :
  wf_event_state (event_state w) = true -> ev < NUM_EVENTS ->
  event_state (mlua_event_set (mlua_event_set w ev) ev) =
    event_state (mlua_event_set w ev) /\
  sev_count (mlua_event_set (mlua_event_set w ev) ev) =
    S (S (sev_count w)) /\
  (forall e,
     is_pending
       (event_state (mlua_event_clear
                       (mlua_event_set (mlua_event_set w ev) ev) ev)) e =
     if decide (e = ev) then false else is_pending (event_state w) e) /\
  (forall e,
     is_pending (event_state (mlua_event_set (mlua_event_clear w ev) ev)) e =
     if decide (e = ev) then true else is_pending (event_state w) e).
Proof.
  intros Hwf Hev.
  pose proof (wf_event_set w ev Hwf) as Hwf1.
  pose proof (wf_event_set _ ev Hwf1) as Hwf2.
  pose proof (wf_event_clear w ev Hwf) as Hwfc.
  split; [|split; [|split]].
  - rewrite (event_set_enabled (mlua_event_set w ev)) by assumption.
    rewrite event_set_enabled by assumption.
    cbn [event_state set_sev_count set_event_state].
    destruct (wf_event_state_dims _ Hwf) as (Hp & _).
    assert (Hb : ev / 32 < length (pending (event_state w)))
      by (rewrite Hp; by apply slot_block_lt).
    unfold set_pending_at, pending_at. cbn [pending mask].
    rewrite word_at_insert, decide_True by done.
    rewrite list_insert_insert_eq, <- Z.lor_assoc, Z.lor_diag. reflexivity.
  - rewrite (event_set_enabled (mlua_event_set w ev)) by assumption.
    rewrite event_set_enabled by assumption. reflexivity.
  - intros e. rewrite is_pending_event_clear by assumption.
    case_decide; [reflexivity|].
    rewrite !is_pending_event_set by assumption.
    by rewrite !decide_False by assumption.
  - intros e. rewrite is_pending_event_set by assumption.
    case_decide; [reflexivity|].
    rewrite is_pending_event_clear by assumption.
    by rewrite decide_False by assumption.
Qed.

Lemma event_set_coalesces_witness :
  event_state (mlua_event_set (mlua_event_set w_slot3_idle 3) 3) =
    event_state (mlua_event_set w_slot3_idle 3) /\
  sev_count (mlua_event_set (mlua_event_set w_slot3_idle 3) 3) = 2.
Proof.
  destruct (event_set_coalesces w_slot3_idle 3) as (H1 & H2 & _).
  - reflexivity.
  - unfold NUM_EVENTS. lia.
  - split; [exact H1 | exact H2].
Defined.

Lemma reachable_exclusive_witness :
  wf_event_state (event_state w_released0) = true /\
  exclusive_ownership (event_state w_released0).
Proof.
  apply (reachable_exclusive (event_state w_released0)).
  apply (reach_unclaim 0 0 w_fired0); [unfold NUM_CORES; lia|].
  apply (reach_set 0 (world_of es_claimed0)).
  apply (reach_claim 0 MLUA_EVENT_UNSET event_state_init);
    [unfold NUM_CORES; lia | apply reach_init].
Defined.

Lemma testbit_not32_high (x n : Z) :
  (32 <= n)%Z -> Z.testbit (not32 x) n = false.
Proof.
  intros Hn. unfold not32, UINT32_MAX.
  change 0xFFFFFFFF%Z with (Z.ones 32).
  rewrite Z.land_spec, Z.ones_spec_high by lia. apply andb_false_r.
Qed.

(** Setting a clear bit and clearing it again gives the word back. *)
Lemma set_then_clear_bit (m : Z) (i : nat) :
  word32 m = true -> i < 32 -> Z.testbit m (Z.of_nat i) = false ->
  Z.land (Z.lor m (bit i)) (not32 (bit i)) = m.
Proof.
  intros Hm Hi Hb. apply Z.bits_inj'. intros n Hn. rewrite Z.land_spec.
  destruct (Z.lt_ge_cases n 32) as [Hlt|Hge].
  - rewrite <- (Z2Nat.id n) by assumption.
    rewrite Z.lor_spec, testbit_not32, testbit_bit by lia.
    case_bool_decide as Heq.
    + rewrite <- Heq, Hb. reflexivity.
    + by rewrite orb_false_r, andb_true_r.
  - rewrite testbit_not32_high, andb_false_r by assumption.
    symmetry. by apply word32_high_bits.
Qed.

Lemma lookup_nth {A} (l : list A) (i : nat) (d : A) :
  i < length l -> l !! i = Some (nth i l d).
Proof.
  intros Hi. destruct (lookup_lt_is_Some_2 l i Hi) as [x Hx].
  rewrite Hx. f_equal. symmetry. by apply nth_lookup_Some.
Qed.

Lemma set_mask_at_restore (es : EventState) (core block : nat) (v : Z) :
  core < length (mask es) -> block < length (mask_row es core) ->
  set_mask_at (set_mask_at es core block v) core block (mask_at es core block)
  = es.
Proof.
  intros Hc Hb. destruct es as [p m]. unfold set_mask_at, mask_at, mask_row.
  cbn [pending mask] in *. f_equal.
  rewrite row_insert, decide_True by done.
  rewrite !list_insert_insert_eq.
  apply list_insert_id. rewrite (lookup_nth m core []) by exact Hc.
  f_equal. symmetry. apply list_insert_id. unfold word_at.
  by apply lookup_nth.
Qed.

(** X3. Claim followed by unclaim on the same core is a round trip: the
    slot table is exactly the one before the claim, the handle is unset
    again, and the only trace left is that the slot's registry entry has
    been removed. *)
Theorem claim_then_unclaim_restores
    (core : nat) (w : World) (ev e : MLuaEvent) (es' : EventState) :
  wf_event_state (event_state w) = true -> core < NUM_CORES ->
  NUM_EVENTS <= ev ->
  mlua_event_claim core (event_state w) ev = (es', e, None) ->
  let w2 := (mlua_event_unclaim core (set_event_state w es') e).1 in
  event_state w2 = event_state w /\
  (mlua_event_unclaim core (set_event_state w es') e).2 = MLUA_EVENT_UNSET /\
  watchers w2 = delete e (watchers w) /\
  tables w2 = tables w.
Proof.
  intros Hwf Hcore Hev Hclaim.
  destruct (claim_success _ _ _ _ _ Hwf Hcore Hev Hclaim)
    as (He & Hfree & _ & _ & Hwf' & Hcl).
  rewrite claim_unset_handle in Hclaim by assumption.
  pose proof (claim_scan_spec EVENTS_SIZE 0 core (event_state w)) as Hscan.
  destruct (claim_scan EVENTS_SIZE 0 core (event_state w)) as [[e0 es0]|];
    [|discriminate].
  injection Hclaim as <- <-. destruct Hscan as (_ & _ & _ & Hes).
  assert (Hown : claimed_by es0 core e0 = true)
    by (rewrite Hcl; by rewrite decide_True).
  cbv zeta. rewrite unclaim_owned by assumption.
  cbn [fst snd event_state set_watchers set_event_state watchers tables].
  split; [|by repeat split].
  destruct (wf_event_state_dims _ Hwf) as (_ & Hm & Hrows).
  destruct (slot_coords e0) as [_ Hmod].
  assert (Hblock : e0 / 32 < EVENTS_SIZE) by (by apply slot_block_lt).
  rewrite Hes at 2.
  rewrite mask_at_set_mask_at, decide_True by (rewrite ?Hrows; done || lia).
  rewrite set_then_clear_bit.
  - rewrite Hes. apply set_mask_at_restore; rewrite ?Hrows; lia.
  - by apply wf_mask_word32.
  - assumption.
  - rewrite is_claimed_false in Hfree. by apply (Hfree core).
Qed.

Lemma claim_then_unclaim_restores_witness :
  let es1 := {| pending := [0; 0; 0; 0]%Z;
                mask := [[1; 0; 0; 0]; [0; 0; 0; 0]]%Z |} in
  event_state
    (mlua_event_unclaim 0 (set_event_state (world_of event_state_init) es1)
       0).1 = event_state_init /\
  (mlua_event_unclaim 0 (set_event_state (world_of event_state_init) es1)
     0).2 = MLUA_EVENT_UNSET.
Proof.
  destruct (claim_then_unclaim_restores 0 (world_of event_state_init)
              MLUA_EVENT_UNSET 0
              {| pending := [0; 0; 0; 0]%Z;
                 mask := [[1; 0; 0; 0]; [0; 0; 0; 0]]%Z |})
    as (H1 & H2 & _).
  - reflexivity.
  - unfold NUM_CORES. lia.
  - unfold NUM_EVENTS, MLUA_EVENT_UNSET. lia.
  - vm_compute. reflexivity.
  - split; [exact H1 | exact H2].
Defined.

(** X4. A handle that holds a slot cannot be claimed again: after a
    successful claim, another claim through the same handle, from any
    core, returns "event already claimed" and changes neither the table
    nor the handle. *)
Theorem claim_again_rejected
    (core core2 : nat) (es es' : EventState) (ev e : MLuaEvent) :
  wf_event_state es = true -> core < NUM_CORES -> NUM_EVENTS <= ev ->
  mlua_event_claim core es ev = (es', e, None) ->
  mlua_event_claim core2 es' e =
  (es', e, Some "event already claimed"%string).
Proof.
  intros Hwf Hcore Hev Hclaim.
  destruct (claim_success _ _ _ _ _ Hwf Hcore Hev Hclaim) as (He & _).
  unfold mlua_event_claim.
  destruct (Nat.ltb_spec e NUM_EVENTS); [reflexivity | lia].
Qed.

Lemma claim_again_rejected_witness :
  mlua_event_claim 1 es_claimed0 0 =
  (es_claimed0, 0, Some "event already claimed"%string).
Proof.
  apply (claim_again_rejected 0 1 event_state_init es_claimed0
           MLUA_EVENT_UNSET 0).
  - reflexivity.
  - unfold NUM_CORES. lia.
  - unfold NUM_EVENTS, MLUA_EVENT_UNSET. lia.
  - vm_compute. reflexivity.
Defined.

(** X6. Unclaim is idempotent: after [mlua_event_unclaim], calling it
    again, with the handle it left or with a stale copy of the old handle,
    changes nothing. *)
Theorem unclaim_idempotent (core : nat) (w : World) (ev : MLuaEvent) :
  wf_event_state (event_state w) = true -> core < NUM_CORES ->
  let w1 := (mlua_event_unclaim core w ev).1 in
  let ev1 := (mlua_event_unclaim core w ev).2 in
  mlua_event_unclaim core w1 ev1 = (w1, ev1) /\
  mlua_event_unclaim core w1 ev = (w1, ev).
Proof.
  intros Hwf Hcore. cbv zeta.
  destruct (claimed_by (event_state w) core ev) eqn:Hown.
  - destruct (claimed_by_in_range _ _ _ Hwf Hown) as [_ Hev].
    rewrite (unclaim_owned core w ev Hwf Hev Hown). cbn [fst snd]. split.
    + unfold mlua_event_unclaim.
      destruct (Nat.leb_spec NUM_EVENTS MLUA_EVENT_UNSET) as [|Hlt];
        [reflexivity|].
      unfold NUM_EVENTS, MLUA_EVENT_UNSET in Hlt. lia.
    + apply unclaim_not_owned.
      * cbn [event_state set_watchers set_event_state].
        apply wf_set_mask_at; [assumption|].
        apply word32_land_l. by apply wf_mask_word32.
      * cbn [event_state set_watchers set_event_state].
        rewrite claimed_by_clear_bit by assumption.
        by rewrite decide_True.
  - rewrite (unclaim_not_owned core w ev Hwf Hown). cbn [fst snd].
    split; by apply unclaim_not_owned.
Qed.

Lemma unclaim_idempotent_witness :
  let w1 := (mlua_event_unclaim 0 w_slot3_pending 3).1 in
  mlua_event_unclaim 0 w1 MLUA_EVENT_UNSET = (w1, MLUA_EVENT_UNSET) /\
  mlua_event_unclaim 0 w1 3 = (w1, 3).
Proof.
  apply (unclaim_idempotent 0 w_slot3_pending 3).
  - reflexivity.
  - unfold NUM_CORES. lia.
Defined.

(** X7. Two successive claims never hand out the same slot: the second
    claim, from whichever core, returns a slot with a higher number than
    the first. *)
Theorem successive_claims_distinct
    (c1 c2 : nat) (es es1 es2 : EventState) (ev1 ev2 e1 e2 : MLuaEvent) :
  wf_event_state es = true -> c1 < NUM_CORES -> c2 < NUM_CORES ->
  NUM_EVENTS <= ev1 -> NUM_EVENTS <= ev2 ->
  mlua_event_claim c1 es ev1 = (es1, e1, None) ->
  mlua_event_claim c2 es1 ev2 = (es2, e2, None) ->
  e1 < e2.
Proof.
  intros Hwf Hc1 Hc2 Hev1 Hev2 Hclaim1 Hclaim2.
  destruct (claim_success _ _ _ _ _ Hwf Hc1 Hev1 Hclaim1)
    as (He1 & _ & Hlow1 & _ & Hwf1 & Hcl1).
  destruct (claim_success _ _ _ _ _ Hwf1 Hc2 Hev2 Hclaim2)
    as (He2 & Hfree2 & _).
  rewrite is_claimed_false in Hfree2.
  destruct (Nat.lt_trichotomy e1 e2) as [Hlt|[Heq|Hgt]]; [assumption| |].
  - subst e2. specialize (Hfree2 c1 Hc1). rewrite Hcl1 in Hfree2.
    by rewrite decide_True in Hfree2.
  - apply Hlow1, is_claimed_true in Hgt as (c & Hc & Hb).
    specialize (Hfree2 c Hc). rewrite Hcl1 in Hfree2.
    case_decide; [discriminate | congruence].
Qed.

Lemma successive_claims_distinct_witness : 0 < 1.
Proof.
  apply (successive_claims_distinct 0 1 event_state_init es_claimed0
           {| pending := [0; 0; 0; 0]%Z;
              mask := [[1; 0; 0; 0]; [2; 0; 0; 0]]%Z |}
           MLUA_EVENT_UNSET MLUA_EVENT_UNSET 0 1).
  - reflexivity.
  - unfold NUM_CORES. lia.
  - unfold NUM_CORES. lia.
  - unfold NUM_EVENTS, MLUA_EVENT_UNSET. lia.
  - unfold NUM_EVENTS, MLUA_EVENT_UNSET. lia.
  - vm_compute. reflexivity.
  - vm_compute. reflexivity.
Defined.

(* ===================================================================== *)
(** ** Enabling and disabling an interrupt-driven event *)
(* ===================================================================== *)

Lemma claim_failure_handle (core : nat) (es : EventState) (ev : MLuaEvent) :
  (mlua_event_claim core es ev).2 <> None ->
  (mlua_event_claim core es ev).1.2 = ev.
Proof.
  unfold mlua_event_claim. destruct (ev <? NUM_EVENTS); [reflexivity|].
  destruct (claim_scan EVENTS_SIZE 0 core es) as [[e es']|]; [|reflexivity].
  simpl. congruence.
Qed.

(** X8. When [mlua_event_enable_irq] does not succeed (the argument is not
    an integer, the handle already holds a slot, or no slot is free) it
    makes no call into the interrupt interface and leaves the world and the
    handle as they were; in particular enabling an event that is already
    enabled reports "event already claimed" and does not install the
    handler a second time. *)
Theorem enable_irq_failure_installs_nothing
    (core : nat) (w : World) (ev : MLuaEvent) (irq handler : nat)
    (arg : IrqArg) (priority : Z) :
  (forall w' ev' calls r,
     mlua_event_enable_irq core w ev irq handler arg priority =
     (w', ev', calls, r) ->
     r <> Returns None -> w' = w /\ ev' = ev /\ calls = []) /\
  (ev < NUM_EVENTS -> arg <> ArgBoolean false -> arg <> ArgOther ->
   mlua_event_enable_irq core w ev irq handler arg priority =
   (w, ev, [], Returns (Some "event already claimed"%string))).
Proof.
  split.
  - intros w' ev' calls r Hrun Hr. unfold mlua_event_enable_irq in Hrun.
    destruct (mlua_event_enable_irq_arg arg priority) as [[[|] p]|msg].
    + pose proof (claim_failure_unchanged core (event_state w) ev) as Hes.
      pose proof (claim_failure_handle core (event_state w) ev) as Hev.
      destruct (mlua_event_claim core (event_state w) ev)
        as [[es' e'] [err|]]; injection Hrun as <- <- <- <-.
      * cbn [fst snd] in Hes, Hev.
        rewrite Hes, Hev by discriminate.
        by rewrite set_event_state_same.
      * congruence.
    + destruct (mlua_event_unclaim core w ev) as [w1 ev1].
      injection Hrun as <- <- <- <-. congruence.
    + by injection Hrun as <- <- <- <-.
  - intros Hev Hoff Hother. unfold mlua_event_enable_irq.
    assert (Harg : exists p, mlua_event_enable_irq_arg arg priority =
                             Returns (true, p)).
    { destruct arg as [| |[|]|n|]; simpl; eauto; congruence. }
    destruct Harg as [p ->]. unfold mlua_event_claim.
    destruct (Nat.ltb_spec ev NUM_EVENTS); [|lia].
    by rewrite set_event_state_same.
Qed.

Lemma enable_irq_failure_installs_nothing_witness :
  mlua_event_enable_irq 0 w_slot3_pending 3 7 42 (ArgInteger 128) (-1) =
  (w_slot3_pending, 3, [], Returns (Some "event already claimed"%string)).
Proof.
  apply (proj2 (enable_irq_failure_installs_nothing
                  0 w_slot3_pending 3 7 42 (ArgInteger 128) (-1)%Z)).
  - unfold NUM_EVENTS. lia.
  - discriminate.
  - discriminate.
Defined.

(** X9. Enabling an interrupt-driven event through an unset handle, when a
    slot is free, claims a slot for the calling core, installs the handler
    (exclusive for a negative priority, shared otherwise) and only then
    enables the interrupt line.  Disabling it afterwards disables the line
    before removing the handler, returns no error, unsets the handle and
    leaves the slot free for every core. *)
Theorem enable_irq_then_disable
    (core : nat) (w : World) (ev : MLuaEvent) (irq handler : nat)
    (arg : IrqArg) (priority p priority2 : Z) :
  wf_event_state (event_state w) = true -> core < NUM_CORES ->
  NUM_EVENTS <= ev ->
  (exists e, e < NUM_EVENTS /\ is_claimed (event_state w) e = false) ->
  mlua_event_enable_irq_arg arg priority = Returns (true, p) ->
  exists w1 e,
    mlua_event_enable_irq core w ev irq handler arg priority =
    (w1, e,
     (if (p <? 0)%Z then IrqSetExclusiveHandler irq handler
      else IrqAddSharedHandler irq handler p)
     :: [IrqSetEnabled irq true],
     Returns None) /\
    e < NUM_EVENTS /\ claimed_by (event_state w1) core e = true /\
    exists w2,
      mlua_event_enable_irq core w1 e irq handler (ArgBoolean false)
                            priority2 =
      (w2, MLUA_EVENT_UNSET,
       [IrqSetEnabled irq false; IrqRemoveHandler irq handler],
       Returns None) /\
      is_claimed (event_state w2) e = false /\
      watchers w2 !! e = None.
Proof.
  intros Hwf Hcore Hev Hfree Harg.
  apply (proj2 (claim_succeeds_iff core (event_state w) ev Hev)) in Hfree.
  unfold mlua_event_enable_irq at 1. rewrite Harg.
  destruct (mlua_event_claim core (event_state w) ev)
    as [[es' e] err] eqn:Hclaim.
  cbn [snd] in Hfree. subst err.
  destruct (claim_success _ _ _ _ _ Hwf Hcore Hev Hclaim)
    as (He & Hfree0 & _ & _ & Hwf' & Hcl).
  exists (set_event_state w es'), e.
  assert (Hown : claimed_by es' core e = true)
    by (rewrite Hcl; by rewrite decide_True).
  split; [|split; [exact He|split; [exact Hown|]]].
  - unfold mlua_event_set_irq_handler. by destruct (p <? 0)%Z.
  - unfold mlua_event_enable_irq. cbn [mlua_event_enable_irq_arg negb].
    rewrite unclaim_owned by assumption.
    eexists. split; [reflexivity|].
    cbn [event_state set_watchers set_event_state watchers]. split.
    + apply is_claimed_false. intros c Hc.
      rewrite claimed_by_clear_bit by assumption.
      case_decide as Hd; [reflexivity|].
      rewrite Hcl, decide_False by exact Hd.
      rewrite is_claimed_false in Hfree0. by apply Hfree0.
    + apply lookup_delete_eq.
Qed.

Lemma enable_irq_then_disable_witness :
  exists w1 e,
    mlua_event_enable_irq 0 (world_of event_state_init) MLUA_EVENT_UNSET
                          7 42 ArgNil (-1) =
    (w1, e, [IrqSetExclusiveHandler 7 42; IrqSetEnabled 7 true],
     Returns None) /\
    e < NUM_EVENTS /\ claimed_by (event_state w1) 0 e = true /\
    exists w2,
      mlua_event_enable_irq 0 w1 e 7 42 (ArgBoolean false) 0 =
      (w2, MLUA_EVENT_UNSET, [IrqSetEnabled 7 false; IrqRemoveHandler 7 42],
       Returns None) /\
      is_claimed (event_state w2) e = false /\
      watchers w2 !! e = None.
Proof.
  apply (enable_irq_then_disable 0 (world_of event_state_init)
           MLUA_EVENT_UNSET 7 42 ArgNil (-1) (-1) 0).
  - reflexivity.
  - unfold NUM_CORES. lia.
  - unfold NUM_EVENTS, MLUA_EVENT_UNSET. lia.
  - exists 0. split; [unfold NUM_EVENTS; lia | reflexivity].
  - reflexivity.
Defined.

(** X10. Disabling never fails and does not look at the handle: on an
    event that the calling core does not hold (never enabled, already
    disabled, or held by the other core) it changes neither the world nor
    the handle, and it still disables the interrupt line and removes the
    handler. *)
Theorem disable_irq_not_enabled
    (core : nat) (w : World) (ev : MLuaEvent) (irq handler : nat)
    (priority : Z) :
  wf_event_state (event_state w) = true ->
  claimed_by (event_state w) core ev = false ->
  mlua_event_enable_irq core w ev irq handler (ArgBoolean false) priority =
  (w, ev, [IrqSetEnabled irq false; IrqRemoveHandler irq handler],
   Returns None).
Proof.
  intros Hwf Hfree. unfold mlua_event_enable_irq.
  cbn [mlua_event_enable_irq_arg negb].
  by rewrite unclaim_not_owned by assumption.
Qed.

Lemma disable_irq_not_enabled_witness :
  mlua_event_enable_irq 1 w_slot3_pending 3 7 42 (ArgBoolean false) 0 =
  (w_slot3_pending, 3, [IrqSetEnabled 7 false; IrqRemoveHandler 7 42],
   Returns None).
Proof.
  apply (disable_irq_not_enabled 1 w_slot3_pending 3 7 42 0);
    reflexivity.
Defined.

(* ===================================================================== *)
(** ** More on the watcher registry and the wait protocol *)
(* ===================================================================== *)

(** X11. [mlua_event_watch] succeeds exactly on a valid slot id in a
    yieldable thread.  Otherwise it raises and registers nothing: the
    world is unchanged, and the check of the slot id comes first, so a
    disabled event is reported as such also in a thread that cannot
    yield. *)
Theorem watch_raises_iff (w : World) (ev : MLuaEvent) :
  ((mlua_event_watch w ev).2 = None <->
   ev < NUM_EVENTS /\ yieldable w = true) /\
  ((mlua_event_watch w ev).2 <> None -> (mlua_event_watch w ev).1 = w) /\
  (NUM_EVENTS <= ev ->
   mlua_event_watch w ev = (w, Some "watching disabled event"%string)) /\
  (ev < NUM_EVENTS -> yieldable w = false ->
   mlua_event_watch w ev =
   (w, Some "watching event in unyieldable thread"%string)).
Proof.
  unfold mlua_event_watch.
  destruct (Nat.leb_spec NUM_EVENTS ev) as [Hge|Hlt].
  - split; [|split; [|split]]; try done.
    + split; [discriminate | intros [? _]; lia].
    + intros; lia.
  - destruct (yieldable w) eqn:Hy; cbn [negb].
    + assert (Hok : forall A (B : A) r,
                r = match watchers w !! ev with
                    | Some (WThread t) =>
                        if t =? running w then (w, None)
                        else
                          let a := fresh (dom (tables w)) in
                          (set_watchers
                             (set_tables w
                                (<[a := table_add t
                                          (table_add (running w) ∅)]>
                                   (tables w)))
                             (<[ev := WTable a]> (watchers w)), None)
                    | Some (WTable a) =>
                        (set_tables w
                           (alter (table_add (running w)) a (tables w)),
                         None)
                    | None =>
                        (set_watchers w
                           (<[ev := WThread (running w)]> (watchers w)),
                         None)
                    end -> r.2 = (None : option string)).
      { intros _ _ r ->.
        destruct (watchers w !! ev) as [[t|a]|]; [|reflexivity|reflexivity].
        by destruct (t =? running w). }
      specialize (Hok unit tt _ eq_refl).
      split; [|split; [|split]].
      * split; [intros _; by split | intros _; exact Hok].
      * intros Hne. by destruct Hne.
      * intros; lia.
      * discriminate.
    + split; [|split; [|split]]; try done.
      * split; [discriminate | intros [_ ?]; discriminate].
      * intros; lia.
Qed.

Lemma watch_raises_iff_witness :
  mlua_event_watch w_slot3_idle MLUA_EVENT_UNSET =
  (w_slot3_idle, Some "watching disabled event"%string) /\
  (mlua_event_watch w_slot3_idle 3).2 = None.
Proof.
  destruct (watch_raises_iff w_slot3_idle MLUA_EVENT_UNSET)
    as (_ & _ & Hdis & _).
  destruct (watch_raises_iff w_slot3_idle 3) as (Hiff & _).
  split.
  - apply Hdis. unfold NUM_EVENTS, MLUA_EVENT_UNSET. lia.
  - apply Hiff. split; [unfold NUM_EVENTS; lia | reflexivity].
Defined.

Lemma watchers_of_unwatch (w : World) (ev : MLuaEvent) :
  ev < NUM_EVENTS ->
  watchers_of (mlua_event_unwatch w ev) ev =
  watchers_of w ev ∖ {[running w]}.
Proof.
  intros Hev. rewrite unwatch_enabled by assumption. unfold watchers_of.
  destruct (watchers w !! ev) as [[t0|a]|] eqn:Hlook.
  - destruct (Nat.eqb_spec t0 (running w)) as [->|Hne]; simpl.
    + rewrite lookup_delete_eq. set_solver.
    + rewrite Hlook. set_solver.
  - simpl. rewrite Hlook. unfold table_keys. simpl.
    rewrite lookup_alter, decide_True by reflexivity.
    destruct (tables w !! a) as [s|]; simpl; unfold table_remove; set_solver.
  - rewrite Hlook. set_solver.
Qed.

Lemma watchers_of_watch (w : World) (ev : MLuaEvent) :
  ev < NUM_EVENTS -> yieldable w = true ->
  (forall a, watchers w !! ev = Some (WTable a) -> is_Some (tables w !! a)) ->
  watchers_of (mlua_event_watch w ev).1 ev = {[running w]} ∪ watchers_of w ev.
Proof.
  intros Hev Hy Hlive. rewrite watch_enabled by assumption.
  unfold watchers_of.
  destruct (watchers w !! ev) as [[t0|a]|] eqn:Hlook.
  - destruct (Nat.eqb_spec t0 (running w)) as [->|Hne]; simpl.
    + rewrite Hlook. set_solver.
    + rewrite lookup_insert_eq. unfold table_keys. simpl.
      rewrite lookup_insert_eq. simpl. unfold table_add. set_solver.
  - destruct (Hlive a eq_refl) as [s Hs]. simpl. rewrite Hlook.
    unfold table_keys. simpl. rewrite lookup_alter, decide_True, Hs by done.
    simpl. unfold table_add. set_solver.
  - simpl. rewrite lookup_insert_eq. set_solver.
Qed.

Lemma running_watch (w : World) (ev : MLuaEvent) :
  running (mlua_event_watch w ev).1 = running w.
Proof.
  unfold mlua_event_watch.
  destruct (NUM_EVENTS <=? ev); [reflexivity|].
  destruct (negb (yieldable w)); [reflexivity|].
  destruct (watchers w !! ev) as [[t|a]|]; [|reflexivity|reflexivity].
  by destruct (t =? running w).
Qed.

(** X12. [mlua_event_unwatch] never raises and removes nobody but the
    running thread: whatever the storage tier, the watchers of the slot
    afterwards are the old ones without the running thread; the slot table
    and the registry entries of the other slots are untouched; and on a
    handle that is not a valid id it does nothing at all. *)
Theorem unwatch_removes_only_running (w : World) (ev : MLuaEvent) :
  (ev < NUM_EVENTS ->
   watchers_of (mlua_event_unwatch w ev) ev =
   watchers_of w ev ∖ {[running w]}) /\
  event_state (mlua_event_unwatch w ev) = event_state w /\
  (forall e, e <> ev ->
     watchers (mlua_event_unwatch w ev) !! e = watchers w !! e) /\
  (NUM_EVENTS <= ev -> mlua_event_unwatch w ev = w).
Proof.
  split; [apply watchers_of_unwatch|].
  unfold mlua_event_unwatch.
  destruct (Nat.leb_spec NUM_EVENTS ev) as [Hge|Hlt];
    [by repeat split; intros; lia|].
  destruct (watchers w !! ev) as [[t0|a]|];
    [destruct (t0 =? running w)| |];
    (split; [reflexivity|]); (split; [|intros; lia]);
    intros e Hne; cbn [watchers set_watchers set_tables];
    try reflexivity.
  by apply lookup_delete_ne.
Qed.

Lemma unwatch_removes_only_running_witness :
  watchers_of (mlua_event_unwatch w_single_watcher 5) 5 =
  watchers_of w_single_watcher 5 ∖ {[running w_single_watcher]} /\
  mlua_event_unwatch w_single_watcher MLUA_EVENT_UNSET = w_single_watcher.
Proof.
  destruct (unwatch_removes_only_running w_single_watcher 5) as (H1 & _).
  destruct (unwatch_removes_only_running w_single_watcher MLUA_EVENT_UNSET)
    as (_ & _ & _ & H4).
  split.
  - apply H1. unfold NUM_EVENTS. lia.
  - apply H4. unfold NUM_EVENTS, MLUA_EVENT_UNSET. lia.
Defined.

(** X13. Watch followed by unwatch by the same thread leaves the slot with
    its old watchers minus that thread; when the slot had no registry
    entry the world is exactly the one before the watch. *)
Theorem watch_then_unwatch (w : World) (ev : MLuaEvent) :
  ev < NUM_EVENTS -> yieldable w = true ->
  (forall a, watchers w !! ev = Some (WTable a) -> is_Some (tables w !! a)) ->
  watchers_of (mlua_event_unwatch (mlua_event_watch w ev).1 ev) ev =
  watchers_of w ev ∖ {[running w]} /\
  (watchers w !! ev = None ->
   mlua_event_unwatch (mlua_event_watch w ev).1 ev = w).
Proof.
  intros Hev Hy Hlive. split.
  - rewrite watchers_of_unwatch, running_watch, watchers_of_watch
      by assumption.
    set_solver.
  - intros Hnone. rewrite watch_enabled, Hnone by assumption.
    cbn [fst]. rewrite unwatch_enabled by assumption.
    cbn [watchers set_watchers running]. rewrite lookup_insert_eq.
    rewrite Nat.eqb_refl. destruct w as [es sev clk ws ts run y].
    unfold set_watchers. cbn in *. f_equal.
    by apply delete_insert_id.
Qed.

Lemma watch_then_unwatch_witness :
  watchers_of (mlua_event_unwatch (mlua_event_watch w_single_watcher 5).1 5) 5
  = watchers_of w_single_watcher 5 ∖ {[running w_single_watcher]} /\
  mlua_event_unwatch (mlua_event_watch w_slot3_idle 3).1 3 = w_slot3_idle.
Proof.
  split.
  - apply (proj1 (watch_then_unwatch w_single_watcher 5
                    ltac:(unfold NUM_EVENTS; lia) eq_refl
                    ltac:(intros a Ha; vm_compute in Ha; discriminate))).
  - apply (proj2 (watch_then_unwatch w_slot3_idle 3
                    ltac:(unfold NUM_EVENTS; lia) eq_refl
                    ltac:(intros a Ha; vm_compute in Ha; discriminate))).
    reflexivity.
Defined.

(** X14. Errors in the wait protocol.  An error raised by the try function
    propagates out of [mlua_event_wait] and of [mlua_event_wait_2] in the
    world the try function left: on the first call nothing has been
    registered, and on a resume the thread is not unregistered.  A try
    function that is not ready in a thread that cannot yield makes
    [mlua_event_wait] raise "watching event in unyieldable thread" instead
    of suspending, again without registering. *)
Theorem wait_error_paths
    (w : World) (ev : MLuaEvent) (try_get : TryFn) (index : Z) :
  ev < NUM_EVENTS ->
  let k := {| k_event := ev; k_try := try_get; k_index := index |} in
  (forall w1 msg,
     try_get w = (w1, Raises msg) ->
     mlua_event_wait w ev try_get index = (w1, Error msg)) /\
  (forall w1 res,
     try_get w = (w1, Returns res) -> (res < 0)%Z -> yieldable w1 = false ->
     mlua_event_wait w ev try_get index =
     (w1, Error "watching event in unyieldable thread")) /\
  (forall wr w1 msg,
     try_get wr = (w1, Raises msg) ->
     mlua_event_wait_2 wr k = (w1, Error msg)).
Proof.
  intros Hev. cbv zeta.
  assert (Hge : (NUM_EVENTS <=? ev) = false) by (apply Nat.leb_gt; lia).
  split; [|split].
  - intros w1 msg Htry. unfold mlua_event_wait. by rewrite Hge, Htry.
  - intros w1 res Htry Hres Hy. unfold mlua_event_wait.
    rewrite Hge, Htry. destruct (Z.leb_spec 0 res); [lia|].
    unfold mlua_event_watch. by rewrite Hge, Hy.
  - intros wr w1 msg Htry. unfold mlua_event_wait_2. simpl.
    by rewrite Htry.
Qed.

Lemma wait_error_paths_witness :
  mlua_event_wait w_slot3_idle 3 (fun w => (w, Raises "bad state"%string)) 1
  = (w_slot3_idle, Error "bad state").
Proof.
  apply (proj1 (wait_error_paths w_slot3_idle 3
                  (fun w => (w, Raises "bad state"%string)) 1
                  ltac:(unfold NUM_EVENTS; lia))).
  reflexivity.
Defined.

(* ===================================================================== *)
(** ** Dispatch passes that resume nobody *)
(* ===================================================================== *)

Lemma set_pending_at_same (es : EventState) (block : nat) :
  set_pending_at es block (pending_at es block) = es.
Proof.
  destruct es as [p m]. unfold set_pending_at, pending_at, word_at.
  cbn [pending mask]. f_equal.
  destruct (decide (block < length p)) as [Hlt|Hge].
  - apply list_insert_id. by apply lookup_nth.
  - apply list_insert_ge. lia.
Qed.

(** Clearing the bits of a mask that shares no bit with the word. *)
Lemma land_not32_disjoint (p m : Z) :
  word32 p = true ->
  (forall i, i < 32 -> Z.testbit (Z.land p m) (Z.of_nat i) = false) ->
  Z.land p (not32 m) = p.
Proof.
  intros Hp Hdis. apply Z.bits_inj'. intros n Hn. rewrite Z.land_spec.
  destruct (Z.lt_ge_cases n 32) as [Hlt|Hge].
  - rewrite <- (Z2Nat.id n) by assumption.
    rewrite testbit_not32 by lia.
    specialize (Hdis (Z.to_nat n) ltac:(lia)). rewrite Z.land_spec in Hdis.
    destruct (Z.testbit p _), (Z.testbit m _); done.
  - rewrite testbit_not32_high by assumption.
    rewrite (word32_high_bits p n) by assumption. reflexivity.
Qed.

Section PassUnwatched.

Variable core : nat.
Variable resume : nat -> World -> World * CallResult bool.
Variable traversal : gset nat -> list nat.

Lemma dispatch_active_unwatched
    (fuel block k : nat) (active : Z) (wake : bool) (w : World) :
  32 <= k + fuel ->
  (forall j, j < k -> Z.testbit active (Z.of_nat j) = false) ->
  (forall i, i < 32 -> Z.testbit active (Z.of_nat i) = true ->
             watchers w !! (block * 32 + i) = None) ->
  dispatch_active resume traversal fuel block active wake w =
  ([], Ok wake w).
Proof.
  revert k active. induction fuel as [|fuel IH];
    intros k active Hfuel Hlow Hnone.
  - cbn [dispatch_active].
    destruct (ffs active) as [|idx] eqn:Hffs; [reflexivity|].
    destruct (ffs_succ _ _ Hffs) as (Hidx & Hbit & _).
    rewrite Hlow in Hbit by lia. discriminate.
  - cbn [dispatch_active].
    destruct (ffs active) as [|idx] eqn:Hffs; [reflexivity|].
    destruct (ffs_succ _ _ Hffs) as (Hidx & Hbit & Hbelow).
    unfold bind, dispatch_slot. rewrite (Hnone idx Hidx Hbit).
    unfold ret at 1. rewrite (IH (S idx)); [reflexivity | | |].
    + assert (k <= idx); [|lia].
      destruct (decide (k <= idx)) as [|Hgt]; [assumption|].
      rewrite Hlow in Hbit by lia. discriminate.
    + intros j Hj. rewrite Z.land_spec.
      destruct (decide (j = idx)) as [->|Hne].
      * rewrite testbit_not32, testbit_bit by assumption.
        rewrite bool_decide_eq_true_2 by reflexivity. apply andb_false_r.
      * rewrite Hbelow by lia. reflexivity.
    + intros i Hi Hb. apply Hnone; [assumption|].
      rewrite Z.land_spec in Hb. by apply andb_true_iff in Hb as [? _].
Qed.

(** The blocks [block .. block + n) when none of their active slots has a
    registry entry: the pending bits are drained and nothing else
    happens. *)
Lemma dispatch_blocks_unwatched (n block : nat) (wake : bool) (w : World) :
  (forall e, block <= e / 32 < block + n ->
     is_pending (event_state w) e = true ->
     claimed_by (event_state w) core e = true ->
     watchers w !! e = None) ->
  exists es',
    dispatch_blocks core resume traversal n block wake w =
    ([], Ok wake (set_event_state w es')) /\
    mask es' = mask (event_state w) /\
    forall e,
      is_pending es' e =
      if decide (block <= e / 32 < block + n)
      then is_pending (event_state w) e &&
           negb (claimed_by (event_state w) core e)
      else is_pending (event_state w) e.
Proof.
  revert block w. induction n as [|n IH]; intros block w Hnone.
  - exists (event_state w). rewrite set_event_state_same.
    split; [reflexivity|]. split; [reflexivity|].
    intros e. case_decide; [lia | reflexivity].
  - cbn [dispatch_blocks]. unfold bind at 1. unfold dispatch_block.
    cbv zeta. set (es := event_state w).
    set (wd := set_event_state w (drain_block core block es)).
    rewrite (dispatch_active_unwatched 32 block 0); [|lia|intros; lia|].
    + destruct (IH (S block) wd) as (es' & Hrun & Hmask & Hpend).
      { intros e He Hp Hc. unfold wd in Hp, Hc |- *.
        cbn [event_state set_event_state watchers] in Hp, Hc |- *.
        rewrite is_pending_drain_block in Hp.
        rewrite decide_False in Hp by lia.
        apply Hnone; [lia | exact Hp | exact Hc]. }
      exists es'. rewrite Hrun. split; [reflexivity|].
      split; [exact Hmask|]. intros e. rewrite Hpend.
      unfold wd. cbn [event_state set_event_state].
      rewrite is_pending_drain_block.
      change (claimed_by (drain_block core block es) core e)
        with (claimed_by es core e).
      repeat case_decide; try lia; reflexivity.
    + intros i Hi Hb. unfold wd. cbn [watchers set_event_state].
      change (active_bit core es block i = true) in Hb.
      rewrite active_bit_slot in Hb by assumption.
      apply andb_true_iff in Hb as [Hp Hc].
      apply Hnone; [rewrite slot_div by assumption; lia | exact Hp | exact Hc].
Qed.

(** The blocks [block .. block + n) when none of their slots is active:
    the world is left as it is. *)
Lemma dispatch_blocks_idle (n block : nat) (wake : bool) (w : World) :
  wf_event_state (event_state w) = true ->
  (forall e, is_pending (event_state w) e = true ->
             claimed_by (event_state w) core e = false) ->
  dispatch_blocks core resume traversal n block wake w = ([], Ok wake w).
Proof.
  intros Hwf Hidle. revert block. induction n as [|n IH]; intros block.
  - reflexivity.
  - cbn [dispatch_blocks]. unfold bind at 1. unfold dispatch_block.
    cbv zeta.
    assert (Hdis : forall i, i < 32 ->
              active_bit core (event_state w) block i = false).
    { intros i Hi. rewrite active_bit_slot by assumption.
      destruct (is_pending (event_state w) (block * 32 + i)) eqn:Hp;
        [|reflexivity].
      by rewrite (Hidle _ Hp). }
    assert (Hd : drain_block core block (event_state w) = event_state w).
    { unfold drain_block. cbv zeta.
      rewrite land_not32_disjoint;
        [apply set_pending_at_same | apply wf_pending_word32, Hwf | exact Hdis]. }
    rewrite Hd, set_event_state_same.
    rewrite (dispatch_active_unwatched 32 block 0); [|lia|intros; lia|].
    + by rewrite IH.
    + intros i Hi Hb.
      change (active_bit core (event_state w) block i = true) in Hb.
      rewrite Hdis in Hb by assumption. discriminate.
Qed.

End PassUnwatched.

(** A pass keeps the slot table well formed when the resumed threads leave
    it alone. *)
Lemma dispatch_pass_wf
    (core : nat) (resume : nat -> World -> World * CallResult bool)
    (traversal : gset nat -> list nat)
    (w : World) (tr : list Event) (wake : bool) (w1 : World) :
  (forall t w0, event_state (resume t w0).1 = event_state w0) ->
  wf_event_state (event_state w) = true ->
  dispatch_pass core resume traversal w = (tr, Ok wake w1) ->
  wf_event_state (event_state w1) = true.
Proof.
  intros Hframe Hwf Hrun.
  apply (comp_spec_dispatch_pass core resume traversal
           (fun wa wb => wf_event_state (event_state wa) = true ->
                         wf_event_state (event_state wb) = true)
           (fun _ Hw => Hw) (fun _ _ _ H12 H23 H1 => H23 (H12 H1))
           (fun t w0 Hw => eq_ind_r (fun es => wf_event_state es = true)
                             Hw (Hframe t w0))
           (fun block w0 Hw =>
              wf_set_pending_at _ block _ Hw
                (word32_land_l _ _ (wf_pending_word32 _ block Hw)))
           (fun _ _ => True) (fun _ _ _ _ _ => I)
           (fun _ _ _ _ _ _ _ => I)) in Hrun.
  destruct Hrun as [_ [Hr _]]. by apply Hr.
Qed.

(** X15. An event that is pending while no thread watches it is dropped:
    the pass clears its pending bit, resumes nobody, reports no progress
    and changes nothing else in the world, whatever the resume function
    is. *)
Theorem dispatch_drops_unwatched_events
    (core : nat) (resume : nat -> World -> World * CallResult bool)
    (traversal : gset nat -> list nat) (w : World) :
  wf_event_state (event_state w) = true ->
  unwatched core w ->
  exists es',
    dispatch_pass core resume traversal w =
    ([], Ok false (set_event_state w es')) /\
    mask es' = mask (event_state w) /\
    forall e,
      is_pending es' e =
      is_pending (event_state w) e &&
      negb (claimed_by (event_state w) core e).
Proof.
  intros Hwf Hnone.
  destruct (dispatch_blocks_unwatched core resume traversal
              EVENTS_SIZE 0 false w) as (es' & Hrun & Hmask & Hpend).
  { intros e _. apply Hnone. }
  exists es'. split; [exact Hrun|]. split; [exact Hmask|].
  intros e. rewrite Hpend. case_decide as Hr; [reflexivity|].
  rewrite claimed_by_out_of_range by (assumption || lia).
  by rewrite andb_true_r.
Qed.

Lemma dispatch_drops_unwatched_events_witness :
  exists es',
    dispatch_pass 0 resume_progress elements w_slot3_unwatched =
    ([], Ok false (set_event_state w_slot3_unwatched es')) /\
    mask es' = mask (event_state w_slot3_unwatched) /\
    forall e,
      is_pending es' e =
      is_pending (event_state w_slot3_unwatched) e &&
      negb (claimed_by (event_state w_slot3_unwatched) 0 e).
Proof.
  apply (dispatch_drops_unwatched_events 0 resume_progress elements
           w_slot3_unwatched).
  - reflexivity.
  - intros e _ _. reflexivity.
Defined.

(** X16. When the resumed threads leave the slot table alone, a pass that
    follows a completed pass finds nothing to do: it resumes nobody,
    reports no progress and leaves the world exactly as it is. *)
Theorem dispatch_pass_twice
    (core : nat) (resume : nat -> World -> World * CallResult bool)
    (traversal : gset nat -> list nat)
    (w : World) (tr : list Event) (wake : bool) (w1 : World) :
  wf_event_state (event_state w) = true ->
  (forall t w0, event_state (resume t w0).1 = event_state w0) ->
  dispatch_pass core resume traversal w = (tr, Ok wake w1) ->
  dispatch_pass core resume traversal w1 = ([], Ok false w1).
Proof.
  intros Hwf Hframe Hrun.
  pose proof (dispatch_pass_wf _ _ _ _ _ _ _ Hframe Hwf Hrun) as Hwf1.
  apply dispatch_blocks_idle; [exact Hwf1|].
  intros e Hp. apply not_true_iff_false. intros Hc.
  pose proof (dispatch_blocks_frame core resume traversal Hframe
                EVENTS_SIZE 0 false w _ _ Hrun) as [_ [(Hmask & _) _]].
  rewrite (claimed_by_mask_eq _ _ _ _ Hmask) in Hc.
  destruct (claimed_by_in_range _ _ _ Hwf Hc) as [_ He].
  apply slot_block_lt in He.
  rewrite (dispatch_blocks_clears core resume traversal Hframe
             EVENTS_SIZE 0 false w tr wake w1 e Hrun) in Hp;
    [discriminate | lia | exact Hc].
Qed.

Lemma dispatch_pass_twice_witness :
  dispatch_pass 0 resume_progress elements
    (set_event_state w_slot3_pending
       {| pending := [0; 0; 0; 0]%Z;
          mask := [[8; 0; 0; 0]; [0; 0; 0; 0]]%Z |}) =
  ([], Ok false
         (set_event_state w_slot3_pending
            {| pending := [0; 0; 0; 0]%Z;
               mask := [[8; 0; 0; 0]; [0; 0; 0; 0]]%Z |})).
Proof.
  apply (dispatch_pass_twice 0 resume_progress elements w_slot3_pending
           [EvResume 3 1 (Returns true)] true).
  - reflexivity.
  - intros t w0. reflexivity.
  - vm_compute. reflexivity.
Defined.

(** X17. A slot released while its pending bit is set is never handled
    again: after [mlua_event_unclaim] by the owner, a pass on any core
    resumes no watcher of the slot and leaves its pending bit set, also
    when the pass is cut short by an error. *)
Theorem released_slot_stays_pending
    (core c : nat) (resume : nat -> World -> World * CallResult bool)
    (traversal : gset nat -> list nat)
    (w : World) (ev : MLuaEvent) (tr : list Event) (r : Res bool) :
  wf_event_state (event_state w) = true ->
  claimed_by (event_state w) core ev = true ->
  is_pending (event_state w) ev = true ->
  (c <> core -> claimed_by (event_state w) c ev = false) ->
  (forall t w0, event_state (resume t w0).1 = event_state w0) ->
  dispatch_pass c resume traversal (mlua_event_unclaim core w ev).1 = (tr, r) ->
  (forall t res, ~ In (EvResume ev t res) tr) /\
  match r with
  | Ok _ w' | Raise _ w' => is_pending (event_state w') ev = true
  | Fuel => False
  end.
Proof.
  intros Hwf Hown Hpend Hother Hframe Hrun.
  destruct (claimed_by_in_range _ _ _ Hwf Hown) as [Hcore Hev].
  rewrite (unclaim_owned core w ev Hwf Hev Hown) in Hrun. cbn [fst] in Hrun.
  set (w0 := set_watchers _ _) in Hrun.
  assert (Hfree : claimed_by (event_state w0) c ev = false).
  { unfold w0. cbn [event_state set_event_state set_watchers].
    rewrite claimed_by_clear_bit by assumption.
    case_decide as Hd; [reflexivity|]. apply Hother. intros ->. by apply Hd. }
  assert (Hp0 : is_pending (event_state w0) ev = true) by exact Hpend.
  pose proof (dispatch_blocks_frame c resume traversal Hframe
                EVENTS_SIZE 0 false w0 _ _ Hrun) as [Htr Hr].
  split.
  - intros t res Hin. rewrite Forall_forall in Htr.
    apply list_elem_of_In, Htr in Hin.
    destruct Hin as (slot & t' & r' & [= <- <- <-] & w1 & (Hm & _) & _ & Hc).
    rewrite (claimed_by_mask_eq _ _ _ _ Hm) in Hc. congruence.
  - destruct r as [wake w'|msg w'|]; [| |exact Hr].
    + destruct Hr as [(_ & _ & Hkeep) _]. by rewrite Hkeep.
    + destruct Hr as (_ & _ & Hkeep). by rewrite Hkeep.
Qed.

Lemma released_slot_stays_pending_witness :
  (forall t res,
     ~ In (EvResume 3 t res)
          (dispatch_pass 0 resume_progress elements
             (mlua_event_unclaim 0 w_slot3_pending 3).1).1) /\
  is_pending
    (event_state
       (match (dispatch_pass 0 resume_progress elements
                 (mlua_event_unclaim 0 w_slot3_pending 3).1).2 with
        | Ok _ w' | Raise _ w' => w'
        | Fuel => w_slot3_pending
        end)) 3 = true.
Proof.
  pose proof (released_slot_stays_pending 0 0 resume_progress elements
                w_slot3_pending 3 _ _ eq_refl eq_refl eq_refl
                ltac:(intros Hne; by destruct Hne)
                ltac:(intros t w0; reflexivity)
                (surjective_pairing _)) as [H1 H2].
  split; [exact H1|].
  destruct (dispatch_pass 0 resume_progress elements
              (mlua_event_unclaim 0 w_slot3_pending 3).1).2
    as [wake w'|msg w'|]; [exact H2 | exact H2 | destruct H2].
Defined.

(* ===================================================================== *)
(** ** Resuming a set of watchers; the low-power waits *)
(* ===================================================================== *)

Lemma resume_table_each
    (resume : nat -> World -> World * CallResult bool)
    (slot a : nat) (keys : list nat) (wake : bool) (w : World) :
  (forall t w0, tables (resume t w0).1 = tables w0) ->
  Forall (fun t => t ∈ table_keys w a) keys ->
  let '(tr, r) := resume_table resume slot a keys wake w in
  omap event_thread tr `prefix_of` keys /\
  Forall (fun e => exists t res, e = EvResume slot t res) tr /\
  match r with
  | Ok _ _ => omap event_thread tr = keys
  | Raise _ _ => True
  | Fuel => False
  end.
Proof.
  intros Hframe. revert wake w.
  induction keys as [|t rest IH]; intros wake w Hkeys.
  - cbn. split; [done|]. split; [constructor | reflexivity].
  - cbn [resume_table]. apply Forall_cons in Hkeys as [Hin Hrest].
    rewrite decide_True by assumption.
    unfold bind, resume_watcher.
    pose proof (Hframe t w) as Htab.
    destruct (resume t w) as [w' [b|msg]]; cbn [fst] in Htab.
    + specialize (IH (wake || b) w').
      destruct (resume_table resume slot a rest (wake || b) w') as [tr r].
      destruct IH as (Hpre & Hev & Hr).
      { unfold table_keys. rewrite Htab. exact Hrest. }
      simpl. split; [by apply prefix_cons|].
      split; [constructor; eauto|].
      destruct r; [f_equal; exact Hr | exact I | exact Hr].
    + cbn. split; [apply prefix_cons, prefix_nil|].
      split; [|exact I]. repeat constructor. eauto.
Qed.

(** X18. A slot watched by a set of threads: when the resumed threads
    leave the watcher sets alone, [dispatch_slot] resumes the members of
    the set one after the other in the order of the table traversal, each
    of them once and nobody else; an error raised by one of them ends the
    loop, and the members after it are not resumed. *)
Theorem dispatch_slot_resumes_each_watcher
    (resume : nat -> World -> World * CallResult bool)
    (traversal : gset nat -> list nat)
    (slot a : nat) (wake : bool) (w : World) :
  watchers w !! slot = Some (WTable a) ->
  (forall t w0, tables (resume t w0).1 = tables w0) ->
  (forall s t, t ∈ traversal s -> t ∈ s) ->
  let '(tr, r) := dispatch_slot resume traversal slot wake w in
  omap event_thread tr `prefix_of` traversal (table_keys w a) /\
  Forall (fun e => exists t res, e = EvResume slot t res) tr /\
  match r with
  | Ok _ _ => omap event_thread tr = traversal (table_keys w a)
  | Raise _ _ => True
  | Fuel => False
  end.
Proof.
  intros Hslot Hframe Htrav. unfold dispatch_slot. rewrite Hslot.
  apply resume_table_each; [exact Hframe|].
  apply Forall_forall. intros t. apply Htrav.
Qed.

Lemma dispatch_slot_resumes_each_watcher_witness :
  let '(tr, r) := dispatch_slot resume_idle elements 5 false
                    w_three_watchers in
  omap event_thread tr `prefix_of` elements (table_keys w_three_watchers 0) /\
  Forall (fun e => exists t res, e = EvResume 5 t res) tr /\
  match r with
  | Ok _ _ => omap event_thread tr = elements (table_keys w_three_watchers 0)
  | Raise _ _ => True
  | Fuel => False
  end.
Proof.
  apply (dispatch_slot_resumes_each_watcher resume_idle elements 5 0 false
           w_three_watchers).
  - reflexivity.
  - intros t w0. reflexivity.
  - intros s t. apply elem_of_elements.
Defined.

(** X19. The low-power waits of [mod_dispatch] match its deadline: it
    executes [__wfe] only when the deadline is [at_the_end_of_time] and
    [best_effort_wfe_or_timeout] only with the deadline it was given, and
    never when the deadline is [nil_time].  A pass that ends with the
    deadline reached ends the call without a wait, and an error raised by
    a resumed thread ends it at once with that error. *)
Theorem dispatch_waits_match_deadline
    (core : nat) (resume : nat -> World -> World * CallResult bool)
    (traversal : gset nat -> list nat)
    (wfe : World -> World) (wfe_or_timeout : Z -> World -> World)
    (deadline : Z) :
  let dispatch := mod_dispatch core resume traversal wfe wfe_or_timeout in
  let pass := dispatch_pass core resume traversal in
  (forall fuel w tr r,
     dispatch fuel deadline w = (tr, r) ->
     Forall (fun e =>
               match e with
               | EvResume _ _ _ => True
               | EvWfe => is_at_the_end_of_time deadline = true
               | EvWfeOrTimeout d =>
                   d = deadline /\ is_at_the_end_of_time deadline = false /\
                   is_nil_time deadline = false
               end) tr) /\
  (forall fuel w tr wake w1,
     pass w = (tr, Ok wake w1) -> time_reached deadline w1 = true ->
     dispatch (S fuel) deadline w = (tr, Ok tt w1)) /\
  (forall fuel w tr msg w1,
     pass w = (tr, Raise msg w1) ->
     dispatch (S fuel) deadline w = (tr, Raise msg w1)).
Proof.
  cbv zeta. split; [|split].
  - induction fuel as [|fuel IH]; intros w tr r.
    + intros [= <- _]. constructor.
    + rewrite mod_dispatch_step.
      destruct (dispatch_pass core resume traversal w)
        as [tr1 r1] eqn:Hpass.
      assert (Htr1 : Forall (fun e =>
                match e with
                | EvResume _ _ _ => True
                | EvWfe => is_at_the_end_of_time deadline = true
                | EvWfeOrTimeout d =>
                    d = deadline /\ is_at_the_end_of_time deadline = false /\
                    is_nil_time deadline = false
                end) tr1).
      { apply dispatch_pass_wake in Hpass as [Hres _].
        eapply Forall_impl; [exact Hres|].
        by intros e (slot & t & res & ->). }
      destruct r1 as [wake w1|msg w1|]; [|by intros [= <- _]|by intros [= <- _]].
      destruct (wake || is_nil_time deadline || time_reached deadline w1)
        eqn:Hexit; [by intros [= <- _]|].
      cbv zeta.
      destruct (mod_dispatch _ _ _ _ _ fuel deadline _) as [tr2 r2] eqn:Hrest.
      intros [= <- _]. apply IH in Hrest.
      apply Forall_app. split; [exact Htr1|]. constructor; [|exact Hrest].
      apply orb_false_iff in Hexit as [Hexit _].
      apply orb_false_iff in Hexit as [_ Hnil].
      by destruct (is_at_the_end_of_time deadline).
  - intros fuel w tr wake w1 Hpass Hreached.
    rewrite mod_dispatch_step, Hpass, Hreached.
    by rewrite orb_true_r.
  - intros fuel w tr msg w1 Hpass. by rewrite mod_dispatch_step, Hpass.
Qed.

Lemma dispatch_waits_match_deadline_witness :
  mod_dispatch 0 resume_idle elements wfe_fires_slot3 sleep_until_deadline
    1 900 w_slot3_watched = ([], Ok tt w_slot3_watched).
Proof.
  apply (proj1 (proj2 (dispatch_waits_match_deadline 0 resume_idle elements
                         wfe_fires_slot3 sleep_until_deadline 900))
           0 w_slot3_watched [] false w_slot3_watched).
  - vm_compute. reflexivity.
  - reflexivity.
Defined.

(* ===================================================================== *)
(** ** Alarms *)
(* ===================================================================== *)

(** X20. An alarm thread never calls its callback before the time the
    call was set for: every call happens with the clock at or past its
    target, and when the thread suspends, it does so in a thread that can
    yield, with a target that is still in the future. *)
Theorem alarm_never_fires_early
    (delayed_by_us : Z -> Z -> Z)
    (callback : nat -> World -> World * CallResult (option Z))
    (fuel : nat) (w : World) (time : Z)
    (calls : list AlarmCall) (w' : World) (o : AlarmOutcome) :
  alarm_thread_1 delayed_by_us callback fuel w time = (calls, w', o) ->
  Forall (fun c => match c with AlarmFired t now => (t <= now)%Z end) calls /\
  match o with
  | AlarmYield t => (clock w' < t)%Z /\ yieldable w' = true
  | _ => True
  end.
Proof.
  revert w time calls w' o.
  induction fuel as [|fuel IH]; intros w time calls w' o;
    cbn [alarm_thread_1]; unfold mod_sleep_until, time_reached;
    (destruct (Z.leb_spec time (clock w)) as [Hle|Hgt];
     [|destruct (yieldable w) eqn:Hy; intros [= <- <- <-];
       (split; [constructor | done])]);
    (destruct (callback (running w) w) as [w1 [[repeat|]|msg]];
     [|intros [= <- <- <-]; by repeat constructor
      |intros [= <- <- <-]; by repeat constructor]);
    (destruct (repeat =? 0)%Z;
     [intros [= <- <- <-]; by repeat constructor|]).
  - intros [= <- <- <-]. by repeat constructor.
  - cbv zeta.
    destruct (alarm_thread_1 delayed_by_us callback fuel w1 _)
      as [[calls1 w2] o1] eqn:Hrest.
    intros [= <- <- <-]. apply IH in Hrest as [Hcalls Ho].
    split; [by constructor | exact Ho].
Qed.

Lemma alarm_never_fires_early_witness :
  Forall (fun c => match c with AlarmFired t now => (t <= now)%Z end)
    [AlarmFired 900 1000; AlarmFired 950 1010; AlarmFired 1000 1020] /\
  (1030 < 1050)%Z /\ true = true.
Proof.
  apply (alarm_never_fires_early add_us callback_periodic 5 w_slot3_idle 900
           [AlarmFired 900 1000; AlarmFired 950 1010; AlarmFired 1000 1020]
           {| event_state := event_state w_slot3_idle; sev_count := 0;
              clock := 1030%Z; watchers := ∅; tables := ∅; running := 1;
              yieldable := true |}
           (AlarmYield 1050)).
  vm_compute. reflexivity.
Defined.



(** X22. [schedule_alarm] starts no thread exactly when the time has been
    reached and [fire_if_past] is false.  The thread it starts otherwise
    runs [alarm_thread_1] on the time given: without [fire_if_past] it
    first suspends until that time without calling back, and for a time
    already reached (so with [fire_if_past]) its first action is the call
    of the callback. *)
Theorem schedule_alarm_past
    (delayed_by_us : Z -> Z -> Z)
    (callback : nat -> World -> World * CallResult (option Z))
    (w : World) (time : Z) :
  (forall fire_if_past,
     schedule_alarm w time fire_if_past = None <->
     fire_if_past = false /\ time_reached time w = true) /\
  (forall t fuel,
     schedule_alarm w time false = Some t -> yieldable w = true ->
     alarm_thread_1 delayed_by_us callback fuel w t = ([], w, AlarmYield time))
  /\
  (forall fire_if_past t fuel,
     schedule_alarm w time fire_if_past = Some t ->
     time_reached time w = true ->
     fire_if_past = true /\
     exists calls w' o,
       alarm_thread_1 delayed_by_us callback fuel w t =
       (AlarmFired time (clock w) :: calls, w', o)).
Proof.
  unfold schedule_alarm. split; [|split].
  - intros [|]; destruct (time_reached time w); cbn; split;
      try discriminate; try done; by intros [? ?].
  - intros t fuel. cbn [negb andb].
    destruct (time_reached time w) eqn:Hr; [discriminate|].
    intros [= <-] Hy.
    destruct fuel; cbn [alarm_thread_1]; unfold mod_sleep_until;
      by rewrite Hr, Hy.
  - intros fip t fuel Hsome Hr. rewrite Hr in Hsome.
    destruct fip; [|discriminate]. injection Hsome as <-.
    split; [reflexivity|].
    destruct fuel; cbn [alarm_thread_1]; unfold mod_sleep_until; rewrite Hr;
      destruct (callback (running w) w) as [w1 [[repeat|]|msg]]; eauto;
      destruct (repeat =? 0)%Z; eauto.
    cbv zeta. destruct (alarm_thread_1 _ _ fuel w1 _) as [[calls w2] o].
    eauto.
Qed.

Lemma schedule_alarm_past_witness :
  alarm_thread_1 add_us callback_periodic 5 w_slot3_idle 1500%Z =
  ([], w_slot3_idle, AlarmYield 1500%Z).
Proof.
  apply (proj1 (proj2 (schedule_alarm_past add_us callback_periodic
                         w_slot3_idle 1500%Z)) 1500%Z 5).
  - reflexivity.
  - reflexivity.
Defined.

(* ===================================================================== *)
(** ** Table utilities *)
(* ===================================================================== *)

Section UtilFacts.

Context {K V : Type} `{Countable K} `{EqDecision V}.

(** X23. [table_eq] decides equality of tables: it returns true exactly
    when both tables hold the same key / value pairs (for values that [==]
    compares by raw equality). *)
Theorem table_eq_iff (a b : gmap K V) :
  Util.table_eq a b = true <-> a = b.
Proof.
  unfold Util.table_eq. rewrite andb_true_iff, !forallb_forall. split.
  - intros [Hab Hba]. apply map_eq. intros k.
    destruct (a !! k) as [v|] eqn:Ha.
    + symmetry. specialize (Hab (k, v)). cbn in Hab.
      eapply bool_decide_eq_true_1, Hab, list_elem_of_In.
      by apply elem_of_map_to_list.
    + destruct (b !! k) as [v'|] eqn:Hb; [|reflexivity].
      specialize (Hba (k, v')). cbn in Hba.
      rewrite bool_decide_eq_true_2 in Hba by assumption.
      discriminate Hba. by apply list_elem_of_In, elem_of_map_to_list.
  - intros <-. split; intros [k v] Hin;
      apply list_elem_of_In, elem_of_map_to_list in Hin.
    + by apply bool_decide_eq_true_2.
    + rewrite bool_decide_eq_false_2; [reflexivity | congruence].
Qed.

Lemma keys_fold (p : K -> V -> bool) (l : list (K * V))
    (n : nat) (acc : list K) :
  fold_left
    (fun '(len, res) '(key, value) =>
       if p key value then (S len, res ++ [key]) else (len, res))
    l (n, acc) =
  (n + length (List.filter (fun kv => p kv.1 kv.2) l),
   acc ++ map fst (List.filter (fun kv => p kv.1 kv.2) l)).
Proof.
  revert n acc. induction l as [|[k v] l IH]; intros n acc; cbn.
  - by rewrite Nat.add_0_r, app_nil_r.
  - destruct (p k v); rewrite IH; cbn; [|reflexivity].
    rewrite <- app_assoc. f_equal. lia.
Qed.

Lemma values_fold (p : K -> V -> bool) (l : list (K * V))
    (n : nat) (acc : list V) :
  fold_left
    (fun '(len, res) '(key, value) =>
       if p key value then (S len, res ++ [value]) else (len, res))
    l (n, acc) =
  (n + length (List.filter (fun kv => p kv.1 kv.2) l),
   acc ++ map snd (List.filter (fun kv => p kv.1 kv.2) l)).
Proof.
  revert n acc. induction l as [|[k v] l IH]; intros n acc; cbn.
  - by rewrite Nat.add_0_r, app_nil_r.
  - destruct (p k v); rewrite IH; cbn; [|reflexivity].
    rewrite <- app_assoc. f_equal. lia.
Qed.

Lemma NoDup_filter_fst (q : K * V -> bool) (l : list (K * V)) :
  NoDup (map fst l) -> NoDup (map fst (List.filter q l)).
Proof.
  induction l as [|x l IH]; cbn; [done|].
  intros [Hnotin Hnd]%NoDup_cons. destruct (q x); cbn; [|by apply IH].
  apply NoDup_cons. split; [|by apply IH].
  intros Hin. apply Hnotin.
  apply list_elem_of_In, in_map_iff in Hin as (y & Hy & Hin).
  apply filter_In in Hin as [Hin _].
  apply list_elem_of_In, in_map_iff. eauto.
Qed.

(** X24. [keys] and [values]: the count stored at index 0 is the number
    of items; the keys are listed without repetition and are exactly the
    keys of the table whose entry passes the filter (all of them when no
    filter is given); and the values come in the order of the keys, the
    i-th value being the table's value at the i-th key. *)
Theorem keys_values_enumerate
    (tab : gmap K V) (filter : option (K -> V -> bool)) :
  let p := fun k v => match filter with None => true | Some f => f k v end in
  (Util.keys tab filter).1 = length (Util.keys tab filter).2 /\
  (Util.values tab filter).1 = length (Util.values tab filter).2 /\
  NoDup (Util.keys tab filter).2 /\
  (forall k, k ∈ (Util.keys tab filter).2 <->
             exists v, tab !! k = Some v /\ p k v = true) /\
  Forall2 (fun k v => tab !! k = Some v)
          (Util.keys tab filter).2 (Util.values tab filter).2 /\
  (filter = None -> (Util.keys tab filter).1 = size tab).
Proof.
  intros p. unfold Util.keys, Util.values.
  rewrite (keys_fold p), (values_fold p). cbn [fst snd app plus].
  rewrite !length_map.
  split; [reflexivity|]. split; [reflexivity|]. split; [|split; [|split]].
  - apply NoDup_filter_fst, NoDup_fst_map_to_list.
  - intros k. rewrite list_elem_of_In, in_map_iff. split.
    + intros ([k' v] & <- & Hin). apply filter_In in Hin as [Hin Hp].
      apply list_elem_of_In, elem_of_map_to_list in Hin. eauto.
    + intros (v & Hk & Hp). exists (k, v). split; [reflexivity|].
      apply filter_In. split; [|exact Hp].
      by apply list_elem_of_In, elem_of_map_to_list.
  - assert (Hall : forall kv, In kv (List.filter (fun kv => p kv.1 kv.2)
                                       (map_to_list tab)) ->
                              tab !! kv.1 = Some kv.2).
    { intros [k v] Hin. apply filter_In in Hin as [Hin _].
      by apply list_elem_of_In, elem_of_map_to_list in Hin. }
    induction (List.filter _ (map_to_list tab)) as [|kv l IH]; cbn;
      constructor.
    + apply Hall. by left.
    + apply IH. intros kv' Hin. apply Hall. by right.
  - intros ->. unfold p.
    rewrite List.forallb_filter_id.
    + apply length_map_to_list.
    + apply forallb_forall. by intros.
Qed.

End UtilFacts.

Lemma keys_values_enumerate_witness :
  (Util.keys ({[1 := 10%Z; 2 := 20%Z]} : gmap nat Z) None).1 =
  size ({[1 := 10%Z; 2 := 20%Z]} : gmap nat Z).
Proof.
  destruct (keys_values_enumerate ({[1 := 10%Z; 2 := 20%Z]} : gmap nat Z) None)
    as (_ & _ & _ & _ & _ & Hsize).
  apply Hsize. reflexivity.
Defined.

Ltac cases_ltb :=
  repeat match goal with
         | H : context [(?x <? ?y)%Z] |- _ => destruct (Z.ltb_spec x y)
         | |- context [(?x <? ?y)%Z] => destruct (Z.ltb_spec x y)
         end.

(** X25. The comparator made by [table_comp] is a strict order, as
    [table.sort] needs: no table is before itself, two tables are never
    each before the other, and the relation is transitive.  It compares
    lexicographically, key by key in the order of the list. *)
Theorem table_comp_strict_order
    {K : Type} `{Countable K} (keys : list K) (a b c : gmap K Z) :
  Util.table_comp keys a a <> Some true /\
  (Util.table_comp keys a b = Some true ->
   Util.table_comp keys b a = Some false) /\
  (Util.table_comp keys a b = Some true ->
   Util.table_comp keys b c = Some true ->
   Util.table_comp keys a c = Some true).
Proof.
  induction keys as [|k rest (IHirr & IHasym & IHtrans)];
    cbn [Util.table_comp]; [by repeat split|].
  destruct (a !! k) as [ak|], (b !! k) as [bk|], (c !! k) as [ck|];
    (split; [|split]); rewrite ?Z.gtb_ltb;
    try discriminate; try (intros; discriminate);
    cases_ltb; try discriminate; try lia; try (intros; discriminate);
    try assumption; try reflexivity; try (intros; reflexivity);
    try (intros; lia).
Qed.

Lemma table_comp_strict_order_witness :
  Util.table_comp [1; 2] ({[1 := 5%Z; 2 := 7%Z]} : gmap nat Z)
                         {[1 := 5%Z; 2 := 9%Z]} = Some true.
Proof.
  destruct (table_comp_strict_order [1; 2]
              ({[1 := 5%Z; 2 := 7%Z]} : gmap nat Z)
              {[1 := 5%Z; 2 := 8%Z]} {[1 := 5%Z; 2 := 9%Z]})
    as (_ & _ & Htrans).
  apply Htrans; vm_compute; reflexivity.
Defined.

(* ===================================================================== *)
(** ** [mod_dispatch] with a deadline comes back *)
(* ===================================================================== *)



